(** * Durable agent workflow: a shallow embedding of [worker/workflow.ts],
      [worker/agent.ts], [worker/tools.ts] and [worker/types.ts]

    The workflow's [run] method is an agent loop: each turn calls the LLM
    gateway inside a checkpointed step, appends the assistant message, and
    either finishes or runs every requested tool call inside its own
    checkpointed step.  Progress is mirrored into the state of a durable
    object ([ResearchAgent]).

    The embedding is a state-and-exception monad over one record holding
    everything [run] can touch: the local [messages] array, the agent's
    state, the engine's step records, and two logs (operations invoked,
    updates published) that make "was not re-invoked" and "published nothing
    further" statable.  The network (the gateway, the tools) and the JSON
    parser are a [Host] of functions; [MAX_AGENT_TURNS], a constant of
    [worker/constants.ts], is a parameter.

    The guard [isChatCompletionResponse] looks at [id], [model] and at
    [choices] being an array, not at the elements.  An element is a
    [Choice] as the guard's signature declares, or is absent, or is a value
    on which the reads of [run] throw a [TypeError]; the call of the agent,
    an RPC to a durable object, is taken to resolve. *)

From stdpp Require Import base strings list gmap pretty.

Set Warnings "-register-all".
Set Default Proof Using "Type".

(* ================================================================= *)
(** ** Data model ([worker/types.ts]) *)

(** An own property of a JS object literal: [absent] when the key is not
    written at all, [present v] when it is.  Object spread copies exactly the
    present ones, also when the value is [undefined]. *)
Inductive property (A : Type) : Type :=
| absent
| present (a : A).
Arguments absent {A}.
Arguments present {A} a.

(** [AgentStatus] constants. *)
Module AgentStatus.
Definition IDLE : string := "idle".
Definition RUNNING : string := "running".
Definition SEARCHING : string := "searching".
Definition ANALYZING : string := "analyzing".
Definition FETCHING : string := "fetching".
Definition COMPLETE : string := "complete".
Definition ERROR : string := "error".
End AgentStatus.

(** [AgentState]: [result?: string]; the inner [None] is [undefined]. *)
Record AgentState : Type := mkAgentState {
  as_status : string;
  as_message : string;
  as_result : property (option string);
}.

(** [ProgressUpdate]: [result?: string | undefined]. *)
Record ProgressUpdate : Type := mkProgressUpdate {
  pu_status : string;
  pu_message : string;
  pu_result : property (option string);
}.

Inductive WorkflowStatus : Type := complete | max_turns_reached.

(** [WorkflowResult]: [result?: string | null]; the inner [None] is [null]. *)
Record WorkflowResult : Type := mkWorkflowResult {
  wr_status : WorkflowStatus;
  wr_turns : nat;
  wr_result : property (option string);
}.

Record ToolCallFunction : Type := mkToolCallFunction {
  fn_name : string;
  fn_arguments : string;
}.

(** [ToolCall]; the [type] field is the constant ["function"]. *)
Record ToolCall : Type := mkToolCall {
  tc_id : string;
  tc_function : ToolCallFunction;
}.

Inductive Role : Type := system | user | assistant | tool.

(** [ChatMessage]: [content: string | null], the other two optional. *)
Record ChatMessage : Type := mkChatMessage {
  msg_role : Role;
  msg_content : option string;
  msg_tool_calls : option (list ToolCall);
  msg_tool_call_id : option string;
}.

Inductive FinishReason : Type :=
| finish_stop | finish_tool_calls | finish_length | finish_content_filter.

(** The [message] of a choice; its [role] is the constant ["assistant"]. *)
Record ChoiceMessage : Type := mkChoiceMessage {
  cm_content : option string;
  cm_tool_calls : option (list ToolCall);
}.

Record Choice : Type := mkChoice {
  ch_message : ChoiceMessage;
  ch_finish_reason : FinishReason;
}.

(** An element of [choices] as [run] reads it.  [run] reads
    [choice.message.content], [choice.message.tool_calls],
    [choice.finish_reason], iterates over the tool calls and reads
    [toolCall.function.name] and [toolCall.id] of each, all outside any
    step.
    - [well_typed c]: every read succeeds and gives what [c] holds;
    - [not_a_choice]: a value that is not falsy and whose [message] is
      [null] or [undefined] (the object [{}], a number, ...): reading
      [choice.message.content] throws;
    - [untyped_tool_calls c]: the choice reads as [c], but its [tool_calls],
      which is not falsy and whose [length] is not 0, holds more than the
      tool calls of [c]: after them the iteration meets a value whose
      [function] is [null] or [undefined] (such as [null], [{}] or a
      number), or [tool_calls] cannot be iterated at all (then [c] has no
      tool call).  The assistant message pushed carries the tool calls of
      [c]; it is never sent, since the Run returns or throws in that
      turn. *)
Inductive RawChoice : Type :=
| well_typed (c : Choice)
| not_a_choice
| untyped_tool_calls (c : Choice).

(** What a type guard can tell about one field of an untyped object. *)
Inductive field (A : Type) : Type :=
| missing
| mistyped
| typed (a : A).
Arguments missing {A}.
Arguments mistyped {A}.
Arguments typed {A} a.

Definition is_typed {A} (f : field A) : bool :=
  match f with typed _ => true | _ => false end.

(** [Partial<ChatCompletionResponse>]: the object the guard looks at.  An
    entry of [choices] is [None] when the array holds a falsy value there
    ([null], or a hole past the end). *)
Record PartialChatCompletionResponse : Type := mkResponse {
  r_id : field string;
  r_model : field string;
  r_choices : field (list (option RawChoice));
}.

(** The value of the LLM step, of static type [unknown]: a parsed 2xx body. *)
Inductive unknown : Type :=
| u_null
| u_primitive
| u_object (r : PartialChatCompletionResponse).

(** [isChatCompletionResponse] *)
Definition isChatCompletionResponse (v : unknown) : bool :=
  match v with
  | u_null => false
  | u_primitive => false
  | u_object r => is_typed (r_id r) && is_typed (r_model r) && is_typed (r_choices r)
  end.

(** [response.choices] once the guard has narrowed the value. *)
Definition choices (v : unknown) : list (option RawChoice) :=
  match v with
  | u_object r => match r_choices r with typed cs => cs | _ => [] end
  | _ => []
  end.

(** A parsed JSON value: what [JSON.parse] hands to the tool guards. *)
Inductive json : Type :=
| JNull
| JBool (b : bool)
| JNumber (n : Z)          (* the workflow never looks inside a number *)
| JString (s : string)
| JArray (l : list json)
| JObject (o : gmap string json).

Definition is_string (v : option json) : bool :=
  match v with Some (JString _) => true | _ => false end.

(* ================================================================= *)
(** ** Tools ([worker/tools.ts]) *)

(** [isSearchReposInput]: an array is an object without the key. *)
Definition isSearchReposInput (value : json) : bool :=
  match value with
  | JObject o => bool_decide (is_Some (o !! "query")) && is_string (o !! "query")
  | _ => false
  end.

(** [isGetRepoInput] *)
Definition isGetRepoInput (value : json) : bool :=
  match value with
  | JObject o =>
      bool_decide (is_Some (o !! "owner")) && bool_decide (is_Some (o !! "repo"))
      && is_string (o !! "owner") && is_string (o !! "repo")
  | _ => false
  end.

Record PropertySchema : Type := mkPropertySchema {
  ps_type : string;
  ps_description : string;
}.

Record InputSchema : Type := mkInputSchema {
  is_type : string;
  is_properties : list (string * PropertySchema);
  is_required : list string;
}.

(** The static part of a tool; [run] is I/O and lives in [Host] below. *)
Record Tool : Type := mkTool {
  tool_name : string;
  tool_description : string;
  tool_input_schema : InputSchema;
}.

Definition searchReposTool : Tool :=
  {| tool_name := "search_repos";
     tool_description :=
       "Search GitHub repositories by keyword. Returns top results. Use get_repo for details.";
     tool_input_schema :=
       {| is_type := "object";
          is_properties :=
            [("query", {| ps_type := "string";
                          ps_description := "Search query (e.g., 'typescript orm')" |});
             ("limit", {| ps_type := "number";
                          ps_description := "Max results (default 5)" |})];
          is_required := ["query"] |} |}.

Definition getRepoTool : Tool :=
  {| tool_name := "get_repo";
     tool_description :=
       "Get detailed info about a GitHub repository including stars, forks, and description.";
     tool_input_schema :=
       {| is_type := "object";
          is_properties :=
            [("owner", {| ps_type := "string";
                          ps_description := "Repository owner (e.g., 'cloudflare')" |});
             ("repo", {| ps_type := "string";
                         ps_description := "Repository name (e.g., 'workers-sdk')" |})];
          is_required := ["owner"; "repo"] |} |}.

Definition tools : list Tool := [searchReposTool; getRepoTool].

(** [ToolDefinition]; [type] is the constant ["function"]. *)
Record ToolDefinition : Type := mkToolDefinition {
  td_name : string;
  td_description : string;
  td_parameters : InputSchema;
}.

(** [getToolDefinitions] *)
Definition getToolDefinitions : list ToolDefinition :=
  map (λ t, {| td_name := tool_name t;
               td_description := tool_description t;
               td_parameters :=
                 {| is_type := is_type (tool_input_schema t);
                    is_properties := is_properties (tool_input_schema t);
                    is_required := is_required (tool_input_schema t) |} |}) tools.

Record ChatCompletionRequest : Type := mkRequest {
  req_model : string;
  req_max_tokens : nat;
  req_messages : list ChatMessage;
  req_tools : list ToolDefinition;
}.

(* ================================================================= *)
(** ** The agent ([worker/agent.ts]) *)

Module ResearchAgent.

Definition initialState : AgentState :=
  {| as_status := AgentStatus.IDLE; as_message := ""; as_result := absent |}.

(** [reset]: [setState({ status: IDLE, message: "" })]. *)
Definition reset (state : AgentState) : AgentState :=
  {| as_status := AgentStatus.IDLE; as_message := ""; as_result := absent |}.

(** [updateProgress]: [setState({ ...this.state, ...progress })].  The
    update always owns [status] and [message]; it owns [result] only when
    the literal wrote it. *)
Definition updateProgress (state : AgentState) (progress : ProgressUpdate) : AgentState :=
  {| as_status := pu_status progress;
     as_message := pu_message progress;
     as_result := match pu_result progress with
                  | present v => present v
                  | absent => as_result state
                  end |}.

End ResearchAgent.

(* ================================================================= *)
(** ** Errors, state and the monad of [run] *)

(** What a wrapped operation can throw. *)
Inductive OpError : Type :=
| AIGatewayError      (* [callAIGateway]: fetch failed or non-2xx *)
| SyntaxError         (* [JSON.parse] on the tool arguments *)
| ToolRunError.       (* a tool's [run] threw *)

(** What [run] throws: what [step.do] throws at it, or a [TypeError] of
    its own reads. *)
Inductive Error : Type :=
| StepExhausted (key : string) (lastError : OpError)
| TypeError.

Inductive outcome (A : Type) : Type :=
| returned (a : A)
| thrown (e : Error).
Arguments returned {A} a.
Arguments thrown {A} e.

Record State : Type := mkState {
  messages : list ChatMessage;           (* the local array of [run] *)
  agent : AgentState;                    (* [ResearchAgent]'s state *)
  llm_records : gmap string unknown;     (* succeeded records of LLM steps *)
  tool_records : gmap string string;     (* succeeded records of tool steps *)
  invoked : list string;                 (* one key per attempt, oldest first *)
  published : list ProgressUpdate;       (* every update sent, oldest first *)
}.

Definition M (A : Type) : Type := State → outcome A * State.

Definition ret {A} (a : A) : M A := λ s, (returned a, s).

Definition throw {A} (e : Error) : M A := λ s, (thrown e, s).

Definition bind {A B} (m : M A) (k : A → M B) : M B :=
  λ s, match m s with
       | (returned a, s') => k a s'
       | (thrown e, s') => (thrown e, s')
       end.

Notation "'let!' x ':=' m 'in' k" := (bind m (λ x, k))
  (at level 10, x name, m at level 100, k at level 200, only parsing) : stdpp_scope.
Notation "m ;;; k" := (bind m (λ _, k))
  (at level 100, right associativity, only parsing) : stdpp_scope.

(** [messages.push(m)] *)
Definition push (m : ChatMessage) : M unit :=
  λ s, (returned (),
        {| messages := messages s ++ [m]; agent := agent s;
           llm_records := llm_records s; tool_records := tool_records s;
           invoked := invoked s; published := published s |}).

(** [await agent.updateProgress(u)] *)
Definition updateProgress (u : ProgressUpdate) : M unit :=
  λ s, (returned (),
        {| messages := messages s;
           agent := ResearchAgent.updateProgress (agent s) u;
           llm_records := llm_records s; tool_records := tool_records s;
           invoked := invoked s; published := published s ++ [u] |}).

(** One attempt of the operation wrapped under [key] is about to run. *)
Definition log_attempt (key : string) (s : State) : State :=
  {| messages := messages s; agent := agent s;
     llm_records := llm_records s; tool_records := tool_records s;
     invoked := invoked s ++ [key]; published := published s |}.

(* ================================================================= *)
(** ** The step executor ([step.do] of the workflow engine) *)

Inductive Backoff : Type := constant | linear | exponential.

(** [WorkflowStepConfig.retries] *)
Record Retries : Type := mkRetries {
  limit : nat;
  delay : string;
  backoff : option Backoff;
}.

(** The record store of the engine is generic in the payload type [T] of
    the step ([step.do<T>]); each payload type of [run] has its own map. *)
Class Payload (T : Type) : Type := {
  records : State → gmap string T;
  with_records : gmap string T → State → State;
  records_with_records m s : records (with_records m s) = m;
  records_log_attempt key s : records (log_attempt key s) = records s;
  invoked_with_records m s : invoked (with_records m s) = invoked s;
}.

#[export] Instance unknown_payload : Payload unknown := {|
  records := llm_records;
  with_records := λ m s,
    {| messages := messages s; agent := agent s;
       llm_records := m; tool_records := tool_records s;
       invoked := invoked s; published := published s |};
  records_with_records := λ _ _, eq_refl;
  records_log_attempt := λ _ _, eq_refl;
  invoked_with_records := λ _ _, eq_refl;
|}.

#[export] Instance string_payload : Payload string := {|
  records := tool_records;
  with_records := λ m s,
    {| messages := messages s; agent := agent s;
       llm_records := llm_records s; tool_records := m;
       invoked := invoked s; published := published s |};
  records_with_records := λ _ _, eq_refl;
  records_log_attempt := λ _ _, eq_refl;
  invoked_with_records := λ _ _, eq_refl;
|}.

Section StepExecutor.
Context {T : Type} `{!Payload T}.

(** The operation reads the state it closes over and either yields a
    payload or throws. *)
Definition Operation : Type := State → OpError + T.

(** Up to [n] further attempts after a failure with [e]. *)
Fixpoint retry (n : nat) (key : string) (operation : Operation)
    (e : OpError) (s : State) : (OpError + T) * State :=
  match n with
  | 0 => (inl e, s)
  | S n' =>
      match operation s with
      | inr r => (inr r, log_attempt key s)
      | inl e' => retry n' key operation e' (log_attempt key s)
      end
  end.

(** Modelled from the spec: the StepExecutor, [step.do(key, config,
    operation)] of the workflow engine, whose code is not in the
    repository.  A key with a succeeded record returns the cached payload
    without running the operation.  Otherwise the operation runs; a failure
    is retried until success or until [limit] attempts have been made; a
    success is recorded under the key; exhaustion throws
    [StepExhausted key lastError].  The delays between attempts have no
    effect on the state. *)
Definition step_do (key : string) (config : Retries) (operation : Operation) : M T :=
  λ s,
    match records s !! key with
    | Some r => (returned r, s)
    | None =>
        match operation s with
        | inr r =>
            let s' := log_attempt key s in
            (returned r, with_records (<[key := r]> (records s')) s')
        | inl e =>
            match retry (limit config - 1) key operation e (log_attempt key s) with
            | (inr r, s') => (returned r, with_records (<[key := r]> (records s')) s')
            | (inl e', s') => (thrown (StepExhausted key e'), s')
            end
        end
    end.

End StepExecutor.

(* ================================================================= *)
(** ** The host: everything [run] reaches over the network *)

(** Each call is indexed by the number of operation attempts made before it,
    so an answer may change from one attempt to the next; [None] is a throw.
    [JSON_parse] is the built-in parser. *)
Record Host : Type := mkHost {
  JSON_parse : string → option json;
  callAIGateway : nat → ChatCompletionRequest → option unknown;
  searchReposTool_run : nat → json → option string;
  getRepoTool_run : nat → json → option string;
}.

(* ================================================================= *)
(** ** The workflow ([worker/workflow.ts]) *)

(** How one iteration of the turn loop ends: [continue] (also by falling off
    the end of the body) or [return]. *)
Inductive Completion : Type :=
| Continue
| Return (r : WorkflowResult).

(** [for (const x of xs) body(x)] *)
Fixpoint for_of {A} (xs : list A) (body : A → M unit) : M unit :=
  match xs with
  | [] => ret ()
  | x :: xs' => body x;;; for_of xs' body
  end.

Definition llm_retries : Retries :=
  {| limit := 3; delay := "10 seconds"; backoff := Some exponential |}.

Definition tool_retries : Retries :=
  {| limit := 2; delay := "5 seconds"; backoff := None |}.

Definition initialUpdate : ProgressUpdate :=
  {| pu_status := "searching";
     pu_message := "Starting analysis...";
     pu_result := present (Some "") |}.

Definition turnUpdate (turn : nat) : ProgressUpdate :=
  {| pu_status := "analyzing";
     pu_message := "Processing turn " +:+ pretty (turn + 1) +:+ "...";
     pu_result := absent |}.

(** [result: choice.message.content ?? undefined] *)
Definition completeUpdate (choice : Choice) : ProgressUpdate :=
  {| pu_status := "complete";
     pu_message := "Analysis complete!";
     pu_result := present (cm_content (ch_message choice)) |}.

Definition toolUpdate (toolCall : ToolCall) : ProgressUpdate :=
  {| pu_status := "fetching";
     pu_message := "Using tool: " +:+ fn_name (tc_function toolCall) +:+ "...";
     pu_result := absent |}.

Definition assistantMessage (choice : Choice) : ChatMessage :=
  {| msg_role := assistant;
     msg_content := cm_content (ch_message choice);
     msg_tool_calls := cm_tool_calls (ch_message choice);
     msg_tool_call_id := None |}.

Definition toolMessage (toolResult : string) (toolCall : ToolCall) : ChatMessage :=
  {| msg_role := tool;
     msg_content := Some toolResult;
     msg_tool_calls := None;
     msg_tool_call_id := Some (tc_id toolCall) |}.

Definition llm_key (turn : nat) : string := "llm-turn-" +:+ pretty turn.

Definition tool_key (turn : nat) (toolCall : ToolCall) : string :=
  "tool-" +:+ pretty turn +:+ "-" +:+ tc_id toolCall.

(** The test of the "model is done" branch. *)
Definition is_done (choice : Choice) : bool :=
  match ch_finish_reason choice with finish_stop => true | _ => false end
  || match cm_tool_calls (ch_message choice) with
     | None => true
     | Some toolCalls => bool_decide (length toolCalls = 0)
     end.

Section Workflow.
Variable MAX_AGENT_TURNS : nat.
Variable host : Host.

(** The callback of the LLM step.  [JSON.parse(JSON.stringify(result))] is
    the identity on a parsed body. *)
Definition llm_operation : Operation (T := unknown) :=
  λ s,
    let request :=
      {| req_model := "anthropic/claude-sonnet-4-5-20250929";
         req_max_tokens := 4096;
         req_messages := messages s;
         req_tools := getToolDefinitions |} in
    match callAIGateway host (length (invoked s)) request with
    | Some result => inr result
    | None => inl AIGatewayError
    end.

(** The callback of a tool step: parse, then switch on the name. *)
Definition tool_operation (toolCall : ToolCall) : Operation (T := string) :=
  λ s,
    match JSON_parse host (fn_arguments (tc_function toolCall)) with
    | None => inl SyntaxError
    | Some args =>
        if decide (fn_name (tc_function toolCall) = "search_repos") then
          if negb (isSearchReposInput args) then
            inr "Invalid arguments for search_repos"
          else
            match searchReposTool_run host (length (invoked s)) args with
            | Some r => inr r
            | None => inl ToolRunError
            end
        else if decide (fn_name (tc_function toolCall) = "get_repo") then
          if negb (isGetRepoInput args) then
            inr "Invalid arguments for get_repo"
          else
            match getRepoTool_run host (length (invoked s)) args with
            | Some r => inr r
            | None => inl ToolRunError
            end
        else inr ("Unknown tool: " +:+ fn_name (tc_function toolCall))
    end.

(** The body of [for (const toolCall of toolCalls)]. *)
Definition tool_body (turn : nat) (toolCall : ToolCall) : M unit :=
  updateProgress (toolUpdate toolCall);;;
  let! toolResult := step_do (tool_key turn toolCall) tool_retries (tool_operation toolCall) in
  push (toolMessage toolResult toolCall).

(** The head of the turn: the progress update and the LLM step. *)
Definition llm_step (turn : nat) : M unknown :=
  updateProgress (turnUpdate turn);;;
  step_do (llm_key turn) llm_retries llm_operation.

(** The body of the turn loop. *)
Definition turn_body (turn : nat) : M Completion :=
  let! stepResult := llm_step turn in
  if negb (isChatCompletionResponse stepResult) then ret Continue else
  let response := stepResult in
  if bool_decide (length (choices response) = 0) then ret Continue else
  match choices response !! 0 with
  | None | Some None => ret Continue
  | Some (Some not_a_choice) =>
      (* [choice.message.content] *)
      throw TypeError
  | Some (Some (well_typed choice)) =>
      push (assistantMessage choice);;;
      if is_done choice then
        updateProgress (completeUpdate choice);;;
        ret (Return {| wr_status := complete;
                       wr_turns := turn + 1;
                       wr_result := present (cm_content (ch_message choice)) |})
      else
        match cm_tool_calls (ch_message choice) with
        | None => ret Continue
        | Some toolCalls =>
            for_of toolCalls (tool_body turn);;;
            ret Continue
        end
  | Some (Some (untyped_tool_calls choice)) =>
      push (assistantMessage choice);;;
      match ch_finish_reason choice with
      | finish_stop =>
          updateProgress (completeUpdate choice);;;
          ret (Return {| wr_status := complete;
                         wr_turns := turn + 1;
                         wr_result := present (cm_content (ch_message choice)) |})
      | _ =>
          (* [tool_calls] is not falsy and its [length] is not 0: the
             iteration runs, and throws where it leaves the tool calls *)
          for_of (default [] (cm_tool_calls (ch_message choice))) (tool_body turn);;;
          throw TypeError
      end
  end.

(** [for (let turn = 0; turn < MAX_AGENT_TURNS; turn++)], with [n]
    iterations left, followed by the final [return]. *)
Fixpoint turn_loop (n : nat) (turn : nat) : M WorkflowResult :=
  match n with
  | 0 => ret {| wr_status := max_turns_reached;
                wr_turns := MAX_AGENT_TURNS;
                wr_result := absent |}
  | S n' =>
      let! c := turn_body turn in
      match c with
      | Continue => turn_loop n' (S turn)
      | Return r => ret r
      end
  end.

(** The state after [n] iterations from [turn] on that all came to their
    end (by [continue] or by running off the body): [None] when one of them
    returned or threw. *)
Fixpoint turns_through (n : nat) (turn : nat) (s : State) : option State :=
  match n with
  | 0 => Some s
  | S n' =>
      match turn_body turn s with
      | (returned Continue, s1) => turns_through n' (S turn) s1
      | _ => None
      end
  end.

(** [const messages = [{ role: "user", content: task }]] *)
Definition init_messages (task : string) : M unit :=
  λ s, (returned (),
        {| messages := [ {| msg_role := user; msg_content := Some task;
                            msg_tool_calls := None; msg_tool_call_id := None |} ];
           agent := agent s;
           llm_records := llm_records s; tool_records := tool_records s;
           invoked := invoked s; published := published s |}).

(** [AgentWorkflow.run] *)
Definition run (task : string) : M WorkflowResult :=
  init_messages task;;;
  updateProgress initialUpdate;;;
  turn_loop MAX_AGENT_TURNS 0.

End Workflow.

(** A Run started on a new engine instance: no record, nothing logged; the
    agent is in whatever state earlier Runs left it. *)
Definition fresh (a : AgentState) : State :=
  {| messages := []; agent := a; llm_records := ∅; tool_records := ∅;
     invoked := []; published := [] |}.

(** Later events of a Run, seen from the engine: anything [run] does to the
    state after some point is a sequence of these; [act_restart] is the first
    line of [run] when the engine replays it. *)
Inductive Action : Type :=
| act_restart (task : string)
| act_push (m : ChatMessage)
| act_publish (u : ProgressUpdate)
| act_llm_step (key : string) (config : Retries) (operation : Operation (T := unknown))
| act_tool_step (key : string) (config : Retries) (operation : Operation (T := string)).

Definition perform (a : Action) (s : State) : State :=
  match a with
  | act_restart task => (init_messages task s).2
  | act_push m => (push m s).2
  | act_publish u => (updateProgress u s).2
  | act_llm_step key config operation => (step_do key config operation s).2
  | act_tool_step key config operation => (step_do key config operation s).2
  end.

Definition perform_all (acts : list Action) (s : State) : State :=
  foldl (λ s a, perform a s) s acts.


(* ================================================================= *)
(** ** What a Run leaves behind: messages appended and updates published *)

(** One pass over the tool calls of a turn: how it ended, the messages it
    appended and the updates it published, both in program order. *)
Inductive tools_trace (turn : nat) :
  list ToolCall → outcome unit → list ChatMessage → list ProgressUpdate → Prop :=
| tools_end :
    tools_trace turn [] (returned ()) [] []
| tools_exhausted toolCall rest err :
    tools_trace turn (toolCall :: rest)
      (thrown (StepExhausted (tool_key turn toolCall) err)) [] [toolUpdate toolCall]
| tools_next toolCall rest toolResult o msgs ups :
    tools_trace turn rest o msgs ups →
    tools_trace turn (toolCall :: rest) o
      (toolMessage toolResult toolCall :: msgs) (toolUpdate toolCall :: ups).

(** One turn. *)
Inductive turn_trace (turn : nat) :
  outcome Completion → list ChatMessage → list ProgressUpdate → Prop :=
| turn_llm_exhausted err :
    turn_trace turn (thrown (StepExhausted (llm_key turn) err)) [] [turnUpdate turn]
| turn_skipped :
    turn_trace turn (returned Continue) [] [turnUpdate turn]
| turn_complete choice :
    is_done choice = true →
    turn_trace turn
      (returned (Return {| wr_status := complete;
                           wr_turns := turn + 1;
                           wr_result := present (cm_content (ch_message choice)) |}))
      [assistantMessage choice] [turnUpdate turn; completeUpdate choice]
| turn_tools_done choice toolCalls msgs ups :
    is_done choice = false →
    cm_tool_calls (ch_message choice) = Some toolCalls →
    tools_trace turn toolCalls (returned ()) msgs ups →
    turn_trace turn (returned Continue)
      (assistantMessage choice :: msgs) (turnUpdate turn :: ups)
| turn_tools_exhausted choice toolCalls e msgs ups :
    is_done choice = false →
    cm_tool_calls (ch_message choice) = Some toolCalls →
    tools_trace turn toolCalls (thrown e) msgs ups →
    turn_trace turn (thrown e)
      (assistantMessage choice :: msgs) (turnUpdate turn :: ups)
| turn_not_a_choice :
    turn_trace turn (thrown TypeError) [] [turnUpdate turn]
| turn_untyped_call choice msgs ups :
    ch_finish_reason choice ≠ finish_stop →
    tools_trace turn (default [] (cm_tool_calls (ch_message choice)))
      (returned ()) msgs ups →
    turn_trace turn (thrown TypeError)
      (assistantMessage choice :: msgs) (turnUpdate turn :: ups)
| turn_untyped_exhausted choice e msgs ups :
    ch_finish_reason choice ≠ finish_stop →
    tools_trace turn (default [] (cm_tool_calls (ch_message choice)))
      (thrown e) msgs ups →
    turn_trace turn (thrown e)
      (assistantMessage choice :: msgs) (turnUpdate turn :: ups).

(** The loop from [turn] with [n] iterations left, for the constant [MAX]. *)
Inductive loop_trace (MAX : nat) :
  nat → nat → outcome WorkflowResult → list ChatMessage → list ProgressUpdate → Prop :=
| loop_max_turns turn :
    loop_trace MAX 0 turn
      (returned {| wr_status := max_turns_reached; wr_turns := MAX; wr_result := absent |})
      [] []
| loop_thrown n turn e msgs ups :
    turn_trace turn (thrown e) msgs ups →
    loop_trace MAX (S n) turn (thrown e) msgs ups
| loop_return n turn r msgs ups :
    turn_trace turn (returned (Return r)) msgs ups →
    loop_trace MAX (S n) turn (returned r) msgs ups
| loop_continue n turn o msgs ups msgs' ups' :
    turn_trace turn (returned Continue) msgs ups →
    loop_trace MAX n (S turn) o msgs' ups' →
    loop_trace MAX (S n) turn o (msgs ++ msgs') (ups ++ ups').

(** The updates of turns that all came to their end, from [turn] on: for
    each turn its [turnUpdate], then a [toolUpdate] for each of the tool
    calls in [blocks]. *)
Definition loop_updates (turn : nat) (blocks : list (list ToolCall)) : list ProgressUpdate :=
  concat (imap (λ i toolCalls, turnUpdate (turn + i) :: (toolUpdate <$> toolCalls)) blocks).

(** The agent's state after a list of updates. *)
Definition after_updates (a : AgentState) (ups : list ProgressUpdate) : AgentState :=
  foldl ResearchAgent.updateProgress a ups.

(** What relates a state to the state some part of [run] made of it: the
    messages appended, the updates published, and the agent following them. *)
Definition extends (s s' : State) (msgs : list ChatMessage) (ups : list ProgressUpdate) : Prop :=
  messages s' = messages s ++ msgs ∧
  published s' = published s ++ ups ∧
  agent s' = after_updates (agent s) ups.

(** What a replayed part of [run] leaves alone: the invocation log and the
    records. *)
Definition replayed (t t' : State) : Prop :=
  invoked t' = invoked t ∧
  llm_records t' = llm_records t ∧
  tool_records t' = tool_records t.

(** Turns started: the updates of [turnUpdate] are the only ones whose
    status is ["analyzing"]. *)
Definition turns_started (ups : list ProgressUpdate) : nat :=
  length (filter (λ u, pu_status u = AgentStatus.ANALYZING) ups).

(** An update of the running phase: a turn or a tool update.  It writes no
    [result]. *)
Definition running_phase (u : ProgressUpdate) : Prop :=
  (pu_status u = AgentStatus.ANALYZING ∨ pu_status u = AgentStatus.FETCHING) ∧
  pu_result u = absent.

(** The step behind an exhaustion and the update published just before it:
    the LLM step of a turn in [lo, hi), or one of its tool steps. *)
Definition exhausted_at (lo hi : nat) (key : string) (u : ProgressUpdate) : Prop :=
  ∃ t, lo ≤ t < hi ∧
    ((key = llm_key t ∧ u = turnUpdate t) ∨
     (∃ toolCall, key = tool_key t toolCall ∧ u = toolUpdate toolCall)).

(** Every tool-role message answers a tool call of an assistant message that
    stands before it. *)
Definition tool_ids_matched (msgs : list ChatMessage) : Prop :=
  ∀ i m, msgs !! i = Some m → msg_role m = tool →
    ∃ j a toolCalls toolCall,
      j < i ∧ msgs !! j = Some a ∧ msg_role a = assistant ∧
      msg_tool_calls a = Some toolCalls ∧ toolCall ∈ toolCalls ∧
      msg_tool_call_id m = Some (tc_id toolCall).

(** A body the turn loop skips: the guard fails, or there is no first choice. *)
Definition skipped (v : unknown) : Prop :=
  isChatCompletionResponse v = false ∨ choices v = [] ∨ ∃ rest, choices v = None :: rest.

(** The messages one turn appends: none, or the assistant message followed
    by tool messages for its tool calls, taken in order from the first. *)
Definition turn_messages (msgs : list ChatMessage) : Prop :=
  msgs = [] ∨
  ∃ choice results,
    msgs = assistantMessage choice
           :: zip_with toolMessage results (default [] (cm_tool_calls (ch_message choice))).

(** The own properties of the two objects [updateProgress] spreads; a value
    [None] is [undefined]. *)
Definition state_object (state : AgentState) : gmap string (option string) :=
  <["status" := Some (as_status state)]>
    (<["message" := Some (as_message state)]>
       (match as_result state with
        | present v => {[ "result" := v ]}
        | absent => ∅
        end)).

Definition update_object (progress : ProgressUpdate) : gmap string (option string) :=
  <["status" := Some (pu_status progress)]>
    (<["message" := Some (pu_message progress)]>
       (match pu_result progress with
        | present v => {[ "result" := v ]}
        | absent => ∅
        end)).

(* ================================================================= *)
(** ** Sample hosts *)

Module Sample.

Definition quote : string := String (Ascii.ascii_of_nat 34) EmptyString.

(** The text [{"query":"x"}]. *)
Definition query_x : string :=
  "{" +:+ quote +:+ "query" +:+ quote +:+ ":" +:+ quote +:+ "x" +:+ quote +:+ "}".

(** The parser on the three texts the samples use; the third is not JSON. *)
Definition parse (text : string) : option json :=
  if decide (text = query_x) then Some (JObject {[ "query" := JString "x" ]})
  else if decide (text = "{}") then Some (JObject ∅)
  else None.

Definition body (choice : Choice) : unknown :=
  u_object {| r_id := typed "chatcmpl-1"; r_model := typed "claude";
              r_choices := typed [Some (well_typed choice)] |}.

Definition says (content : string) : Choice :=
  {| ch_message := {| cm_content := Some content; cm_tool_calls := None |};
     ch_finish_reason := finish_stop |}.

Definition calls (reason : FinishReason) (toolCalls : list ToolCall) : Choice :=
  {| ch_message := {| cm_content := None; cm_tool_calls := Some toolCalls |};
     ch_finish_reason := reason |}.

Definition call (id name arguments : string) : ToolCall :=
  {| tc_id := id;
     tc_function := {| fn_name := name; fn_arguments := arguments |} |}.

(** A host whose gateway answers the first attempt with [first] and every
    later one with [then_]; the tools answer with fixed texts. *)
Definition host_of (first then_ : option unknown) : Host :=
  {| JSON_parse := parse;
     callAIGateway := λ n _, if decide (n = 0) then first else then_;
     searchReposTool_run := λ _ _, Some "[]";
     getRepoTool_run := λ _ _, Some "{}" |}.

(** Scenario A: the model answers at once. *)
Definition pong : Host := host_of (Some (body (says "pong"))) (Some (body (says "pong"))).

(** Scenario B: one tool call, then the answer. *)
Definition search_then_done : Host :=
  host_of (Some (body (calls finish_tool_calls [call "c1" "search_repos" query_x])))
          (Some (body (says "done"))).

(** Scenario C: the gateway fails on every attempt. *)
Definition gateway_down : Host := host_of None None.

(** Scenario D with a gateway that never sends a valid body. *)
Definition never_valid : Host := host_of (Some u_null) (Some u_primitive).

(** Scenario E: a tool nobody registered. *)
Definition frobnicate : Host :=
  host_of (Some (body (calls finish_tool_calls [call "c1" "frobnicate" "{}"])))
          (Some (body (says "done"))).

(** A tool call whose arguments are not JSON. *)
Definition bad_arguments : Host :=
  host_of (Some (body (calls finish_tool_calls [call "c1" "search_repos" "not json"])))
          (Some (body (says "done"))).

(** A body that passes the guard and whose first choice is the object
    [{}]. *)
Definition empty_choice : Host :=
  host_of (Some (u_object {| r_id := typed "chatcmpl-1"; r_model := typed "claude";
                             r_choices := typed [Some not_a_choice] |}))
          (Some (body (says "done"))).

(** A choice that says stop and also asks for a tool. *)
Definition stop_with_calls : Host :=
  host_of (Some (body (calls finish_stop [call "c1" "search_repos" query_x])))
          (Some (body (says "done"))).

Definition start : State := fresh ResearchAgent.initialState.

End Sample.

(* ================================================================= *)
(** ** Tool schemas, guards and the advertised names *)

(** An object that carries every key the schema requires, each with a
    string. *)
Definition has_required_strings (schema : InputSchema) (value : json) : bool :=
  match value with
  | JObject o => forallb (λ key, is_string (o !! key)) (is_required schema)
  | _ => false
  end.

(** The schema declares [key] as a property of type ["string"]. *)
Definition declares_string (schema : InputSchema) (key : string) : bool :=
  existsb (λ kp, bool_decide (kp.1 = key) && bool_decide (ps_type kp.2 = "string"))
    (is_properties schema).

(** The names the request offers to the model. *)
Definition advertised : list string := td_name <$> getToolDefinitions.

(* ================================================================= *)
(** ** The tools' [run] over HTTP ([worker/tools.ts]) *)

(** A response of [fetch]: the status and, when the body is JSON, what
    [response.json()] resolves to. *)
Record Response : Type := mkHttpResponse {
  resp_status : nat;
  resp_json : option json;
}.

(** [response.ok] *)
Definition resp_ok (response : Response) : bool :=
  bool_decide (200 ≤ resp_status response ≤ 299).

(** What [run] takes from the platform.  [fetch] is indexed like the calls of
    a [Host]; [None] is a rejected promise.  [encodeURIComponent] throws a
    [URIError] on a string with a lone surrogate.  [ToString] is the
    conversion a template literal applies to a value that is not a string
    (the argument [None] is [undefined]); it throws a [TypeError] on an
    object without a primitive value, such as one whose own [toString] is
    not a function.  For both, the result [None] is the throw. *)
Record Platform : Type := mkPlatform {
  fetch : nat → string → list (string * string) → option Response;
  encodeURIComponent : string → option string;
  ToString : option json → option string;
  JSON_stringify : json → string;
}.

(** [v.key] for a key that is no array index, not ["length"] and no method
    name: [None] is the [TypeError] of reading from [null] or [undefined],
    [Some None] is [undefined]. *)
Definition get_field (v : option json) (key : string) : option (option json) :=
  match v with
  | None | Some JNull => None
  | Some (JObject o) => Some (o !! key)
  | Some _ => Some None
  end.

(** [`${v}`]; [None] is a throw. *)
Definition template (p : Platform) (v : option json) : option string :=
  match v with
  | Some (JString s) => Some s
  | _ => ToString p v
  end.

(** An object literal as [JSON.stringify] sees it: a key whose value is
    [undefined] is left out. *)
Definition literal_fields (fields : list (string * option json)) : gmap string json :=
  list_to_map (omap (λ kv, (λ v, (kv.1, v)) <$> kv.2) fields).

Definition object_literal (fields : list (string * option json)) : json :=
  JObject (literal_fields fields).

Definition github_headers : list (string * string) :=
  [("Accept", "application/vnd.github+json"); ("User-Agent", "DurableAgent/1.0")].

(** [`${input.limit ?? 5}`] *)
Definition per_page (p : Platform) (limit : option json) : option string :=
  match limit with
  | None | Some JNull => Some "5"
  | _ => template p limit
  end.

(** The URL of [searchReposTool.run], its parts evaluated from left to
    right; [None] is a throw. *)
Definition search_url (p : Platform) (input : json) : option string :=
  query ← get_field (Some input) "query";
  text ← template p query;
  encoded ← encodeURIComponent p text;
  limit ← get_field (Some input) "limit";
  count ← per_page p limit;
  Some ("https://api.github.com/search/repositories?q="
        +:+ encoded +:+ "&sort=stars&per_page=" +:+ count).

(** [(r) => ({ name: r.full_name, stars: r.stargazers_count })] *)
Definition search_item (r : json) : option json :=
  full_name ← get_field (Some r) "full_name";
  stargazers_count ← get_field (Some r) "stargazers_count";
  Some (object_literal [("name", full_name); ("stars", stargazers_count)]).

(** [JSON.stringify(data.items.map(...))] with [data = await response.json()]. *)
Definition search_result (p : Platform) (response : Response) : option string :=
  data ← resp_json response;
  items ← get_field (Some data) "items";
  match items with
  | Some (JArray rs) =>
      out ← mapM search_item rs;
      Some (JSON_stringify p (JArray out))
  | _ => None
  end.

(** [searchReposTool.run]; [None] is a throw. *)
Definition search_repos_run (p : Platform) (i : nat) (input : json) : option string :=
  url ← search_url p input;
  response ← fetch p i url github_headers;
  if negb (resp_ok response) then
    Some ("Search failed: " +:+ pretty (resp_status response))
  else
    search_result p response.

(** [`${input.owner}/${input.repo}`] *)
Definition owner_repo (p : Platform) (input : json) : option string :=
  owner ← get_field (Some input) "owner";
  owner_text ← template p owner;
  repo ← get_field (Some input) "repo";
  repo_text ← template p repo;
  Some (owner_text +:+ "/" +:+ repo_text).

Definition repo_url (p : Platform) (input : json) : option string :=
  path ← owner_repo p input;
  Some ("https://api.github.com/repos/" +:+ path).

(** [data.license?.name ?? "None"], given [data.license]. *)
Definition license_name (license : option json) : json :=
  match license with
  | None | Some JNull => JString "None"
  | _ =>
      match get_field license "name" with
      | Some (Some JNull) | Some None | None => JString "None"
      | Some (Some name) => name
      end
  end.

(** [getRepoTool.run]; [None] is a throw. *)
Definition get_repo_run (p : Platform) (i : nat) (input : json) : option string :=
  url ← repo_url p input;
  response ← fetch p i url github_headers;
  if negb (resp_ok response) then
    path ← owner_repo p input;
    Some ("Repo not found: " +:+ path)
  else
    data ← resp_json response;
    full_name ← get_field (Some data) "full_name";
    description ← get_field (Some data) "description";
    stargazers_count ← get_field (Some data) "stargazers_count";
    forks_count ← get_field (Some data) "forks_count";
    open_issues_count ← get_field (Some data) "open_issues_count";
    language ← get_field (Some data) "language";
    license ← get_field (Some data) "license";
    updated_at ← get_field (Some data) "updated_at";
    Some (JSON_stringify p
            (object_literal
               [("name", full_name);
                ("description", description);
                ("stars", stargazers_count);
                ("forks", forks_count);
                ("issues", open_issues_count);
                ("language", language);
                ("license", Some (license_name license));
                ("updated", updated_at)])).

(** [data.items] when the body is JSON and [items] is an array. *)
Definition items_of (response : Response) : option (list json) :=
  data ← resp_json response;
  items ← get_field (Some data) "items";
  match items with
  | Some (JArray rs) => Some rs
  | _ => None
  end.

(** [v.key], with [undefined] for a read that would throw. *)
Definition read (v : json) (key : string) : option json :=
  default None (get_field (Some v) key).

(** The keys of the object [getRepoTool.run] builds that are copied from a
    field of the answer, with that field. *)
Definition copied_fields : list (string * string) :=
  [("name", "full_name"); ("description", "description");
   ("stars", "stargazers_count"); ("forks", "forks_count");
   ("issues", "open_issues_count"); ("language", "language");
   ("updated", "updated_at")].

(** A host whose tools are the two [run] functions over [p]. *)
Definition tools_host (parse : string → option json)
    (gateway : nat → ChatCompletionRequest → option unknown) (p : Platform) : Host :=
  {| JSON_parse := parse;
     callAIGateway := gateway;
     searchReposTool_run := search_repos_run p;
     getRepoTool_run := get_repo_run p |}.


(** Sample platforms for the examples. *)
Module GitHub.

(** A platform whose [fetch] answers every request with [answer].  The
    samples use plain letters and digits only, which [encodeURIComponent]
    leaves as they are; the conversions only name the shape of their
    argument, and [ToString] throws on an object with an own [toString]. *)
Definition answering (answer : option Response) : Platform :=
  {| fetch := λ _ _ _, answer;
     encodeURIComponent := λ text, Some text;
     ToString := λ v,
       match v with
       | Some (JString s) => Some s
       | Some (JNumber n) => Some (pretty n)
       | Some (JBool b) => Some (if b then "true" else "false")
       | Some JNull => Some "null"
       | None => Some "undefined"
       | Some (JArray _) => Some "array"
       | Some (JObject o) =>
           if decide (is_Some (o !! "toString")) then None else Some "[object Object]"
       end;
     JSON_stringify := λ v,
       match v with
       | JArray items => "[" +:+ pretty (length items) +:+ " items]"
       | JObject o => "{" +:+ pretty (size o) +:+ " keys}"
       | _ => "value"
       end |}.

Definition rate_limited : Platform :=
  answering (Some {| resp_status := 403; resp_json := None |}).

Definition two_results : Platform :=
  answering
    (Some {| resp_status := 200;
             resp_json :=
               Some (JObject {[ "items" :=
                 JArray [JObject {[ "full_name" := JString "a/b" ]};
                         JObject (<[ "full_name" := JString "c/d" ]>
                                    {[ "stargazers_count" := JNumber 7 ]})] ]}) |}).

Definition unlicensed : Platform :=
  answering
    (Some {| resp_status := 200;
             resp_json := Some (JObject {[ "full_name" := JString "a/b" ]}) |}).

Definition query_x : json := JObject {[ "query" := JString "x" ]}.

Definition a_b : json := JObject (<[ "owner" := JString "a" ]> {[ "repo" := JString "b" ]}).

End GitHub.

(* ================================================================= *)
(** ** Counting attempts *)

(** Attempts of LLM steps and of tool steps in an invocation log, told
    apart by the prefix of the step key. *)
Definition gateway_attempts (log : list string) : nat :=
  length (filter (λ key, String.prefix "llm-turn-" key = true) log).

Definition tool_attempts (log : list string) : nat :=
  length (filter (λ key, String.prefix "tool-" key = true) log).

(** Tool calls started: the updates of [toolUpdate] are the only ones whose
    status is ["fetching"]. *)
Definition tools_started (ups : list ProgressUpdate) : nat :=
  length (filter (λ u, pu_status u = AgentStatus.FETCHING) ups).

(** [s'] comes from [s] by attempts that the updates published on the way
    pay for: three per turn started, two per tool call started. *)
Definition within_budget (s s' : State) : Prop :=
  ∃ log ups,
    invoked s' = invoked s ++ log ∧
    published s' = published s ++ ups ∧
    gateway_attempts log ≤ 3 * turns_started ups ∧
    tool_attempts log ≤ 2 * tools_started ups ∧
    length log = gateway_attempts log + tool_attempts log.

(* ================================================================= *)
(** ** The client ([App.tsx]) *)

Module App.

(** *** The two regular expressions and [parseInt] *)

(** [\d] *)
Definition is_digit (c : Ascii.ascii) : bool :=
  (48 <=? Ascii.nat_of_ascii c)%nat && (Ascii.nat_of_ascii c <=? 57)%nat.

(** [\w] *)
Definition is_word (c : Ascii.ascii) : bool :=
  is_digit c
  || ((65 <=? Ascii.nat_of_ascii c)%nat && (Ascii.nat_of_ascii c <=? 90)%nat)
  || ((97 <=? Ascii.nat_of_ascii c)%nat && (Ascii.nat_of_ascii c <=? 122)%nat)
  || (Ascii.nat_of_ascii c =? 95)%nat.

(** The longest prefix whose characters are in [class]: a greedy [class+]. *)
Fixpoint take_while (class : Ascii.ascii → bool) (s : string) : string :=
  match s with
  | String c s' => if class c then String c (take_while class s') else EmptyString
  | EmptyString => EmptyString
  end.

(** What follows [literal] when [s] starts with it. *)
Fixpoint strip_prefix (literal s : string) : option string :=
  match literal with
  | EmptyString => Some s
  | String a literal' =>
      match s with
      | String b s' => if Ascii.eqb a b then strip_prefix literal' s' else None
      | EmptyString => None
      end
  end.

(** A match of [/<literal>(<class>+)/] that starts at the head of [s]: its
    group. *)
Definition match_here (literal : string) (class : Ascii.ascii → bool) (s : string) : option string :=
  match strip_prefix literal s with
  | Some rest =>
      match take_while class rest with
      | EmptyString => None
      | group => Some group
      end
  | None => None
  end.

(** [s.match(/<literal>(<class>+)/)?.[1]]: the group of the leftmost match. *)
Fixpoint regex_group (literal : string) (class : Ascii.ascii → bool) (s : string) : option string :=
  match match_here literal class s with
  | Some group => Some group
  | None =>
      match s with
      | String _ s' => regex_group literal class s'
      | EmptyString => None
      end
  end.

(** [s.includes(literal)] *)
Fixpoint includes (literal s : string) : bool :=
  match strip_prefix literal s with
  | Some _ => true
  | None =>
      match s with
      | String _ s' => includes literal s'
      | EmptyString => false
      end
  end.

(** Every character is a [\w]. *)
Fixpoint word_only (s : string) : bool :=
  match s with
  | String c s' => is_word c && word_only s'
  | EmptyString => true
  end.

(** Every character is a [\d]. *)
Fixpoint digits_only (s : string) : bool :=
  match s with
  | String c s' => is_digit c && digits_only s'
  | EmptyString => true
  end.

(** No character is a space. *)
Fixpoint spaceless (s : string) : bool :=
  match s with
  | String c s' => negb (Ascii.eqb c (Ascii.ascii_of_nat 32)) && spaceless s'
  | EmptyString => true
  end.

(** A number that holds a count: an integer up to [2^53], which a double
    holds exactly, or the double nearest to the integer a longer string of
    digits spells, which is left to the engine. *)
Inductive Number : Type :=
| exact (n : N)
| rounded (digits : string).

Definition of_nat (n : nat) : Number := exact (N.of_nat n).

Coercion of_nat : nat >-> Number.

(** The integer a string of decimal digits spells. *)
Definition decimal (digits : string) : N :=
  foldl (λ n c, 10 * n + (N.of_nat (Ascii.nat_of_ascii c) - 48))%N 0%N
    (String.list_ascii_of_string digits).

(** [parseInt] on a non-empty string of decimal digits. *)
Definition parseInt (digits : string) : Number :=
  if (decimal digits <=? 2 ^ 53)%N then exact (decimal digits) else rounded digits.

(** *** State *)

Inductive StepStatus : Type := step_running | step_complete | step_error.

#[export] Instance StepStatus_eq_dec : EqDecision StepStatus.
Proof. solve_decision. Defined.

Record StepLog : Type := mkStepLog {
  sl_id : string;
  sl_turn : Number;
  sl_tool : string;
  sl_message : string;
  sl_status : StepStatus;
  sl_timestamp : nat;
}.

(** The component's state, with the ref [isSubmittingRef]. *)
Record Ui : Type := mkUi {
  ui_task : string;
  ui_status : string;
  ui_result : string;
  ui_steps : list StepLog;
  ui_currentTurn : nat;
  ui_instanceId : option string;
  isSubmitting : bool;
}.

Definition defaultTask : string :=
  "What is the most used model for AI applications written in Python?".

(** The first render. *)
Definition mounted : Ui :=
  {| ui_task := defaultTask; ui_status := AgentStatus.IDLE; ui_result := "";
     ui_steps := []; ui_currentTurn := 0; ui_instanceId := None;
     isSubmitting := false |}.

(** The agent's state as the client receives it: JSON, so a [result] that
    is [undefined] is not there. *)
Record WireState : Type := mkWireState {
  w_status : string;
  w_message : string;
  w_result : option string;
}.

Definition wire (a : AgentState) : WireState :=
  {| w_status := as_status a;
     w_message := as_message a;
     w_result := match as_result a with
                 | present (Some r) => Some r
                 | _ => None
                 end |}.

(** [s.status === "running" ? { ...s, status: "complete" } : s] *)
Definition settle (s : StepLog) : StepLog :=
  match sl_status s with
  | step_running =>
      {| sl_id := sl_id s; sl_turn := sl_turn s; sl_tool := sl_tool s;
         sl_message := sl_message s; sl_status := step_complete;
         sl_timestamp := sl_timestamp s |}
  | _ => s
  end.

(** The step a tool message adds, if any; [now] is [Date.now()] and [stamp]
    is [new Date()]. *)
Definition tool_step (now stamp : nat) (message : string) : option StepLog :=
  let turnNum :=
    match regex_group "Processing turn " is_digit message with
    | Some digits => parseInt digits
    | None => 1
    end in
  if includes "Using tool:" message then
    match regex_group "Using tool: " is_word message with
    | Some toolName =>
        Some {| sl_id := pretty now +:+ "-" +:+ toolName;
                sl_turn := turnNum;
                sl_tool := toolName;
                sl_message := "Executing " +:+ toolName +:+ "...";
                sl_status := step_running;
                sl_timestamp := stamp |}
    | None => None
    end
  else None.

(** [onStateUpdate] *)
Definition onStateUpdate (now stamp : nat) (newState : WireState) (ui : Ui) : Ui :=
  if isSubmitting ui then ui else
  let steps1 :=
    match tool_step now stamp (w_message newState) with
    | Some newStep => (settle <$> ui_steps ui) ++ [newStep]
    | None => ui_steps ui
    end in
  let steps2 :=
    if decide (w_status newState = AgentStatus.COMPLETE) then settle <$> steps1
    else steps1 in
  {| ui_task := ui_task ui;
     ui_status := if decide (w_status newState = "") then AgentStatus.IDLE
                  else w_status newState;
     ui_result := match w_result newState with
                  | Some r => r
                  | None => ui_result ui
                  end;
     ui_steps := steps2;
     ui_currentTurn := ui_currentTurn ui;
     ui_instanceId := ui_instanceId ui;
     isSubmitting := false |}.

(** [handleSubmit] up to its [await]; [blank] is [!task.trim()]. *)
Definition handleSubmit_begin (blank : string → bool) (now stamp : nat) (ui : Ui) : Ui :=
  if blank (ui_task ui) then ui else
  {| ui_task := ui_task ui;
     ui_status := AgentStatus.RUNNING;
     ui_result := "";
     ui_steps := [ {| sl_id := pretty now +:+ "-init";
                      sl_turn := 1;
                      sl_tool := "thinking";
                      sl_message := "Analyzing task and planning approach...";
                      sl_status := step_running;
                      sl_timestamp := stamp |} ];
     ui_currentTurn := 1;
     ui_instanceId := ui_instanceId ui;
     isSubmitting := true |}.

(** [handleSubmit] after the answer of [POST /api] was read. *)
Definition handleSubmit_done (instanceId : option string) (ui : Ui) : Ui :=
  {| ui_task := ui_task ui; ui_status := ui_status ui; ui_result := ui_result ui;
     ui_steps := ui_steps ui; ui_currentTurn := ui_currentTurn ui;
     ui_instanceId := instanceId;
     isSubmitting := false |}.

(** The [catch] of [handleSubmit]; [turn] is the [currentTurn] the handler
    closed over. *)
Definition handleSubmit_failed (now stamp : nat) (text : string) (turn : nat) (ui : Ui) : Ui :=
  {| ui_task := ui_task ui;
     ui_status := AgentStatus.ERROR;
     ui_result := ui_result ui;
     ui_steps :=
       ((λ s, {| sl_id := sl_id s; sl_turn := sl_turn s; sl_tool := sl_tool s;
                 sl_message := sl_message s; sl_status := step_error;
                 sl_timestamp := sl_timestamp s |}) <$> ui_steps ui)
       ++ [ {| sl_id := pretty now +:+ "-error";
               sl_turn := turn;
               sl_tool := "error";
               sl_message := text;
               sl_status := step_error;
               sl_timestamp := stamp |} ];
     ui_currentTurn := ui_currentTurn ui;
     ui_instanceId := ui_instanceId ui;
     isSubmitting := false |}.

(** [handleReset] after its [fetch] resolved. *)
Definition handleReset (ui : Ui) : Ui :=
  {| ui_task := defaultTask; ui_status := AgentStatus.IDLE; ui_result := "";
     ui_steps := []; ui_currentTurn := 0; ui_instanceId := None;
     isSubmitting := isSubmitting ui |}.

Definition setTask (text : string) (ui : Ui) : Ui :=
  {| ui_task := text; ui_status := ui_status ui; ui_result := ui_result ui;
     ui_steps := ui_steps ui; ui_currentTurn := ui_currentTurn ui;
     ui_instanceId := ui_instanceId ui; isSubmitting := isSubmitting ui |}.

Definition isRunning (ui : Ui) : bool :=
  negb (bool_decide (ui_status ui = AgentStatus.IDLE))
  && negb (bool_decide (ui_status ui = AgentStatus.COMPLETE))
  && negb (bool_decide (ui_status ui = AgentStatus.ERROR)).

Definition isComplete (ui : Ui) : bool :=
  bool_decide (ui_status ui = AgentStatus.COMPLETE).

(** What can happen to the component. *)
Inductive Event : Type :=
| ev_state (now stamp : nat) (newState : WireState)
| ev_task (text : string)
| ev_submit (now stamp : nat)
| ev_submitted (instanceId : option string)
| ev_submit_failed (now stamp : nat) (text : string) (turn : nat)
| ev_reset.

Definition react (blank : string → bool) (ui : Ui) (e : Event) : Ui :=
  match e with
  | ev_state now stamp newState => onStateUpdate now stamp newState ui
  | ev_task text => setTask text ui
  | ev_submit now stamp => handleSubmit_begin blank now stamp ui
  | ev_submitted instanceId => handleSubmit_done instanceId ui
  | ev_submit_failed now stamp text turn => handleSubmit_failed now stamp text turn ui
  | ev_reset => handleReset ui
  end.

(** Only the last step may be running. *)
Definition tidy (steps : list StepLog) : Prop :=
  ∀ i s, steps !! i = Some s → sl_status s = step_running → S i = length steps.

(** A step as it was, or settled. *)
Definition same_step (s s' : StepLog) : Prop :=
  sl_id s' = sl_id s ∧ sl_turn s' = sl_turn s ∧ sl_tool s' = sl_tool s ∧
  sl_message s' = sl_message s ∧ sl_timestamp s' = sl_timestamp s ∧
  (sl_status s' = sl_status s ∨
   (sl_status s = step_running ∧ sl_status s' = step_complete)).

(** The states the agent broadcasts while it takes [ups], one per update. *)
Fixpoint broadcasts (a : AgentState) (ups : list ProgressUpdate) : list WireState :=
  match ups with
  | [] => []
  | u :: ups' =>
      let a' := ResearchAgent.updateProgress a u in
      wire a' :: broadcasts a' ups'
  end.

(** The client taking the states in order; [clock k] gives the two
    readings of the clock at the [k]-th of them. *)
Fixpoint watch (clock : nat → nat * nat) (k : nat) (states : list WireState) (ui : Ui) : Ui :=
  match states with
  | [] => ui
  | newState :: states' =>
      watch clock (S k) states' (onStateUpdate (clock k).1 (clock k).2 newState ui)
  end.

End App.
(* ================================================================= *)
(** * Properties *)

(** ** The step executor *)

Section StepExecutorFacts.
Context {T : Type} `{!Payload T}.
Implicit Types (key : string) (config : Retries) (operation : Operation (T := T)).

Lemma retry_records n key operation e s :
  records (retry n key operation e s).2 = records s.
Proof.
  revert e s. induction n as [|n IH]; intros e s; simpl; [done|].
  destruct (operation s) as [e'|r]; simpl.
  - by rewrite IH, records_log_attempt.
  - by rewrite records_log_attempt.
Qed.

(** An observer that neither logging an attempt nor writing this payload
    type's records can change is not changed by a step. *)
Lemma retry_frame {X} (f : State → X) n key operation e s :
  (∀ k s, f (log_attempt k s) = f s) →
  f (retry n key operation e s).2 = f s.
Proof.
  intros Hlog. revert e s. induction n as [|n IH]; intros e s; simpl; [done|].
  destruct (operation s) as [e'|r]; simpl.
  - by rewrite IH, Hlog.
  - by rewrite Hlog.
Qed.

Lemma step_do_frame {X} (f : State → X) key config operation s :
  (∀ k s, f (log_attempt k s) = f s) →
  (∀ m s, f (with_records (T := T) m s) = f s) →
  f (step_do key config operation s).2 = f s.
Proof.
  intros Hlog Hwith. unfold step_do.
  destruct (records s !! key) as [r|]; [done|].
  destruct (operation s) as [e|r]; simpl.
  - pose proof (retry_frame f (limit config - 1) key operation e
                  (log_attempt key s) Hlog) as Hf.
    destruct (retry _ _ _ _ _) as [[e'|r] s']; simpl in *.
    + by rewrite Hf, Hlog.
    + by rewrite Hwith, Hf, Hlog.
  - by rewrite Hwith, Hlog.
Qed.

(** A hit: the cached payload comes back and the state, the invocation
    log included, is the same. *)
Lemma step_do_cached key config operation s r :
  records s !! key = Some r →
  step_do key config operation s = (returned r, s).
Proof. intros Hr. unfold step_do. by rewrite Hr. Qed.

(** A success leaves a record of the payload under the key. *)
Lemma step_do_recorded key config operation s r s' :
  step_do key config operation s = (returned r, s') →
  records s' !! key = Some r.
Proof.
  unfold step_do. destruct (records s !! key) as [r0|] eqn:Hk.
  - intros [= <- <-]. done.
  - destruct (operation s) as [e|r1].
    + destruct (retry _ _ _ _ _) as [[e'|r1] s1]; [done|].
      intros [= <- <-]. rewrite records_with_records. apply lookup_insert_eq.
    + intros [= <- <-]. rewrite records_with_records. apply lookup_insert_eq.
Qed.

(** Records are only ever added, and only under a key that had none. *)
Lemma step_do_records_mono key config operation s :
  records s ⊆ records (step_do key config operation s).2.
Proof.
  unfold step_do. destruct (records s !! key) as [r0|] eqn:Hk; [done|].
  destruct (operation s) as [e|r1]; simpl.
  - pose proof (retry_records (limit config - 1) key operation e
                  (log_attempt key s)) as Hrec.
    destruct (retry _ _ _ _ _) as [[e'|r1] s1]; simpl in *.
    + by rewrite Hrec, records_log_attempt.
    + rewrite records_with_records, Hrec, records_log_attempt.
      by apply insert_subseteq.
  - rewrite records_with_records, records_log_attempt.
    by apply insert_subseteq.
Qed.

Lemma step_do_thrown key config (operation : Operation (T := T)) s e s' :
  step_do key config operation s = (thrown e, s') →
  ∃ err, e = StepExhausted key err.
Proof.
  unfold step_do. destruct (records s !! key); [done|].
  destruct (operation s); [|done].
  destruct (retry _ _ _ _ _) as [[e'|r] s1]; [|done].
  intros [= <- <-]. by eexists.
Qed.

Lemma step_do_invoked key config (operation : Operation (T := T)) s :
  invoked s `prefix_of` invoked (step_do key config operation s).2.
Proof.
  assert (Hretry : ∀ n e s, invoked s `prefix_of` invoked (retry n key operation e s).2).
  { induction n as [|n IH]; intros e0 s0; simpl; [done|].
    destruct (operation s0); simpl.
    - etrans; [|apply IH]. by apply prefix_app_r.
    - by apply prefix_app_r. }
  unfold step_do. destruct (records s !! key); [done|].
  destruct (operation s) as [e|r]; simpl.
  - specialize (Hretry (limit config - 1) e (log_attempt key s)).
    destruct (retry _ _ _ _ _) as [[e'|r] s1]; simpl in *.
    + etrans; [|exact Hretry]. by apply prefix_app_r.
    + rewrite invoked_with_records. etrans; [|exact Hretry]. by apply prefix_app_r.
  - rewrite invoked_with_records. by apply prefix_app_r.
Qed.



End StepExecutorFacts.

(** The part of the state a step of either payload type cannot touch. *)
Lemma llm_step_do_view key config (operation : Operation (T := unknown)) s :
  let s' := (step_do key config operation s).2 in
  messages s' = messages s ∧ agent s' = agent s ∧ published s' = published s.
Proof.
  simpl. split_and!.
  - by apply (step_do_frame (T := unknown) messages).
  - by apply (step_do_frame (T := unknown) agent).
  - by apply (step_do_frame (T := unknown) published).
Qed.

Lemma tool_step_do_view key config (operation : Operation (T := string)) s :
  let s' := (step_do key config operation s).2 in
  messages s' = messages s ∧ agent s' = agent s ∧ published s' = published s.
Proof.
  simpl. split_and!.
  - by apply (step_do_frame (T := string) messages).
  - by apply (step_do_frame (T := string) agent).
  - by apply (step_do_frame (T := string) published).
Qed.

(** Nothing [run] does later removes or changes a record. *)
Lemma perform_records a s :
  llm_records s ⊆ llm_records (perform a s) ∧
  tool_records s ⊆ tool_records (perform a s).
Proof.
  destruct a as [task|m|u|key config operation|key config operation]; simpl.
  - done.
  - done.
  - done.
  - split.
    + exact (step_do_records_mono (T := unknown) key config operation s).
    + by rewrite (step_do_frame (T := unknown) tool_records).
  - split.
    + by rewrite (step_do_frame (T := string) llm_records).
    + exact (step_do_records_mono (T := string) key config operation s).
Qed.

Lemma perform_all_records acts s :
  llm_records s ⊆ llm_records (perform_all acts s) ∧
  tool_records s ⊆ tool_records (perform_all acts s).
Proof.
  revert s. induction acts as [|a acts IH]; intros s; simpl; [done|].
  destruct (perform_records a s) as [Hl Ht].
  destruct (IH (perform a s)) as [Hl' Ht'].
  split; etrans; eauto.
Qed.

Lemma perform_all_app acts acts' s :
  perform_all (acts ++ acts') s = perform_all acts' (perform_all acts s).
Proof. apply foldl_app. Qed.

(** ** The monad and the agent *)

Lemma bind_eq {A B} (m : M A) (k : A → M B) s :
  bind m k s =
  match m s with
  | (returned a, s') => k a s'
  | (thrown e, s') => (thrown e, s')
  end.
Proof. reflexivity. Qed.

Lemma for_of_app {A} (pre post : list A) (body : A → M unit) s :
  for_of (pre ++ post) body s =
  match for_of pre body s with
  | (returned _, s') => for_of post body s'
  | (thrown e, s') => (thrown e, s')
  end.
Proof.
  revert s. induction pre as [|x pre IH]; intros s; simpl; [done|].
  rewrite !bind_eq. destruct (body x s) as [[[]|e] s1]; [apply IH|done].
Qed.

Lemma after_updates_app a ups ups' :
  after_updates a (ups ++ ups') = after_updates (after_updates a ups) ups'.
Proof. apply foldl_app. Qed.

(** The agent shows the status and message of the last update it received. *)
Lemma after_updates_last a ups u :
  as_status (after_updates a (ups ++ [u])) = pu_status u ∧
  as_message (after_updates a (ups ++ [u])) = pu_message u.
Proof. by rewrite after_updates_app. Qed.

Lemma running_turnUpdate turn : running_phase (turnUpdate turn).
Proof. split; [by left|done]. Qed.

Lemma running_toolUpdate toolCall : running_phase (toolUpdate toolCall).
Proof. split; [by right|done]. Qed.

(** Running-phase updates leave the agent's [result] alone. *)
Lemma after_updates_running_result a ups :
  Forall running_phase ups →
  as_result (after_updates a ups) = as_result a.
Proof.
  intros Hrun. revert a. induction Hrun as [|u ups [_ Hu] _ IH]; intros a; [done|].
  simpl. rewrite IH. simpl. by rewrite Hu.
Qed.

Lemma nil_or_snoc {A} (l : list A) : l = [] ∨ ∃ l' x, l = l' ++ [x].
Proof. induction l as [|x l' _] using rev_ind; [by left|right; by eauto]. Qed.

Lemma extends_refl s : extends s s [] [].
Proof. unfold extends. by rewrite !app_nil_r. Qed.

Lemma extends_trans s s1 s2 msgs ups msgs' ups' :
  extends s s1 msgs ups → extends s1 s2 msgs' ups' →
  extends s s2 (msgs ++ msgs') (ups ++ ups').
Proof.
  intros (Hm & Hp & Ha) (Hm' & Hp' & Ha'). unfold extends.
  rewrite Hm', Hp', Ha', Hm, Hp, Ha, after_updates_app.
  by rewrite !app_assoc.
Qed.

(** ** The code against its traces

    Every execution of the tool loop, of a turn, of the turn loop and of
    [run] has a trace, and the final state is the initial one extended by it. *)

Section Adequacy.
Variable MAX_AGENT_TURNS : nat.
Variable host : Host.

Lemma tool_body_eq turn toolCall s :
  tool_body host turn toolCall s =
  match step_do (tool_key turn toolCall) tool_retries (tool_operation host toolCall)
          (updateProgress (toolUpdate toolCall) s).2 with
  | (returned toolResult, s2) => push (toolMessage toolResult toolCall) s2
  | (thrown e, s2) => (thrown e, s2)
  end.
Proof. reflexivity. Qed.

Lemma for_of_tools_trace turn toolCalls s :
  ∃ msgs ups,
    tools_trace turn toolCalls (for_of toolCalls (tool_body host turn) s).1 msgs ups ∧
    extends s (for_of toolCalls (tool_body host turn) s).2 msgs ups.
Proof.
  revert s. induction toolCalls as [|toolCall rest IH]; intros s.
  - exists [], []. split; [constructor|].
    unfold extends. simpl. by rewrite !app_nil_r.
  - simpl. rewrite bind_eq, tool_body_eq.
    destruct (tool_step_do_view (tool_key turn toolCall) tool_retries
                (tool_operation host toolCall)
                (updateProgress (toolUpdate toolCall) s).2) as (Hm & Ha & Hp).
    destruct (step_do _ _ _ _) as [[toolResult|e] s2] eqn:Hstep; simpl in *.
    + set (s3 := {| messages := messages s2 ++ _ |}).
      destruct (IH s3) as (msgs & ups & Htrace & Hm3 & Hp3 & Ha3).
      exists (toolMessage toolResult toolCall :: msgs), (toolUpdate toolCall :: ups).
      split; [by constructor|].
      unfold extends. rewrite Hm3, Hp3, Ha3. subst s3. simpl.
      rewrite Hm, Hp, Ha.
      by rewrite <- !app_assoc.
    + apply step_do_thrown in Hstep as [err ->].
      exists [], [toolUpdate toolCall]. split; [constructor|].
      unfold extends. rewrite Hm, Hp, Ha.
      by rewrite app_nil_r.
Qed.

Lemma llm_step_eq turn s :
  llm_step host turn s =
  step_do (llm_key turn) llm_retries (llm_operation host)
    (updateProgress (turnUpdate turn) s).2.
Proof. reflexivity. Qed.

Lemma llm_step_view turn s :
  let s1 := (llm_step host turn s).2 in
  messages s1 = messages s ∧
  agent s1 = ResearchAgent.updateProgress (agent s) (turnUpdate turn) ∧
  published s1 = published s ++ [turnUpdate turn].
Proof.
  simpl. rewrite llm_step_eq.
  destruct (llm_step_do_view (llm_key turn) llm_retries (llm_operation host)
              (updateProgress (turnUpdate turn) s).2) as (Hm & Ha & Hp).
  by rewrite Hm, Ha, Hp.
Qed.

Lemma llm_step_thrown turn s e s1 :
  llm_step host turn s = (thrown e, s1) →
  ∃ err, e = StepExhausted (llm_key turn) err.
Proof. rewrite llm_step_eq. apply step_do_thrown. Qed.

(** A choice that is not done carries a non-empty list of tool calls. *)
Lemma not_done_tool_calls choice :
  is_done choice = false →
  ∃ toolCall rest, cm_tool_calls (ch_message choice) = Some (toolCall :: rest).
Proof.
  unfold is_done. intros [_ H]%orb_false_iff.
  destruct (cm_tool_calls (ch_message choice)) as [[|toolCall rest]|]; try done.
  by eexists _, _.
Qed.

Lemma turn_body_trace turn s :
  ∃ msgs ups,
    turn_trace turn (turn_body host turn s).1 msgs ups ∧
    extends s (turn_body host turn s).2 msgs ups.
Proof.
  unfold turn_body. rewrite bind_eq.
  destruct (llm_step_view turn s) as (Hm & Ha & Hp).
  destruct (llm_step host turn s) as [[stepResult|e] s1] eqn:Hstep; simpl in Hm, Ha, Hp.
  2:{ apply llm_step_thrown in Hstep as [err ->].
      exists [], [turnUpdate turn]. split; [constructor|].
      unfold extends. simpl. by rewrite Hm, Ha, Hp, app_nil_r. }
  assert (Hskip : extends s s1 [] [turnUpdate turn]).
  { unfold extends. by rewrite Hm, Ha, Hp, app_nil_r. }
  destruct (isChatCompletionResponse stepResult); simpl.
  2:{ exists [], [turnUpdate turn]. split; [constructor|done]. }
  destruct (choices stepResult) as [|[[choice| |choice]|] rest]; simpl.
  1,5: exists [], [turnUpdate turn]; split; [constructor|done].
  - rewrite bind_eq. simpl.
    set (s2 := {| messages := messages s1 ++ _ |}).
    assert (Hpush : extends s s2 [assistantMessage choice] [turnUpdate turn]).
    { unfold extends. subst s2. simpl. by rewrite Hm, Ha, Hp. }
    destruct (is_done choice) eqn:Hdone.
    { rewrite bind_eq. simpl.
      exists [assistantMessage choice], [turnUpdate turn; completeUpdate choice].
      split; [by constructor|].
      unfold extends. simpl. rewrite Hm, Ha, Hp. by rewrite <- app_assoc. }
    destruct (not_done_tool_calls choice Hdone) as (toolCall & rest' & Hcalls).
    rewrite Hcalls, bind_eq.
    destruct (for_of_tools_trace turn (toolCall :: rest') s2)
      as (msgs & ups & Htrace & Hext).
    destruct (for_of (toolCall :: rest') (tool_body host turn) s2)
      as [[[]|e] s3]; simpl in *;
      pose proof (extends_trans _ _ _ _ _ _ _ Hpush Hext) as Hall; simpl in Hall.
    + exists (assistantMessage choice :: msgs), (turnUpdate turn :: ups).
      split; [|done]. by eapply turn_tools_done.
    + exists (assistantMessage choice :: msgs), (turnUpdate turn :: ups).
      split; [|done]. by eapply turn_tools_exhausted.
  - exists [], [turnUpdate turn]. split; [apply turn_not_a_choice|done].
  - rewrite bind_eq. simpl.
    set (s2 := {| messages := messages s1 ++ _ |}).
    assert (Hpush : extends s s2 [assistantMessage choice] [turnUpdate turn]).
    { unfold extends. subst s2. simpl. by rewrite Hm, Ha, Hp. }
    destruct (ch_finish_reason choice) eqn:Hreason.
    { rewrite bind_eq. simpl.
      exists [assistantMessage choice], [turnUpdate turn; completeUpdate choice].
      split; [apply turn_complete; unfold is_done; by rewrite Hreason|].
      unfold extends. simpl. rewrite Hm, Ha, Hp. by rewrite <- app_assoc. }
    all: rewrite bind_eq;
      destruct (for_of_tools_trace turn
                  (default [] (cm_tool_calls (ch_message choice))) s2)
        as (msgs & ups & Htrace & Hext);
      destruct (for_of (default [] (cm_tool_calls (ch_message choice)))
                  (tool_body host turn) s2) as [[[]|e] s3]; simpl in *;
      pose proof (extends_trans _ _ _ _ _ _ _ Hpush Hext) as Hall; simpl in Hall;
      exists (assistantMessage choice :: msgs), (turnUpdate turn :: ups);
      (split; [|done]);
      first [ eapply turn_untyped_call; [by rewrite Hreason|done]
            | eapply turn_untyped_exhausted; [by rewrite Hreason|done] ].
Qed.

Lemma turn_loop_trace n turn s :
  ∃ msgs ups,
    loop_trace MAX_AGENT_TURNS n turn
      (turn_loop MAX_AGENT_TURNS host n turn s).1 msgs ups ∧
    extends s (turn_loop MAX_AGENT_TURNS host n turn s).2 msgs ups.
Proof.
  revert turn s. induction n as [|n IH]; intros turn s.
  - exists [], []. split; [constructor|apply extends_refl].
  - simpl. rewrite bind_eq.
    destruct (turn_body_trace turn s) as (msgs & ups & Htrace & Hext).
    destruct (turn_body host turn s) as [[[|r]|e] s1]; simpl in *.
    + destruct (IH (S turn) s1) as (msgs' & ups' & Htrace' & Hext').
      exists (msgs ++ msgs'), (ups ++ ups'). split.
      * by eapply loop_continue.
      * by eapply extends_trans.
    + exists msgs, ups. split; [by constructor|done].
    + exists msgs, ups. split; [by constructor|done].
Qed.

Lemma run_eq task s :
  run MAX_AGENT_TURNS host task s =
  turn_loop MAX_AGENT_TURNS host MAX_AGENT_TURNS 0
    (updateProgress initialUpdate (init_messages task s).2).2.
Proof. reflexivity. Qed.

(** A Run: the task message, the initial update, then the loop. *)
Lemma run_trace task s :
  ∃ msgs ups,
    loop_trace MAX_AGENT_TURNS MAX_AGENT_TURNS 0
      (run MAX_AGENT_TURNS host task s).1 msgs ups ∧
    messages (run MAX_AGENT_TURNS host task s).2
    = {| msg_role := user; msg_content := Some task;
         msg_tool_calls := None; msg_tool_call_id := None |} :: msgs ∧
    published (run MAX_AGENT_TURNS host task s).2
    = published s ++ initialUpdate :: ups ∧
    agent (run MAX_AGENT_TURNS host task s).2
    = after_updates (agent s) (initialUpdate :: ups).
Proof.
  rewrite run_eq.
  set (s0 := (updateProgress initialUpdate (init_messages task s).2).2).
  destruct (turn_loop_trace MAX_AGENT_TURNS 0 s0) as (msgs & ups & Htrace & Hm & Hp & Ha).
  exists msgs, ups. split; [done|].
  rewrite Hm, Hp, Ha. subst s0. simpl. by rewrite <- app_assoc.
Qed.

End Adequacy.

(** ** The code as a sequence of actions *)

Section Actions.
Variable MAX_AGENT_TURNS : nat.
Variable host : Host.

Lemma llm_step_actions turn s :
  (llm_step host turn s).2
  = perform_all [act_publish (turnUpdate turn);
                 act_llm_step (llm_key turn) llm_retries (llm_operation host)] s.
Proof. reflexivity. Qed.

Lemma for_of_actions turn toolCalls s :
  ∃ acts, (for_of toolCalls (tool_body host turn) s).2 = perform_all acts s.
Proof.
  revert s. induction toolCalls as [|toolCall rest IH]; intros s.
  - by exists [].
  - simpl. rewrite bind_eq, tool_body_eq.
    destruct (step_do _ _ _ _) as [[toolResult|e] s2] eqn:Hstep; simpl.
    + destruct (IH (push (toolMessage toolResult toolCall) s2).2) as [acts Hacts].
      exists ([act_publish (toolUpdate toolCall);
               act_tool_step (tool_key turn toolCall) tool_retries
                 (tool_operation host toolCall);
               act_push (toolMessage toolResult toolCall)] ++ acts).
      rewrite perform_all_app. cbn [perform_all foldl perform].
      by rewrite Hstep.
    + exists [act_publish (toolUpdate toolCall);
              act_tool_step (tool_key turn toolCall) tool_retries
                (tool_operation host toolCall)].
      cbn [perform_all foldl perform]. by rewrite Hstep.
Qed.

Lemma turn_body_actions turn s :
  ∃ acts, (turn_body host turn s).2 = perform_all acts s.
Proof.
  unfold turn_body. rewrite bind_eq.
  pose proof (llm_step_actions turn s) as Hllm.
  destruct (llm_step host turn s) as [[v|e] s1]; cbn [snd] in Hllm;
    [|by eexists].
  destruct (isChatCompletionResponse v); cbn [negb]; [|by eexists].
  destruct (choices v) as [|[[choice| |choice]|] rest]; simpl;
    [by eexists| |by eexists| |by eexists].
  - rewrite bind_eq.
    assert (Hs2 : (push (assistantMessage choice) s1).2
                  = perform_all
                      ([act_publish (turnUpdate turn);
                        act_llm_step (llm_key turn) llm_retries (llm_operation host)]
                       ++ [act_push (assistantMessage choice)]) s).
    { rewrite perform_all_app, <- Hllm. reflexivity. }
    destruct (push (assistantMessage choice) s1) as [[[]|e] s2] eqn:Hpush;
      [|by eexists].
    cbn [snd] in Hs2.
    destruct (is_done choice).
    { rewrite bind_eq.
      eexists (_ ++ [act_publish (completeUpdate choice)]).
      rewrite perform_all_app, <- Hs2. reflexivity. }
    destruct (cm_tool_calls (ch_message choice)) as [toolCalls|]; [|by eexists].
    rewrite bind_eq.
    destruct (for_of_actions turn toolCalls s2) as [acts Hacts].
    eexists (_ ++ acts). rewrite perform_all_app, <- Hs2, <- Hacts.
    by destruct (for_of toolCalls (tool_body host turn) s2) as [[[]|e] s3].
  - rewrite bind_eq.
    assert (Hs2 : (push (assistantMessage choice) s1).2
                  = perform_all
                      ([act_publish (turnUpdate turn);
                        act_llm_step (llm_key turn) llm_retries (llm_operation host)]
                       ++ [act_push (assistantMessage choice)]) s).
    { rewrite perform_all_app, <- Hllm. reflexivity. }
    destruct (push (assistantMessage choice) s1) as [[[]|e] s2] eqn:Hpush;
      [|by eexists].
    cbn [snd] in Hs2.
    destruct (ch_finish_reason choice).
    { rewrite bind_eq.
      eexists (_ ++ [act_publish (completeUpdate choice)]).
      rewrite perform_all_app, <- Hs2. reflexivity. }
    all: rewrite bind_eq;
      destruct (for_of_actions turn (default [] (cm_tool_calls (ch_message choice))) s2)
        as [acts Hacts];
      eexists (_ ++ acts); rewrite perform_all_app, <- Hs2, <- Hacts;
      by destruct (for_of (default [] (cm_tool_calls (ch_message choice)))
                     (tool_body host turn) s2) as [[[]|e] s3].
Qed.

Lemma turn_loop_actions n turn s :
  ∃ acts, (turn_loop MAX_AGENT_TURNS host n turn s).2 = perform_all acts s.
Proof.
  revert turn s. induction n as [|n IH]; intros turn s.
  - by exists [].
  - simpl. rewrite bind_eq.
    destruct (turn_body_actions turn s) as [acts Hacts].
    destruct (turn_body host turn s) as [[[|r]|e] s1]; simpl in *.
    + destruct (IH (S turn) s1) as [acts' Hacts'].
      exists (acts ++ acts'). by rewrite perform_all_app, <- Hacts.
    + by exists acts.
    + by exists acts.
Qed.

Lemma run_actions task s :
  ∃ acts,
    (run MAX_AGENT_TURNS host task s).2
    = perform_all (act_restart task :: act_publish initialUpdate :: acts) s.
Proof.
  rewrite run_eq.
  destruct (turn_loop_actions MAX_AGENT_TURNS 0
              (updateProgress initialUpdate (init_messages task s).2).2) as [acts Hacts].
  by exists acts.
Qed.

Lemma for_of_records turn toolCalls s :
  llm_records s ⊆ llm_records (for_of toolCalls (tool_body host turn) s).2 ∧
  tool_records s ⊆ tool_records (for_of toolCalls (tool_body host turn) s).2.
Proof.
  destruct (for_of_actions turn toolCalls s) as [acts ->].
  apply perform_all_records.
Qed.

Lemma turn_loop_records n turn s :
  llm_records s ⊆ llm_records (turn_loop MAX_AGENT_TURNS host n turn s).2 ∧
  tool_records s ⊆ tool_records (turn_loop MAX_AGENT_TURNS host n turn s).2.
Proof.
  destruct (turn_loop_actions n turn s) as [acts ->].
  apply perform_all_records.
Qed.

End Actions.

(** ** Facts about traces *)

Lemma turns_started_app ups ups' :
  turns_started (ups ++ ups') = turns_started ups + turns_started ups'.
Proof. unfold turns_started. by rewrite filter_app, length_app. Qed.

Lemma turns_started_turnUpdate turn ups :
  turns_started (turnUpdate turn :: ups) = S (turns_started ups).
Proof. unfold turns_started. by rewrite filter_cons_True. Qed.

Lemma turns_started_toolUpdate toolCall ups :
  turns_started (toolUpdate toolCall :: ups) = turns_started ups.
Proof. unfold turns_started. by rewrite filter_cons_False. Qed.

Lemma turns_started_completeUpdate choice ups :
  turns_started (completeUpdate choice :: ups) = turns_started ups.
Proof. unfold turns_started. by rewrite filter_cons_False. Qed.

Lemma tools_trace_turns_started turn toolCalls o msgs ups :
  tools_trace turn toolCalls o msgs ups → turns_started ups = 0.
Proof.
  induction 1 as [|toolCall rest err|toolCall rest toolResult o msgs ups _ IH].
  - done.
  - by rewrite turns_started_toolUpdate.
  - by rewrite turns_started_toolUpdate.
Qed.

(** Each turn publishes exactly one [turnUpdate]. *)
Lemma turn_trace_turns_started turn o msgs ups :
  turn_trace turn o msgs ups → turns_started ups = 1.
Proof.
  destruct 1 as [err| |choice Hdone|choice toolCalls msgs ups Hdone Hcalls Htools
                 |choice toolCalls e msgs ups Hdone Hcalls Htools
                 | |choice msgs ups Hreason Htools|choice e msgs ups Hreason Htools];
    rewrite turns_started_turnUpdate; f_equal;
    first [done | by rewrite turns_started_completeUpdate
          | by eapply tools_trace_turns_started].
Qed.

(** A turn that returns, returns [complete] with its own number plus one. *)
Lemma turn_trace_return turn r msgs ups :
  turn_trace turn (returned (Return r)) msgs ups →
  ∃ choice,
    is_done choice = true ∧
    r = {| wr_status := complete; wr_turns := turn + 1;
           wr_result := present (cm_content (ch_message choice)) |} ∧
    msgs = [assistantMessage choice] ∧
    ups = [turnUpdate turn; completeUpdate choice].
Proof. inversion 1; subst. by eexists. Qed.

(** The loop runs at most [n] turns.  A [complete] result counts the turns
    started; a [max_turns_reached] result has run all [n] and has no result. *)
Lemma loop_trace_turns MAX n turn o msgs ups :
  loop_trace MAX n turn o msgs ups →
  turns_started ups ≤ n ∧
  ∀ r, o = returned r →
    (wr_status r = complete ∧ wr_turns r = turn + turns_started ups ∧
     1 ≤ turns_started ups) ∨
    (wr_status r = max_turns_reached ∧ wr_turns r = MAX ∧ wr_result r = absent ∧
     turns_started ups = n).
Proof.
  induction 1 as [turn|n turn e msgs ups Hturn|n turn r msgs ups Hturn
                  |n turn o msgs ups msgs' ups' Hturn Hloop IH].
  - split; [done|]. intros r [= <-]. right. done.
  - rewrite (turn_trace_turns_started _ _ _ _ Hturn). split; [lia|done].
  - rewrite (turn_trace_turns_started _ _ _ _ Hturn). split; [lia|].
    intros r' [= <-]. left.
    apply turn_trace_return in Hturn as (choice & _ & -> & _ & _). simpl.
    split_and!; [done|lia|lia].
  - rewrite turns_started_app, (turn_trace_turns_started _ _ _ _ Hturn).
    destruct IH as [Hle Hres]. split; [lia|].
    intros r Hr. destruct (Hres r Hr) as [(?&?&?)|(?&?&?&?)]; [left|right].
    + split_and!; [done|lia|lia].
    + split_and!; [done|done|done|lia].
Qed.

Lemma tools_trace_updates turn toolCalls o msgs ups :
  tools_trace turn toolCalls o msgs ups →
  Forall running_phase ups ∧
  ∀ e, o = thrown e →
    ∃ ups' toolCall err,
      ups = ups' ++ [toolUpdate toolCall] ∧
      e = StepExhausted (tool_key turn toolCall) err.
Proof.
  induction 1 as [|toolCall rest err|toolCall rest toolResult o msgs ups _ [IH1 IH2]].
  - done.
  - split; [repeat constructor; apply running_toolUpdate|].
    intros e [= <-]. by exists [], toolCall, err.
  - split; [constructor; [apply running_toolUpdate|done]|].
    intros e He. destruct (IH2 e He) as (ups' & toolCall' & err & -> & ->).
    by exists (toolUpdate toolCall :: ups'), toolCall', err.
Qed.

Lemma turn_trace_updates turn o msgs ups :
  turn_trace turn o msgs ups →
  match o with
  | returned (Return r) =>
      ∃ choice, ups = [turnUpdate turn; completeUpdate choice] ∧
        r = {| wr_status := complete; wr_turns := turn + 1;
               wr_result := present (cm_content (ch_message choice)) |}
  | returned Continue => Forall running_phase ups
  | thrown e =>
      Forall running_phase ups ∧
      ∃ ups' u,
        ups = ups' ++ [u] ∧
        (e = TypeError ∨
         ∃ key err, e = StepExhausted key err ∧ exhausted_at turn (S turn) key u)
  end.
Proof.
  destruct 1 as [err| |choice Hdone|choice toolCalls msgs ups Hdone Hcalls Htools
                 |choice toolCalls e msgs ups Hdone Hcalls Htools
                 | |choice msgs ups Hreason Htools|choice e msgs ups Hreason Htools].
  - split; [repeat constructor; apply running_turnUpdate|].
    exists [], (turnUpdate turn). split; [done|]. right.
    exists (llm_key turn), err. split; [done|].
    exists turn. split; [lia|by left].
  - repeat constructor; apply running_turnUpdate.
  - by exists choice.
  - apply tools_trace_updates in Htools as [Hrun _].
    constructor; [apply running_turnUpdate|done].
  - apply tools_trace_updates in Htools as [Hrun Hthrown].
    split; [constructor; [apply running_turnUpdate|done]|].
    destruct (Hthrown e eq_refl) as (ups' & toolCall & err & -> & ->).
    exists (turnUpdate turn :: ups'), (toolUpdate toolCall). split; [done|]. right.
    exists (tool_key turn toolCall), err. split; [done|].
    exists turn. split; [lia|right; by exists toolCall].
  - split; [repeat constructor; apply running_turnUpdate|].
    exists [], (turnUpdate turn). split; [done|by left].
  - apply tools_trace_updates in Htools as [Hrun _].
    split; [constructor; [apply running_turnUpdate|done]|].
    destruct (nil_or_snoc (turnUpdate turn :: ups)) as [?|(ups' & u & ->)]; [done|].
    exists ups', u. split; [done|by left].
  - apply tools_trace_updates in Htools as [Hrun Hthrown].
    split; [constructor; [apply running_turnUpdate|done]|].
    destruct (Hthrown e eq_refl) as (ups' & toolCall & err & -> & ->).
    exists (turnUpdate turn :: ups'), (toolUpdate toolCall). split; [done|]. right.
    exists (tool_key turn toolCall), err. split; [done|].
    exists turn. split; [lia|right; by exists toolCall].
Qed.

Lemma exhausted_at_mono lo hi lo' hi' key u :
  lo' ≤ lo → hi ≤ hi' → exhausted_at lo hi key u → exhausted_at lo' hi' key u.
Proof. intros ?? (t & ? & H). exists t. split; [lia|done]. Qed.

(** The updates of a loop, by the way it ended. *)
Lemma loop_trace_updates MAX n turn o msgs ups :
  loop_trace MAX n turn o msgs ups →
  match o with
  | returned r =>
      (wr_status r = complete ∧
       ∃ ups' choice, ups = ups' ++ [completeUpdate choice] ∧ Forall running_phase ups') ∨
      (wr_status r = max_turns_reached ∧ Forall running_phase ups)
  | thrown e =>
      Forall running_phase ups ∧
      ∃ ups' u,
        ups = ups' ++ [u] ∧
        (e = TypeError ∨
         ∃ key err, e = StepExhausted key err ∧ exhausted_at turn (turn + n) key u)
  end.
Proof.
  induction 1 as [turn|n turn e msgs ups Hturn|n turn r msgs ups Hturn
                  |n turn o msgs ups msgs' ups' Hturn Hloop IH].
  - right. done.
  - apply turn_trace_updates in Hturn as (Hrun & ups' & u & -> & Hwhy).
    split; [done|]. exists ups', u. split; [done|].
    destruct Hwhy as [->|(key & err & -> & Hat)]; [by left|right].
    exists key, err. split; [done|].
    eapply exhausted_at_mono; [| |done]; lia.
  - apply turn_trace_updates in Hturn as (choice & -> & ->). left. split; [done|].
    exists [turnUpdate turn], choice. split; [done|].
    repeat constructor; apply running_turnUpdate.
  - apply turn_trace_updates in Hturn. simpl in Hturn.
    destruct o as [r|e].
    + destruct IH as [(Hc & ups1 & choice & -> & Hrun)|(Hm & Hrun)]; [left|right].
      * split; [done|]. exists (ups ++ ups1), choice.
        split; [by rewrite app_assoc|]. by apply Forall_app.
      * split; [done|]. by apply Forall_app.
    + destruct IH as (Hrun & ups1 & u & -> & Hwhy).
      split; [by apply Forall_app|].
      exists (ups ++ ups1), u. split; [by rewrite app_assoc|].
      destruct Hwhy as [->|(key & err & -> & Hat)]; [by left|right].
      exists key, err. split; [done|].
      eapply exhausted_at_mono; [| |done]; lia.
Qed.

Lemma tools_trace_messages turn toolCalls o msgs ups :
  tools_trace turn toolCalls o msgs ups →
  ∃ results,
    msgs = zip_with toolMessage results toolCalls ∧
    length results ≤ length toolCalls ∧
    (o = returned () → length results = length toolCalls).
Proof.
  induction 1 as [|toolCall rest err|toolCall rest toolResult o msgs ups _ IH].
  - by exists [].
  - exists []. simpl. split_and!; [done|lia|done].
  - destruct IH as (results & -> & Hle & Hret).
    exists (toolResult :: results). simpl. split_and!; [done|lia|].
    intros Ho. by rewrite Hret.
Qed.

Lemma turn_trace_messages turn o msgs ups :
  turn_trace turn o msgs ups → turn_messages msgs.
Proof.
  destruct 1 as [err| |choice Hdone|choice toolCalls msgs ups Hdone Hcalls Htools
                 |choice toolCalls e msgs ups Hdone Hcalls Htools
                 | |choice msgs ups Hreason Htools|choice e msgs ups Hreason Htools].
  - by left.
  - by left.
  - right. by exists choice, [].
  - apply tools_trace_messages in Htools as (results & -> & _).
    right. exists choice, results. by rewrite Hcalls.
  - apply tools_trace_messages in Htools as (results & -> & _).
    right. exists choice, results. by rewrite Hcalls.
  - by left.
  - apply tools_trace_messages in Htools as (results & -> & _).
    right. by exists choice, results.
  - apply tools_trace_messages in Htools as (results & -> & _).
    right. by exists choice, results.
Qed.

(** What one turn appends, and that nothing is left out when it comes to
    its end. *)
Lemma turn_trace_messages_full turn o msgs ups :
  turn_trace turn o msgs ups →
  msgs = [] ∨
  ∃ choice results,
    let toolCalls := default [] (cm_tool_calls (ch_message choice)) in
    msgs = assistantMessage choice :: zip_with toolMessage results toolCalls ∧
    length results ≤ length toolCalls ∧
    (o = returned Continue → length results = length toolCalls).
Proof.
  destruct 1 as [err| |choice Hdone|choice toolCalls msgs ups Hdone Hcalls Htools
                 |choice toolCalls e msgs ups Hdone Hcalls Htools
                 | |choice msgs ups Hreason Htools|choice e msgs ups Hreason Htools].
  - by left.
  - by left.
  - right. exists choice, []. simpl. split_and!; [done|lia|done].
  - apply tools_trace_messages in Htools as (results & -> & Hle & Hall).
    right. exists choice, results. rewrite Hcalls. simpl.
    split_and!; [done|done|]. intros _. by apply Hall.
  - apply tools_trace_messages in Htools as (results & -> & Hle & _).
    right. exists choice, results. rewrite Hcalls. simpl. by split_and!.
  - by left.
  - apply tools_trace_messages in Htools as (results & -> & Hle & _).
    right. exists choice, results. simpl. by split_and!.
  - apply tools_trace_messages in Htools as (results & -> & Hle & _).
    right. exists choice, results. simpl. by split_and!.
Qed.

(** The messages of a loop, turn by turn. *)
Lemma loop_trace_message_blocks MAX n turn o msgs ups :
  loop_trace MAX n turn o msgs ups →
  ∃ blocks, msgs = concat blocks ∧ length blocks ≤ n ∧ Forall turn_messages blocks.
Proof.
  induction 1 as [turn|n turn e msgs ups Hturn|n turn r msgs ups Hturn
                  |n turn o msgs ups msgs' ups' Hturn Hloop IH].
  - by exists [].
  - exists [msgs]. simpl. rewrite app_nil_r. split_and!; [done|lia|].
    constructor; [by eapply turn_trace_messages|done].
  - exists [msgs]. simpl. rewrite app_nil_r. split_and!; [done|lia|].
    constructor; [by eapply turn_trace_messages|done].
  - destruct IH as (blocks & -> & Hlen & Hall).
    exists (msgs :: blocks). simpl. split_and!; [done|lia|].
    constructor; [by eapply turn_trace_messages|done].
Qed.

(** Appending the messages of one turn keeps every tool message matched. *)
Lemma tool_ids_matched_turn prev msgs :
  tool_ids_matched prev → turn_messages msgs → tool_ids_matched (prev ++ msgs).
Proof.
  intros Hprev Hturn i m Hi Hrole.
  destruct (decide (i < length prev)) as [Hlt|Hge].
  - rewrite lookup_app_l in Hi by done.
    destruct (Hprev i m Hi Hrole) as (j & a & toolCalls & toolCall & Hj & Ha & ?).
    exists j, a, toolCalls, toolCall. split; [done|].
    split; [|done]. rewrite lookup_app_l; [done|lia].
  - rewrite lookup_app_r in Hi by lia.
    destruct Hturn as [->|(choice & results & ->)]; [done|].
    destruct (i - length prev) as [|k] eqn:Hk; simpl in Hi.
    { injection Hi as <-. done. }
    apply lookup_zip_with_Some in Hi as (toolResult & toolCall & -> & _ & Hcall).
    destruct (cm_tool_calls (ch_message choice)) as [toolCalls|] eqn:Hcalls;
      simpl in Hcall; [|done].
    exists (length prev), (assistantMessage choice), toolCalls, toolCall.
    split_and!; try done.
    + lia.
    + by rewrite lookup_app_r, Nat.sub_diag by lia.
    + by eapply list_elem_of_lookup_2.
Qed.

Lemma tool_ids_matched_loop MAX n turn o msgs ups prev :
  loop_trace MAX n turn o msgs ups →
  tool_ids_matched prev → tool_ids_matched (prev ++ msgs).
Proof.
  intros Hloop. revert prev.
  induction Hloop as [turn|n turn e msgs ups Hturn|n turn r msgs ups Hturn
                      |n turn o msgs ups msgs' ups' Hturn Hloop IH]; intros prev Hprev.
  - by rewrite app_nil_r.
  - eapply tool_ids_matched_turn; [done|]. by eapply turn_trace_messages.
  - eapply tool_ids_matched_turn; [done|]. by eapply turn_trace_messages.
  - rewrite app_assoc. apply IH.
    eapply tool_ids_matched_turn; [done|]. by eapply turn_trace_messages.
Qed.

(** ** One turn *)

Section Turn.
Variable MAX_AGENT_TURNS : nat.
Variable host : Host.

Lemma is_done_true choice :
  is_done choice = true ↔
  ch_finish_reason choice = finish_stop ∨
  cm_tool_calls (ch_message choice) = None ∨
  cm_tool_calls (ch_message choice) = Some [].
Proof.
  unfold is_done.
  destruct (ch_finish_reason choice);
    destruct (cm_tool_calls (ch_message choice)) as [[|toolCall rest]|]; simpl;
    intuition congruence.
Qed.

(** The turn after a valid body with a first choice. *)
Lemma turn_body_choice turn s v s1 choice rest :
  llm_step host turn s = (returned v, s1) →
  isChatCompletionResponse v = true →
  choices v = Some (well_typed choice) :: rest →
  turn_body host turn s =
  (let! _ := push (assistantMessage choice) in
   if is_done choice then
     let! _ := updateProgress (completeUpdate choice) in
     ret (Return {| wr_status := complete;
                    wr_turns := turn + 1;
                    wr_result := present (cm_content (ch_message choice)) |})
   else
     match cm_tool_calls (ch_message choice) with
     | None => ret Continue
     | Some toolCalls =>
         let! _ := for_of toolCalls (tool_body host turn) in
         ret Continue
     end) s1.
Proof.
  intros Hstep Hvalid Hchoices. unfold turn_body.
  rewrite bind_eq, Hstep, Hvalid, Hchoices. reflexivity.
Qed.

Lemma turn_body_done turn s v s1 choice rest :
  llm_step host turn s = (returned v, s1) →
  isChatCompletionResponse v = true →
  choices v = Some (well_typed choice) :: rest →
  is_done choice = true →
  turn_body host turn s =
  (returned (Return {| wr_status := complete;
                       wr_turns := turn + 1;
                       wr_result := present (cm_content (ch_message choice)) |}),
   (updateProgress (completeUpdate choice) (push (assistantMessage choice) s1).2).2).
Proof.
  intros Hstep Hvalid Hchoices Hdone.
  rewrite (turn_body_choice _ _ _ _ _ _ Hstep Hvalid Hchoices), bind_eq. simpl.
  by rewrite Hdone.
Qed.

Lemma turn_loop_done n turn s v s1 choice rest :
  llm_step host turn s = (returned v, s1) →
  isChatCompletionResponse v = true →
  choices v = Some (well_typed choice) :: rest →
  is_done choice = true →
  turn_loop MAX_AGENT_TURNS host (S n) turn s =
  (returned {| wr_status := complete;
               wr_turns := turn + 1;
               wr_result := present (cm_content (ch_message choice)) |},
   (updateProgress (completeUpdate choice) (push (assistantMessage choice) s1).2).2).
Proof.
  intros Hstep Hvalid Hchoices Hdone. simpl. rewrite bind_eq.
  by rewrite (turn_body_done _ _ _ _ _ _ Hstep Hvalid Hchoices Hdone).
Qed.

Lemma turn_body_skipped turn s v s1 :
  llm_step host turn s = (returned v, s1) →
  skipped v →
  turn_body host turn s = (returned Continue, s1).
Proof.
  intros Hstep Hskip. unfold turn_body. rewrite bind_eq, Hstep.
  destruct (isChatCompletionResponse v) eqn:Hvalid; simpl; [|done].
  destruct Hskip as [Hv|[Hc|[rest Hc]]].
  - congruence.
  - by rewrite Hc.
  - by rewrite Hc.
Qed.


(** An exhausted tool step ends the loop with its error. *)
Lemma turn_loop_tool_exhausted n turn s v s1 choice rest pre toolCall post s2 e s3 :
  llm_step host turn s = (returned v, s1) →
  isChatCompletionResponse v = true →
  choices v = Some (well_typed choice) :: rest →
  is_done choice = false →
  cm_tool_calls (ch_message choice) = Some (pre ++ toolCall :: post) →
  for_of pre (tool_body host turn) (push (assistantMessage choice) s1).2 = (returned (), s2) →
  tool_body host turn toolCall s2 = (thrown e, s3) →
  turn_loop MAX_AGENT_TURNS host (S n) turn s = (thrown e, s3).
Proof.
  intros Hstep Hvalid Hchoices Hdone Hcalls Hpre Htool.
  simpl. rewrite bind_eq.
  rewrite (turn_body_choice _ _ _ _ _ _ Hstep Hvalid Hchoices), bind_eq. simpl.
  rewrite Hdone, Hcalls, bind_eq, for_of_app. simpl in Hpre. rewrite Hpre.
  simpl. by rewrite bind_eq, Htool.
Qed.



End Turn.

(** ** Bodies that do not validate *)

Lemma guard_fails v :
  isChatCompletionResponse v = false ↔
  v = u_null ∨ v = u_primitive ∨
  ∃ r, v = u_object r ∧
    (is_typed (r_id r) = false ∨ is_typed (r_model r) = false ∨
     is_typed (r_choices r) = false).
Proof.
  destruct v as [| |r]; simpl.
  - intuition.
  - intuition.
  - rewrite !andb_false_iff. split.
    + intros H. right. right. exists r. intuition.
    + intros [|[|(r' & [= <-] & H)]]; [done..|]. intuition.
Qed.

Section Skipping.
Variable MAX_AGENT_TURNS : nat.
Variable host : Host.
Hypothesis gateway_malformed :
  ∀ i request, ∃ v, callAIGateway host i request = Some v ∧ skipped v.

Lemma llm_step_malformed turn s :
  (∀ key v, llm_records s !! key = Some v → skipped v) →
  ∃ v s1,
    llm_step host turn s = (returned v, s1) ∧ skipped v ∧
    messages s1 = messages s ∧
    (∀ key v, llm_records s1 !! key = Some v → skipped v).
Proof using gateway_malformed.
  intros Hrec. rewrite llm_step_eq. unfold step_do. simpl.
  destruct (llm_records s !! llm_key turn) as [v|] eqn:Hk.
  - exists v. eexists. split_and!; [done|by eapply Hrec|done|done].
  - unfold llm_operation at 1. simpl.
    destruct (gateway_malformed (length (invoked s))
                {| req_model := "anthropic/claude-sonnet-4-5-20250929";
                   req_max_tokens := 4096;
                   req_messages := messages s;
                   req_tools := getToolDefinitions |}) as (v & -> & Hv).
    exists v. eexists. split_and!; [done|done|done|].
    simpl. intros key v' [[_ <-]|[_ Hin]]%lookup_insert_Some; [done|by eapply Hrec].
Qed.

Lemma turn_loop_malformed n turn s :
  (∀ key v, llm_records s !! key = Some v → skipped v) →
  ∃ s',
    turn_loop MAX_AGENT_TURNS host n turn s =
    (returned {| wr_status := max_turns_reached;
                 wr_turns := MAX_AGENT_TURNS;
                 wr_result := absent |}, s') ∧
    messages s' = messages s.
Proof using gateway_malformed.
  revert turn s. induction n as [|n IH]; intros turn s Hrec.
  - by exists s.
  - destruct (llm_step_malformed turn s Hrec) as (v & s1 & Hstep & Hv & Hm & Hrec1).
    destruct (IH (S turn) s1 Hrec1) as (s' & Hloop & Hm').
    exists s'. simpl. rewrite bind_eq, (turn_body_skipped _ _ _ _ _ Hstep Hv).
    split; [done|congruence].
Qed.

End Skipping.

(** ** Tool dispatch *)

Section Dispatch.
Variable host : Host.

Lemma dispatch_unknown_tool toolCall args s :
  JSON_parse host (fn_arguments (tc_function toolCall)) = Some args →
  fn_name (tc_function toolCall) ≠ "search_repos" →
  fn_name (tc_function toolCall) ≠ "get_repo" →
  tool_operation host toolCall s
  = inr ("Unknown tool: " +:+ fn_name (tc_function toolCall)).
Proof.
  intros Hparse Hs Hg. unfold tool_operation. rewrite Hparse.
  by rewrite !decide_False.
Qed.

Lemma dispatch_invalid_search_repos toolCall args s :
  JSON_parse host (fn_arguments (tc_function toolCall)) = Some args →
  fn_name (tc_function toolCall) = "search_repos" →
  isSearchReposInput args = false →
  tool_operation host toolCall s = inr "Invalid arguments for search_repos".
Proof.
  intros Hparse Hs Hbad. unfold tool_operation. rewrite Hparse.
  rewrite decide_True by done. by rewrite Hbad.
Qed.

Lemma dispatch_invalid_get_repo toolCall args s :
  JSON_parse host (fn_arguments (tc_function toolCall)) = Some args →
  fn_name (tc_function toolCall) = "get_repo" →
  isGetRepoInput args = false →
  tool_operation host toolCall s = inr "Invalid arguments for get_repo".
Proof.
  intros Hparse Hg Hbad. unfold tool_operation. rewrite Hparse.
  rewrite decide_False by (by rewrite Hg).
  rewrite decide_True by done. by rewrite Hbad.
Qed.

(** When the arguments do not parse, the operation throws before it looks
    at the name. *)
Lemma dispatch_unparseable toolCall s :
  JSON_parse host (fn_arguments (tc_function toolCall)) = None →
  tool_operation host toolCall s = inl SyntaxError.
Proof. intros Hparse. unfold tool_operation. by rewrite Hparse. Qed.

Lemma tool_body_unparseable turn toolCall s :
  JSON_parse host (fn_arguments (tc_function toolCall)) = None →
  tool_records s !! tool_key turn toolCall = None →
  tool_body host turn toolCall s =
  (thrown (StepExhausted (tool_key turn toolCall) SyntaxError),
   log_attempt (tool_key turn toolCall)
     (log_attempt (tool_key turn toolCall) (updateProgress (toolUpdate toolCall) s).2)).
Proof.
  intros Hparse Hrec. rewrite tool_body_eq. unfold step_do. simpl.
  rewrite Hrec, !dispatch_unparseable by done. done.
Qed.

End Dispatch.

(** ** Replaying a Run over its records *)

Section Replay.
Variable MAX_AGENT_TURNS : nat.
Variable host host' : Host.

Lemma llm_step_replay turn s v s1 t :
  llm_step host turn s = (returned v, s1) →
  llm_records s1 ⊆ llm_records t →
  llm_step host' turn t = (returned v, (updateProgress (turnUpdate turn) t).2).
Proof.
  rewrite !llm_step_eq. intros Hstep Hsub.
  apply (step_do_recorded (T := unknown)) in Hstep.
  apply (step_do_cached (T := unknown)).
  by eapply (lookup_weaken (llm_records s1)).
Qed.

Lemma for_of_replay turn toolCalls s sf t :
  for_of toolCalls (tool_body host turn) s = (returned (), sf) →
  messages s = messages t →
  tool_records sf ⊆ tool_records t →
  ∃ t',
    for_of toolCalls (tool_body host' turn) t = (returned (), t') ∧
    replayed t t' ∧ messages t' = messages sf.
Proof.
  revert s t. induction toolCalls as [|toolCall rest IH]; intros s t Hrun Hm Hsub.
  - injection Hrun as <-. by exists t.
  - simpl in Hrun. rewrite bind_eq, tool_body_eq in Hrun.
    destruct (tool_step_do_view (tool_key turn toolCall) tool_retries
                (tool_operation host toolCall)
                (updateProgress (toolUpdate toolCall) s).2) as (Hm2 & _).
    destruct (step_do _ _ _ _) as [[toolResult|e] s2] eqn:Hstep; [|done].
    cbn [snd] in Hm2. simpl in Hm2.
    apply (step_do_recorded (T := string)) in Hstep.
    set (s3 := (push (toolMessage toolResult toolCall) s2).2) in *.
    assert (Hrest : for_of rest (tool_body host turn) s3 = (returned (), sf)) by done.
    destruct (for_of_records host turn rest s3) as [_ Hmono].
    rewrite Hrest in Hmono. cbn [snd] in Hmono.
    assert (Hhit : tool_records t !! tool_key turn toolCall = Some toolResult).
    { eapply lookup_weaken; [|exact Hsub]. eapply lookup_weaken; [|exact Hmono]. done. }
    destruct (IH s3 (push (toolMessage toolResult toolCall)
                       (updateProgress (toolUpdate toolCall) t).2).2 Hrest)
      as (t' & Hrun' & (Hi & Hl & Ht) & Hm').
    { subst s3. simpl. by rewrite Hm2, Hm. }
    { done. }
    exists t'. split; [|done].
    simpl. rewrite bind_eq, tool_body_eq.
    by rewrite (step_do_cached (T := string) _ _ _ _ toolResult).
Qed.

Lemma turn_loop_replay n turn s r sf t :
  turn_loop MAX_AGENT_TURNS host n turn s = (returned r, sf) →
  messages s = messages t →
  llm_records sf ⊆ llm_records t →
  tool_records sf ⊆ tool_records t →
  ∃ t',
    turn_loop MAX_AGENT_TURNS host' n turn t = (returned r, t') ∧
    replayed t t' ∧ messages t' = messages sf.
Proof.
  revert turn s t. induction n as [|n IH]; intros turn s t Hrun Hm Hl Ht.
  - injection Hrun as <- <-. by exists t.
  - simpl in Hrun. rewrite bind_eq in Hrun. unfold turn_body in Hrun.
    rewrite bind_eq in Hrun.
    destruct (llm_step_view host turn s) as (Hm1 & _).
    destruct (llm_step host turn s) as [[v|e] s1] eqn:Hstep; [|done].
    cbn [snd] in Hm1.
    (* the replay of the LLM step is a hit *)
    assert (∃ t1,
               (llm_records s1 ⊆ llm_records t →
                llm_step host' turn t = (returned v, t1)) ∧
               replayed t t1 ∧ messages t1 = messages t)
      as (t1 & Hhit & (Hi1 & Hl1 & Ht1) & Hmt1).
    { exists (updateProgress (turnUpdate turn) t).2. split; [|done].
      intros Hsub0. exact (llm_step_replay turn s v s1 t Hstep Hsub0). }
    assert (Hskip : turn_loop MAX_AGENT_TURNS host n (S turn) s1 = (returned r, sf) →
               ∃ t', turn_loop MAX_AGENT_TURNS host' n (S turn) t1 = (returned r, t') ∧
                     replayed t t' ∧ messages t' = messages sf).
    { intros Hrest.
      destruct (IH (S turn) s1 t1 Hrest) as (t' & Hrun' & (Hi' & Hl' & Ht') & Hm');
        [by rewrite Hm1, Hm, Hmt1|by rewrite Hl1|by rewrite Ht1|].
      exists t'. split; [done|]. split; [|done].
      unfold replayed. by rewrite Hi', Hl', Ht', Hi1, Hl1, Ht1. }
    assert (Hsub : turn_loop MAX_AGENT_TURNS host n (S turn) s1 = (returned r, sf) →
               llm_records s1 ⊆ llm_records t).
    { intros Hrest. pose proof (turn_loop_records MAX_AGENT_TURNS host n (S turn) s1) as [Hmono _].
      rewrite Hrest in Hmono. by etrans. }
    simpl. rewrite bind_eq. unfold turn_body. rewrite bind_eq.
    destruct (isChatCompletionResponse v) eqn:Hvalid; simpl in Hrun.
    2:{ rewrite (Hhit (Hsub Hrun)), Hvalid. simpl. by apply Hskip. }
    destruct (choices v) as [|[[choice| |choice]|] rest] eqn:Hchoices; simpl in Hrun.
    1,5: rewrite (Hhit (Hsub Hrun)), Hvalid, Hchoices; simpl; by apply Hskip.
    + rewrite bind_eq in Hrun. simpl in Hrun.
      set (s2 := {| messages := messages s1 ++ _ |}) in Hrun.
      destruct (is_done choice) eqn:Hdone.
      { rewrite bind_eq in Hrun. simpl in Hrun. injection Hrun as <- <-.
        rewrite (Hhit Hl), Hvalid, Hchoices. simpl. rewrite bind_eq. simpl.
        rewrite Hdone, bind_eq. simpl.
        eexists. split; [reflexivity|]. split; [by unfold replayed|]. simpl.
        by rewrite Hmt1, Hm1, Hm. }
      destruct (cm_tool_calls (ch_message choice)) as [toolCalls|] eqn:Hcalls.
      2:{ destruct (not_done_tool_calls choice Hdone) as (? & ? & ?). congruence. }
      rewrite bind_eq in Hrun.
      destruct (for_of toolCalls (tool_body host turn) s2) as [[[]|e] s3] eqn:Htools;
        [|done].
      cbn [ret] in Hrun.
      pose proof (turn_loop_records MAX_AGENT_TURNS host n (S turn) s3) as [Hmono_l Hmono_t].
      rewrite Hrun in Hmono_l, Hmono_t. cbn [snd] in Hmono_l, Hmono_t.
      pose proof (for_of_records host turn toolCalls s2) as [Hmono_l2 _].
      rewrite Htools in Hmono_l2. cbn [snd] in Hmono_l2.
      destruct (for_of_replay turn toolCalls s2 s3
                  (push (assistantMessage choice) t1).2 Htools)
        as (t3 & Htools' & (Hi3 & Hl3 & Ht3) & Hm3).
      { subst s2. simpl. by rewrite Hmt1, Hm1, Hm. }
      { simpl. rewrite Ht1. by etrans. }
      simpl in Htools', Hi3, Hl3, Ht3.
      destruct (IH (S turn) s3 t3 Hrun) as (t' & Hrun' & (Hi' & Hl' & Ht') & Hm');
        [done|by rewrite Hl3, Hl1|by rewrite Ht3, Ht1|].
      rewrite Hhit, Hvalid, Hchoices by (etrans; [exact Hmono_l2|by etrans]).
      simpl. rewrite bind_eq. simpl. rewrite Hdone, Hcalls, bind_eq, Htools'.
      cbn [ret].
      exists t'. split; [done|]. split; [|done].
      unfold replayed. by rewrite Hi', Hl', Ht', Hi3, Hl3, Ht3, Hi1, Hl1, Ht1.
    + done.
    + rewrite bind_eq in Hrun. simpl in Hrun.
      set (s2 := {| messages := messages s1 ++ _ |}) in Hrun.
      destruct (ch_finish_reason choice) eqn:Hreason.
      { rewrite bind_eq in Hrun. simpl in Hrun. injection Hrun as <- <-.
        rewrite (Hhit Hl), Hvalid, Hchoices. simpl. rewrite bind_eq. simpl.
        rewrite Hreason, bind_eq. simpl.
        eexists. split; [reflexivity|]. split; [by unfold replayed|]. simpl.
        by rewrite Hmt1, Hm1, Hm. }
      all: rewrite bind_eq in Hrun;
        by destruct (for_of (default [] (cm_tool_calls (ch_message choice)))
                       (tool_body host turn) s2) as [[[]|e] s3].
Qed.

End Replay.

(** ** Turns that come to their end *)

Section Through.
Variable MAX_AGENT_TURNS : nat.
Variable host : Host.

Lemma turn_body_return_complete turn s r s1 :
  turn_body host turn s = (returned (Return r), s1) → wr_status r = complete.
Proof.
  intros Hbody.
  destruct (turn_body_trace host turn s) as (msgs & ups & Htrace & _).
  rewrite Hbody in Htrace. simpl in Htrace.
  by apply turn_trace_return in Htrace as (choice & _ & -> & _).
Qed.

(** The loop returns [max_turns_reached] exactly when all its iterations
    come to their end, and then in the state the last of them left. *)
Lemma turns_through_loop n turn s s' :
  turns_through host n turn s = Some s' ↔
  turn_loop MAX_AGENT_TURNS host n turn s
  = (returned {| wr_status := max_turns_reached; wr_turns := MAX_AGENT_TURNS;
                 wr_result := absent |}, s').
Proof.
  revert turn s. induction n as [|n IH]; intros turn s; simpl.
  - split; by intros [= ->].
  - rewrite bind_eq.
    destruct (turn_body host turn s) as [[[|r]|e] s1] eqn:Hbody; simpl.
    + apply IH.
    + split; [done|]. intros [= -> _].
      by apply turn_body_return_complete in Hbody.
    + done.
Qed.

Lemma tools_trace_returned_updates turn toolCalls msgs ups :
  tools_trace turn toolCalls (returned ()) msgs ups → ups = toolUpdate <$> toolCalls.
Proof.
  intros Htrace. remember (returned ()) as o eqn:Ho.
  induction Htrace as [|toolCall rest err|toolCall rest toolResult o msgs ups _ IH].
  - done.
  - done.
  - simpl. by rewrite IH.
Qed.

Lemma turn_trace_continue_updates turn msgs ups :
  turn_trace turn (returned Continue) msgs ups →
  ∃ toolCalls, ups = turnUpdate turn :: (toolUpdate <$> toolCalls).
Proof.
  inversion 1 as [| | |choice toolCalls msgs' ups' Hdone Hcalls Htools| | | |]; subst.
  - by exists [].
  - apply tools_trace_returned_updates in Htools as ->. by exists toolCalls.
Qed.

Lemma loop_updates_cons turn toolCalls blocks :
  loop_updates turn (toolCalls :: blocks)
  = turnUpdate turn :: (toolUpdate <$> toolCalls) ++ loop_updates (S turn) blocks.
Proof.
  unfold loop_updates. rewrite imap_cons. simpl. rewrite Nat.add_0_r.
  do 3 f_equal. apply imap_ext. intros i calls _. simpl. do 2 f_equal. lia.
Qed.

(** The updates of a loop that ran all its iterations. *)
Lemma loop_trace_blocks n turn r msgs ups :
  loop_trace MAX_AGENT_TURNS n turn (returned r) msgs ups →
  wr_status r = max_turns_reached →
  ∃ blocks, length blocks = n ∧ ups = loop_updates turn blocks.
Proof.
  intros Htrace. remember (returned r) as o eqn:Ho.
  induction Htrace as [turn|n turn e msgs ups Hturn|n turn r' msgs ups Hturn
                       |n turn o msgs ups msgs' ups' Hturn Hloop IH]; intros Hmax.
  - by exists [].
  - done.
  - injection Ho as ->.
    apply turn_trace_return in Hturn as (choice & _ & -> & _). done.
  - destruct (IH Ho Hmax) as (blocks & Hlen & ->).
    apply turn_trace_continue_updates in Hturn as (toolCalls & ->).
    exists (toolCalls :: blocks). split; [simpl; by rewrite Hlen|].
    by rewrite loop_updates_cons.
Qed.

Lemma loop_updates_last turn blocks u :
  last (loop_updates turn blocks) = Some u →
  u = turnUpdate (turn + length blocks - 1) ∨ ∃ toolCall, u = toolUpdate toolCall.
Proof.
  revert turn. induction blocks as [|toolCalls blocks IH]; intros turn; [done|].
  rewrite loop_updates_cons. simpl length.
  destruct blocks as [|toolCalls' blocks].
  - unfold loop_updates at 1. simpl. rewrite app_nil_r.
    destruct (nil_or_snoc toolCalls) as [->|(pre & toolCall & ->)]; simpl.
    + intros [= <-]. left. f_equal. lia.
    + rewrite fmap_app. simpl.
      change (turnUpdate turn :: (toolUpdate <$> pre) ++ [toolUpdate toolCall])
        with ((turnUpdate turn :: (toolUpdate <$> pre)) ++ [toolUpdate toolCall]).
      rewrite last_snoc. intros [= <-]. right. by exists toolCall.
  - change (turnUpdate turn :: (toolUpdate <$> toolCalls)
              ++ loop_updates (S turn) (toolCalls' :: blocks))
      with ((turnUpdate turn :: (toolUpdate <$> toolCalls))
              ++ loop_updates (S turn) (toolCalls' :: blocks)).
    rewrite last_app.
    destruct (last (loop_updates (S turn) (toolCalls' :: blocks))) as [u'|] eqn:Hlast.
    + intros [= <-]. destruct (IH (S turn) Hlast) as [->|?]; [left|by right].
      f_equal. simpl. lia.
    + rewrite loop_updates_cons in Hlast. by apply last_None in Hlast.
Qed.

Lemma loop_trace_thrown_started n turn e msgs ups :
  loop_trace MAX_AGENT_TURNS n turn (thrown e) msgs ups → 1 ≤ turns_started ups.
Proof.
  intros Htrace. remember (thrown e) as o eqn:Ho.
  induction Htrace as [turn|n turn e' msgs ups Hturn|n turn r' msgs ups Hturn
                       |n turn o msgs ups msgs' ups' Hturn Hloop IH].
  - done.
  - by rewrite (turn_trace_turns_started _ _ _ _ Hturn).
  - done.
  - rewrite turns_started_app, (turn_trace_turns_started _ _ _ _ Hturn). lia.
Qed.

End Through.

(* ================================================================= *)
(** * The claims *)

(** ** Checkpoints *)

(** C1. Once a step under a key has succeeded with payload [r], whatever the
    Run does afterwards (pushes, updates, other steps, steps under the same
    key, a replay of [run] from its first line), an execution under that key
    returns [r] and leaves the whole state as it was; the invocation log is
    part of the state, so the wrapped operation was not run.  This holds for
    the LLM steps (payload type [unknown], keys [llm_key t]) and for the tool
    steps (payload type [string], keys [tool_key t c]).  What the turn loop
    and [run] do to the state is such a sequence of actions. *)
Theorem checkpoint_at_most_once :
  (∀ key config operation s (r : unknown) s1,
      step_do key config operation s = (returned r, s1) →
      ∀ acts config' operation',
        step_do key config' operation' (perform_all acts s1)
        = (returned r, perform_all acts s1))
  ∧
  (∀ key config operation s (r : string) s1,
      step_do key config operation s = (returned r, s1) →
      ∀ acts config' operation',
        step_do key config' operation' (perform_all acts s1)
        = (returned r, perform_all acts s1))
  ∧
  (∀ MAX_AGENT_TURNS host n turn s,
      ∃ acts, (turn_loop MAX_AGENT_TURNS host n turn s).2 = perform_all acts s)
  ∧
  (∀ MAX_AGENT_TURNS host task s,
      ∃ acts,
        (run MAX_AGENT_TURNS host task s).2
        = perform_all (act_restart task :: act_publish initialUpdate :: acts) s).
Proof.
  split_and!.
  1,2: intros key config operation s r s1 Hstep acts config' operation';
    apply step_do_cached;
    apply step_do_recorded in Hstep;
    destruct (perform_all_records acts s1) as [Hl Ht].
  - by eapply (lookup_weaken (llm_records s1)).
  - by eapply (lookup_weaken (tool_records s1)).
  - apply turn_loop_actions.
  - apply run_actions.
Qed.

(** After the LLM step of turn 0 succeeded, a replay with the gateway down
    still gets the recorded body. *)
Lemma checkpoint_at_most_once_witness :
  let s1 := (step_do (llm_key 0) llm_retries (llm_operation Sample.pong) Sample.start).2 in
  let later :=
    perform_all
      [act_restart "ping"; act_publish initialUpdate;
       act_tool_step "tool-0-c1" tool_retries (λ _, inr "[]");
       act_llm_step (llm_key 1) llm_retries (llm_operation Sample.pong)] s1 in
  step_do (llm_key 0) llm_retries (llm_operation Sample.gateway_down) later
  = (returned (Sample.body (Sample.says "pong")), later).
Proof.
  apply (proj1 checkpoint_at_most_once (llm_key 0) llm_retries
           (llm_operation Sample.pong) Sample.start).
  vm_compute. reflexivity.
Defined.

(** ** The stop condition *)

(** C2. On turn [turn], with the loop still running, if the LLM step yields
    a body that passes the guard and has a first choice, and that choice
    says [stop] or carries no tool call (the property is absent, or the list
    is empty), then the Run returns there: [status = complete],
    [turns = turn + 1] and [result] is the content of that choice.  The
    final state has the assistant message appended and the completion update
    published. *)
Theorem stop_condition_completes MAX_AGENT_TURNS host n turn s v s1 choice rest :
  llm_step host turn s = (returned v, s1) →
  isChatCompletionResponse v = true →
  choices v = Some (well_typed choice) :: rest →
  ch_finish_reason choice = finish_stop ∨
  cm_tool_calls (ch_message choice) = None ∨
  cm_tool_calls (ch_message choice) = Some [] →
  turn_loop MAX_AGENT_TURNS host (S n) turn s =
  (returned {| wr_status := complete;
               wr_turns := turn + 1;
               wr_result := present (cm_content (ch_message choice)) |},
   (updateProgress (completeUpdate choice) (push (assistantMessage choice) s1).2).2).
Proof.
  intros Hstep Hvalid Hchoices Hstop%is_done_true.
  by apply (turn_loop_done MAX_AGENT_TURNS host n turn s v s1 choice rest).
Qed.

(** Scenario A of the specification. *)
Lemma stop_condition_completes_witness :
  run 10 Sample.pong "ping" Sample.start =
  (returned {| wr_status := complete; wr_turns := 1; wr_result := present (Some "pong") |},
   (run 10 Sample.pong "ping" Sample.start).2).
Proof.
  rewrite run_eq.
  rewrite (stop_condition_completes 10 Sample.pong 9 0 _
             (Sample.body (Sample.says "pong"))
             (llm_step Sample.pong 0
                (updateProgress initialUpdate
                   (init_messages "ping" Sample.start).2).2).2
             (Sample.says "pong") []).
  - reflexivity.
  - vm_compute. reflexivity.
  - reflexivity.
  - reflexivity.
  - left. reflexivity.
Defined.

(** ** Bounded termination *)

(** C3. [run] is a total function, so every Run ends: it returns [complete]
    or [max_turns_reached], or it throws.  It starts at most
    [MAX_AGENT_TURNS] turns.  The loop returns [max_turns_reached], with
    [turns = MAX_AGENT_TURNS] and no [result], exactly when all its
    iterations come to their end without returning or throwing, and then in
    the state the last iteration left; so does a Run.  A returned [turns] is
    at most [MAX_AGENT_TURNS]: a [complete] result reports the number of
    turns started and its last update is the completion update.  A Run that
    throws does so inside a turn. *)
Theorem bounded_termination MAX_AGENT_TURNS host task s :
  let o := (run MAX_AGENT_TURNS host task s).1 in
  let s' := (run MAX_AGENT_TURNS host task s).2 in
  let s0 := (updateProgress initialUpdate (init_messages task s).2).2 in
  (∀ n turn s1 s2,
      turns_through host n turn s1 = Some s2 ↔
      turn_loop MAX_AGENT_TURNS host n turn s1
      = (returned {| wr_status := max_turns_reached; wr_turns := MAX_AGENT_TURNS;
                     wr_result := absent |}, s2))
  ∧
  (∀ s2,
      turns_through host MAX_AGENT_TURNS 0 s0 = Some s2 ↔
      run MAX_AGENT_TURNS host task s
      = (returned {| wr_status := max_turns_reached; wr_turns := MAX_AGENT_TURNS;
                     wr_result := absent |}, s2))
  ∧
  ∃ ups,
    published s' = published s ++ initialUpdate :: ups ∧
    turns_started ups ≤ MAX_AGENT_TURNS ∧
    match o with
    | thrown e =>
        turns_through host MAX_AGENT_TURNS 0 s0 = None ∧
        1 ≤ turns_started ups
    | returned r =>
        wr_turns r ≤ MAX_AGENT_TURNS ∧
        ((wr_status r = complete ∧ wr_turns r = turns_started ups ∧
          (∃ ups' choice, ups = ups' ++ [completeUpdate choice]) ∧
          turns_through host MAX_AGENT_TURNS 0 s0 = None) ∨
         (wr_status r = max_turns_reached ∧ wr_turns r = MAX_AGENT_TURNS ∧
          wr_result r = absent ∧ turns_started ups = MAX_AGENT_TURNS ∧
          Forall running_phase ups ∧
          turns_through host MAX_AGENT_TURNS 0 s0 = Some s'))
    end.
Proof.
  simpl. split; [apply turns_through_loop|].
  split; [intros s2; rewrite run_eq; apply turns_through_loop|].
  destruct (run_trace MAX_AGENT_TURNS host task s) as (msgs & ups & Htrace & _ & Hp & _).
  exists ups. split; [done|].
  destruct (loop_trace_turns _ _ _ _ _ _ Htrace) as [Hle Hres].
  split; [done|].
  pose proof (loop_trace_updates _ _ _ _ _ _ Htrace) as Hups.
  pose proof (turns_through_loop MAX_AGENT_TURNS host MAX_AGENT_TURNS 0
                (updateProgress initialUpdate (init_messages task s).2).2) as Hthrough.
  rewrite <- run_eq in Hthrough.
  destruct (run MAX_AGENT_TURNS host task s) as [[r|e] s'] eqn:Hrun; simpl in *.
  - destruct (Hres r eq_refl) as [(Hc & Ht & H1)|(Hm & Ht & Hr & Hn)].
    + split; [simpl in Ht; lia|]. left. split_and!; [done..| |].
      * destruct Hups as [(_ & ups' & choice & -> & _)|[Hm _]]; [by eauto|].
        by rewrite Hc in Hm.
      * apply eq_None_not_Some. intros [s2 Hs2]. apply Hthrough in Hs2.
        injection Hs2 as -> _. done.
    + split; [lia|]. right. split_and!; [done..| |].
      * destruct Hups as [[Hc _]|[_ Hrun']]; [by rewrite Hm in Hc|done].
      * apply Hthrough. destruct r as [status turns result]. simpl in *.
        by subst.
  - split.
    + apply eq_None_not_Some. intros [s2 Hs2]. by apply Hthrough in Hs2.
    + by eapply loop_trace_thrown_started.
Qed.

(** ** Malformed bodies *)

(** C4. When the LLM step yields a body that fails the guard (it is not an
    object, or [id] or [model] is not a string, or [choices] is not an
    array), or whose [choices] is empty or has no first choice, the turn
    ends there with [messages] as it was, and the loop goes on with the next
    turn and one iteration less: the turn has been spent.  A gateway that
    sends only such bodies makes the Run return [max_turns_reached] with the
    task as its only message; it does not throw. *)
Theorem malformed_response_skips_turn MAX_AGENT_TURNS host :
  (∀ v,
      isChatCompletionResponse v = false ↔
      v = u_null ∨ v = u_primitive ∨
      ∃ r, v = u_object r ∧
        (is_typed (r_id r) = false ∨ is_typed (r_model r) = false ∨
         is_typed (r_choices r) = false))
  ∧
  (∀ n turn s v s1,
      llm_step host turn s = (returned v, s1) →
      skipped v →
      turn_body host turn s = (returned Continue, s1) ∧
      messages s1 = messages s ∧
      turn_loop MAX_AGENT_TURNS host (S n) turn s
      = turn_loop MAX_AGENT_TURNS host n (S turn) s1)
  ∧
  ((∀ i request, ∃ v, callAIGateway host i request = Some v ∧ skipped v) →
   ∀ task s,
     (∀ key v, llm_records s !! key = Some v → skipped v) →
     ∃ s',
       run MAX_AGENT_TURNS host task s =
       (returned {| wr_status := max_turns_reached;
                    wr_turns := MAX_AGENT_TURNS;
                    wr_result := absent |}, s') ∧
       messages s' = [ {| msg_role := user; msg_content := Some task;
                          msg_tool_calls := None; msg_tool_call_id := None |} ]).
Proof.
  split_and!.
  - apply guard_fails.
  - intros n turn s v s1 Hstep Hskip.
    pose proof (turn_body_skipped host _ _ _ _ Hstep Hskip) as Hbody.
    split_and!; [done| |].
    + destruct (llm_step_view host turn s) as (Hm & _). by rewrite Hstep in Hm.
    + simpl. by rewrite bind_eq, Hbody.
  - intros Hgw task s Hrec. rewrite run_eq.
    destruct (turn_loop_malformed MAX_AGENT_TURNS host Hgw MAX_AGENT_TURNS 0
                (updateProgress initialUpdate (init_messages task s).2).2 Hrec)
      as (s' & Hloop & Hm).
    by exists s'.
Qed.

(** A gateway that sends [null], then only primitives. *)
Lemma malformed_response_skips_turn_witness :
  ∃ s',
    run 10 Sample.never_valid "ping" Sample.start =
    (returned {| wr_status := max_turns_reached; wr_turns := 10; wr_result := absent |}, s') ∧
    messages s' = [ {| msg_role := user; msg_content := Some "ping";
                       msg_tool_calls := None; msg_tool_call_id := None |} ].
Proof.
  apply (proj2 (proj2 (malformed_response_skips_turn 10 Sample.never_valid))).
  - intros i request. simpl. destruct (decide (i = 0)).
    + exists u_null. split; [reflexivity|by left].
    + exists u_primitive. split; [reflexivity|by left].
  - intros key v Hv. simpl in Hv. by rewrite lookup_empty in Hv.
Defined.

(** ** Unparseable tool arguments *)

(** C5, where the code departs from it.  On a turn whose choice asks for
    tools, if the arguments text of the first tool call is not JSON (and the
    step has no record yet), [JSON.parse] throws inside the step on both
    attempts, whatever the tool's name; the step is exhausted and the Run
    throws instead of appending a tool message and going on. *)
Theorem unparseable_arguments_abort_run MAX_AGENT_TURNS host n turn s v s1 choice rest
    toolCall toolCalls :
  llm_step host turn s = (returned v, s1) →
  isChatCompletionResponse v = true →
  choices v = Some (well_typed choice) :: rest →
  ch_finish_reason choice ≠ finish_stop →
  cm_tool_calls (ch_message choice) = Some (toolCall :: toolCalls) →
  JSON_parse host (fn_arguments (tc_function toolCall)) = None →
  tool_records s1 !! tool_key turn toolCall = None →
  ∃ s',
    turn_loop MAX_AGENT_TURNS host (S n) turn s =
    (thrown (StepExhausted (tool_key turn toolCall) SyntaxError), s') ∧
    messages s' = messages s ++ [assistantMessage choice] ∧
    invoked s' = invoked s1 ++ [tool_key turn toolCall; tool_key turn toolCall].
Proof.
  intros Hstep Hvalid Hchoices Hstop Hcalls Hparse Hrec.
  assert (Hdone : is_done choice = false).
  { unfold is_done. rewrite Hcalls. by destruct (ch_finish_reason choice). }
  eexists. split.
  - exact (turn_loop_tool_exhausted MAX_AGENT_TURNS host n turn s v s1 choice rest
             [] toolCall toolCalls _ _ _ Hstep Hvalid Hchoices Hdone Hcalls eq_refl
             (tool_body_unparseable host turn toolCall
                (push (assistantMessage choice) s1).2 Hparse Hrec)).
  - destruct (llm_step_view host turn s) as (Hm & _). rewrite Hstep in Hm.
    simpl in *. rewrite Hm. split; [done|]. by rewrite <- app_assoc.
Qed.

(** The arguments text [not json] on turn 0. *)
Lemma unparseable_arguments_abort_run_witness :
  (run 10 Sample.bad_arguments "ping" Sample.start).1
  = thrown (StepExhausted "tool-0-c1" SyntaxError).
Proof.
  set (s0 := (updateProgress initialUpdate (init_messages "ping" Sample.start).2).2).
  destruct (unparseable_arguments_abort_run 10 Sample.bad_arguments 9 0 s0
              (Sample.body (Sample.calls finish_tool_calls
                              [Sample.call "c1" "search_repos" "not json"]))
              (llm_step Sample.bad_arguments 0 s0).2
              (Sample.calls finish_tool_calls [Sample.call "c1" "search_repos" "not json"])
              [] (Sample.call "c1" "search_repos" "not json") [])
    as (s' & Hrun & _).
  - vm_compute. reflexivity.
  - reflexivity.
  - reflexivity.
  - discriminate.
  - reflexivity.
  - vm_compute. reflexivity.
  - vm_compute. reflexivity.
  - rewrite run_eq. fold s0. rewrite Hrun. reflexivity.
Defined.

(** ** Step exhaustion *)




(** ** The transcript *)

(** C7.  From any point of the loop on, [messages] only grows at its end:
    what was there is a prefix of what is there afterwards.  If every tool
    message so far answers a tool call of an earlier assistant message, so
    does every tool message afterwards; the transcript of a whole Run
    starts with the task and has that property.  The loop over the tool
    calls of a turn appends one tool message per call it gets through, in
    the order of the calls, each carrying the id of its call; it gets
    through all of them unless a step throws.  A turn appends nothing, or
    the assistant message of its choice followed by the tool messages for
    that choice's tool calls, in the order of the calls from the first one
    on, and for all of them when the turn comes to its end.  The transcript
    of a Run is the task followed by what its turns appended, turn after
    turn. *)
Theorem transcript_append_only MAX_AGENT_TURNS host :
  (∀ n turn s,
      messages s `prefix_of` messages (turn_loop MAX_AGENT_TURNS host n turn s).2 ∧
      (tool_ids_matched (messages s) →
       tool_ids_matched (messages (turn_loop MAX_AGENT_TURNS host n turn s).2)))
  ∧
  (∀ task s,
      [ {| msg_role := user; msg_content := Some task;
           msg_tool_calls := None; msg_tool_call_id := None |} ]
        `prefix_of` messages (run MAX_AGENT_TURNS host task s).2 ∧
      tool_ids_matched (messages (run MAX_AGENT_TURNS host task s).2))
  ∧
  (∀ turn toolCalls s,
      ∃ results,
        messages (for_of toolCalls (tool_body host turn) s).2
        = messages s ++ zip_with toolMessage results toolCalls ∧
        msg_tool_call_id <$> zip_with toolMessage results toolCalls
        = Some ∘ tc_id <$> take (length results) toolCalls ∧
        length results ≤ length toolCalls ∧
        ((for_of toolCalls (tool_body host turn) s).1 = returned () →
         length results = length toolCalls))
  ∧
  (∀ turn s,
      ∃ msgs,
        messages (turn_body host turn s).2 = messages s ++ msgs ∧
        (msgs = [] ∨
         ∃ choice results,
           let toolCalls := default [] (cm_tool_calls (ch_message choice)) in
           msgs = assistantMessage choice :: zip_with toolMessage results toolCalls ∧
           length results ≤ length toolCalls ∧
           ((turn_body host turn s).1 = returned Continue →
            length results = length toolCalls)))
  ∧
  (∀ task s,
      ∃ blocks,
        messages (run MAX_AGENT_TURNS host task s).2
        = {| msg_role := user; msg_content := Some task;
             msg_tool_calls := None; msg_tool_call_id := None |} :: concat blocks ∧
        length blocks ≤ MAX_AGENT_TURNS ∧
        Forall turn_messages blocks).
Proof.
  split_and!.
  - intros n turn s.
    destruct (turn_loop_trace MAX_AGENT_TURNS host n turn s)
      as (msgs & ups & Htrace & Hm & _).
    rewrite Hm. split; [by apply prefix_app_r|].
    by eapply tool_ids_matched_loop.
  - intros task s.
    destruct (run_trace MAX_AGENT_TURNS host task s) as (msgs & ups & Htrace & Hm & _).
    rewrite Hm. split; [by exists msgs|].
    eapply (tool_ids_matched_loop _ _ _ _ _ _ [_]); [done|].
    intros [|i] m Hi Hrole; simpl in Hi; [by injection Hi as <-|done].
  - intros turn toolCalls s.
    destruct (for_of_tools_trace host turn toolCalls s)
      as (msgs & ups & Htrace & Hm & _).
    apply tools_trace_messages in Htrace as (results & -> & Hle & Hret).
    exists results. split_and!; [done| |done|done].
    clear. revert toolCalls. induction results as [|r results IH];
      intros [|toolCall toolCalls]; simpl; [done..|]. by rewrite IH.
  - intros turn s.
    destruct (turn_body_trace host turn s) as (msgs & ups & Htrace & Hm & _).
    exists msgs. split; [done|]. by apply turn_trace_messages_full in Htrace.
  - intros task s.
    destruct (run_trace MAX_AGENT_TURNS host task s) as (msgs & ups & Htrace & Hm & _).
    apply loop_trace_message_blocks in Htrace as (blocks & -> & Hlen & Hall).
    by exists blocks.
Qed.

(** Scenario B of the specification. *)
Lemma transcript_append_only_witness :
  tool_ids_matched (messages (run 10 Sample.search_then_done "ping" Sample.start).2).
Proof.
  exact (proj2 (proj1 (proj2 (transcript_append_only 10 Sample.search_then_done))
                  "ping" Sample.start)).
Defined.

(** ** Progress updates *)

(** C8.  [updateProgress] is the spread [{ ...state, ...progress }] on the
    objects' own properties: a key the update owns gets the update's value,
    every other key keeps the state's.  The update always owns [status] and
    [message].  The initial update owns [result] with the empty string, and
    it is the first update a Run publishes, so the agent's [result] is empty
    from the start of the Run. *)
Theorem publish_merges_fields :
  (∀ state progress key,
      state_object (ResearchAgent.updateProgress state progress) !! key
      = match update_object progress !! key with
        | Some v => Some v
        | None => state_object state !! key
        end)
  ∧
  (∀ progress,
      update_object progress !! "status" = Some (Some (pu_status progress)) ∧
      update_object progress !! "message" = Some (Some (pu_message progress)))
  ∧
  update_object initialUpdate !! "result" = Some (Some "")
  ∧
  (∀ MAX_AGENT_TURNS host task s,
      ∃ ups,
        published (run MAX_AGENT_TURNS host task s).2
        = published s ++ initialUpdate :: ups ∧
        as_result (ResearchAgent.updateProgress (agent s) initialUpdate)
        = present (Some "")).
Proof.
  split_and!.
  - intros state progress key. unfold state_object, update_object. simpl.
    destruct (decide (key = "status")) as [->|Hs].
    { by rewrite !lookup_insert_eq. }
    rewrite !(lookup_insert_ne _ "status") by done.
    destruct (decide (key = "message")) as [->|Hm].
    { by rewrite !lookup_insert_eq. }
    rewrite !(lookup_insert_ne _ "message") by done.
    destruct (pu_result progress) as [|v]; simpl.
    + by rewrite lookup_empty.
    + destruct (decide (key = "result")) as [->|Hr].
      * by rewrite !lookup_singleton_eq.
      * rewrite lookup_singleton_ne by done.
        destruct (as_result state); [by rewrite lookup_empty|].
        by rewrite lookup_singleton_ne.
  - intros progress. unfold update_object. split.
    + by rewrite lookup_insert_eq.
    + by rewrite lookup_insert_ne, lookup_insert_eq.
  - reflexivity.
  - intros MAX_AGENT_TURNS host task s.
    destruct (run_trace MAX_AGENT_TURNS host task s) as (msgs & ups & _ & _ & Hp & _).
    by exists ups.
Qed.

(** ** A stop that also asks for tools *)

(** C9. If the first choice says [stop] and still carries tool calls, the
    Run returns [complete] on that turn.  After the LLM step nothing is
    invoked and no tool record is written; exactly one message is appended,
    the assistant message with its tool calls, so it is the last of the
    transcript and no tool-role message answers it; the only update
    published after the turn update is the completion update. *)
Theorem stop_wins_over_tool_calls MAX_AGENT_TURNS host n turn s v s1 choice rest
    toolCall toolCalls :
  llm_step host turn s = (returned v, s1) →
  isChatCompletionResponse v = true →
  choices v = Some (well_typed choice) :: rest →
  ch_finish_reason choice = finish_stop →
  cm_tool_calls (ch_message choice) = Some (toolCall :: toolCalls) →
  ∃ s',
    turn_loop MAX_AGENT_TURNS host (S n) turn s =
    (returned {| wr_status := complete;
                 wr_turns := turn + 1;
                 wr_result := present (cm_content (ch_message choice)) |}, s') ∧
    invoked s' = invoked s1 ∧
    tool_records s' = tool_records s1 ∧
    messages s' = messages s ++ [assistantMessage choice] ∧
    last (messages s') = Some (assistantMessage choice) ∧
    msg_role (assistantMessage choice) = assistant ∧
    msg_tool_calls (assistantMessage choice) = Some (toolCall :: toolCalls) ∧
    published s' = published s ++ [turnUpdate turn; completeUpdate choice].
Proof.
  intros Hstep Hvalid Hchoices Hstop Hcalls.
  assert (Hdone : is_done choice = true) by (apply is_done_true; by left).
  eexists. split.
  { by apply (turn_loop_done MAX_AGENT_TURNS host n turn s v s1 choice rest). }
  destruct (llm_step_view host turn s) as (Hm & _ & Hp).
  rewrite Hstep in Hm, Hp. simpl in Hm, Hp. simpl.
  rewrite Hm, Hp, last_snoc, Hcalls, <- app_assoc. done.
Qed.

(** A first choice that says stop and asks for [search_repos]. *)
Lemma stop_wins_over_tool_calls_witness :
  ∃ s',
    run 10 Sample.stop_with_calls "ping" Sample.start =
    (returned {| wr_status := complete; wr_turns := 1; wr_result := present None |}, s') ∧
    invoked s' = [llm_key 0] ∧
    msg_role <$> messages s' = [user; assistant].
Proof.
  set (s0 := (updateProgress initialUpdate (init_messages "ping" Sample.start).2).2).
  destruct (stop_wins_over_tool_calls 10 Sample.stop_with_calls 9 0 s0
              (Sample.body (Sample.calls finish_stop
                              [Sample.call "c1" "search_repos" Sample.query_x]))
              (llm_step Sample.stop_with_calls 0 s0).2
              (Sample.calls finish_stop [Sample.call "c1" "search_repos" Sample.query_x])
              [] (Sample.call "c1" "search_repos" Sample.query_x) [])
    as (s' & Hrun & Hinv & _ & Hmsgs & _).
  - vm_compute. reflexivity.
  - reflexivity.
  - reflexivity.
  - reflexivity.
  - reflexivity.
  - exists s'. rewrite run_eq. split; [exact Hrun|].
    rewrite Hinv, Hmsgs. split; reflexivity.
Defined.

(** ** What the agent shows when a Run ends without completing *)

(** C10. A Run returns [max_turns_reached] in the state its last iteration
    left: after the loop nothing is published, and nothing else is done.
    What it has published is the initial update and then, turn by turn from
    turn 0 to turn [MAX_AGENT_TURNS - 1], the turn's update followed by one
    update per tool call: no other update, and none after those of the last
    turn.  The agent is left with the status and message of the last of
    them, which is the update of the last turn or the update of a tool call
    (["analyzing"] or ["fetching"]), with the [result] the initial update
    cleared, and stays so until [reset] puts it back to idle. *)
Theorem max_turns_leaves_running_status MAX_AGENT_TURNS host task s r s' :
  run MAX_AGENT_TURNS host task s = (returned r, s') →
  wr_status r = max_turns_reached →
  ∃ ups u,
    published s' = published s ++ initialUpdate :: ups ∧
    Forall running_phase ups ∧
    last (published s') = Some u ∧
    as_status (agent s') = pu_status u ∧
    as_message (agent s') = pu_message u ∧
    as_result (agent s') = present (Some "") ∧
    (0 < MAX_AGENT_TURNS →
       as_status (agent s') = AgentStatus.ANALYZING ∨
       as_status (agent s') = AgentStatus.FETCHING) ∧
    as_status (agent s') ≠ AgentStatus.COMPLETE ∧
    ResearchAgent.reset (agent s') = ResearchAgent.initialState ∧
    (∃ blocks, length blocks = MAX_AGENT_TURNS ∧ ups = loop_updates 0 blocks) ∧
    (0 < MAX_AGENT_TURNS →
       u = turnUpdate (MAX_AGENT_TURNS - 1) ∨ ∃ toolCall, u = toolUpdate toolCall) ∧
    turns_through host MAX_AGENT_TURNS 0
      (updateProgress initialUpdate (init_messages task s).2).2 = Some s' ∧
    (∀ turn s0,
        turn_loop MAX_AGENT_TURNS host 0 turn s0
        = (returned {| wr_status := max_turns_reached; wr_turns := MAX_AGENT_TURNS;
                       wr_result := absent |}, s0)).
Proof.
  intros Hrun Hmax.
  destruct (run_trace MAX_AGENT_TURNS host task s) as (msgs & ups & Htrace & _ & Hp & Ha).
  rewrite Hrun in Htrace, Hp, Ha. simpl in Htrace, Hp, Ha.
  destruct (loop_trace_turns _ _ _ _ _ _ Htrace) as [_ Hres].
  destruct (Hres r eq_refl) as [[Hc _]|(_ & Hturns & Hnone & Hn)]; [by rewrite Hmax in Hc|].
  pose proof (loop_trace_updates _ _ _ _ _ _ Htrace) as Hups. simpl in Hups.
  destruct Hups as [[Hc _]|[_ Hall]]; [by rewrite Hmax in Hc|].
  destruct (loop_trace_blocks _ _ _ _ _ _ Htrace Hmax) as (blocks & Hlen & Hblocks).
  assert (Hres' : as_result (agent s') = present (Some "")).
  { rewrite Ha. simpl. by rewrite after_updates_running_result. }
  assert (Hthrough : turns_through host MAX_AGENT_TURNS 0
                       (updateProgress initialUpdate (init_messages task s).2).2
                     = Some s').
  { apply (turns_through_loop MAX_AGENT_TURNS). rewrite <- run_eq, Hrun.
    destruct r as [status turns result]. simpl in *. by subst. }
  destruct (nil_or_snoc ups) as [->|(ups' & u & Hsnoc)].
  - exists [], initialUpdate. rewrite Hp, Ha, last_snoc. simpl.
    assert (MAX_AGENT_TURNS = 0) as HMAX.
    { unfold turns_started in Hn. simpl in Hn. lia. }
    split_and!; try done; try (intros ?; lia).
    by exists blocks.
  - exists ups, u. rewrite Hsnoc in Hall, Hp, Ha.
    assert (Hrun_u : running_phase u).
    { apply Forall_app in Hall as [_ Hu]. by inversion Hu. }
    destruct (after_updates_last (agent s) (initialUpdate :: ups') u) as [Hst Hmsg].
    assert (Hst' : as_status (agent s') = pu_status u) by (by rewrite Ha).
    assert (Hmsg' : as_message (agent s') = pu_message u) by (by rewrite Ha).
    rewrite Hsnoc.
    split_and!; try done.
    + rewrite Hp.
      change (initialUpdate :: ups' ++ [u]) with ((initialUpdate :: ups') ++ [u]).
      by rewrite app_assoc, last_snoc.
    + intros _. rewrite Hst'. apply Hrun_u.
    + rewrite Hst'. destruct Hrun_u as [[-> | ->] _]; done.
    + exists blocks. by rewrite <- Hsnoc.
    + intros _.
      assert (last (loop_updates 0 blocks) = Some u) as Hlast.
      { by rewrite <- Hblocks, Hsnoc, last_snoc. }
      apply loop_updates_last in Hlast as [->|?]; [left|by right].
      f_equal. lia.
Qed.

(** Ten skipped turns. *)
Lemma max_turns_leaves_running_status_witness :
  as_status (agent (run 10 Sample.never_valid "ping" Sample.start).2)
  = AgentStatus.ANALYZING ∨
  as_status (agent (run 10 Sample.never_valid "ping" Sample.start).2)
  = AgentStatus.FETCHING.
Proof.
  destruct (max_turns_leaves_running_status 10 Sample.never_valid "ping" Sample.start
              {| wr_status := max_turns_reached; wr_turns := 10; wr_result := absent |}
              (run 10 Sample.never_valid "ping" Sample.start).2)
    as (ups & u & _ & _ & _ & _ & _ & _ & Hstatus & _).
  - vm_compute. reflexivity.
  - reflexivity.
  - apply Hstatus. lia.
Defined.

(* ================================================================= *)
(** * Beyond the claims *)

(** ** Resuming *)

(** A Run that returned, replayed on an engine holding at least the records
    it left (after a restart, and whatever the host answers now), returns
    the same result with the same transcript and without invoking any
    operation or writing any record. *)
Theorem replay_invokes_nothing MAX_AGENT_TURNS host host' task s r sf t :
  run MAX_AGENT_TURNS host task s = (returned r, sf) →
  llm_records sf ⊆ llm_records t →
  tool_records sf ⊆ tool_records t →
  ∃ t',
    run MAX_AGENT_TURNS host' task t = (returned r, t') ∧
    invoked t' = invoked t ∧
    llm_records t' = llm_records t ∧
    tool_records t' = tool_records t ∧
    messages t' = messages sf.
Proof.
  rewrite !run_eq. intros Hrun Hl Ht.
  destruct (turn_loop_replay MAX_AGENT_TURNS host host' _ _ _ _ _
              (updateProgress initialUpdate (init_messages task t).2).2 Hrun)
    as (t' & Hrun' & (Hi' & Hl' & Ht') & Hm'); [done..|].
  by exists t'.
Qed.

(** Scenario B replayed with the gateway down: same result, same log. *)
Lemma replay_invokes_nothing_witness :
  ∃ t',
    run 10 Sample.gateway_down "ping"
      (run 10 Sample.search_then_done "ping" Sample.start).2
    = (returned {| wr_status := complete; wr_turns := 2;
                   wr_result := present (Some "done") |}, t') ∧
    invoked t' = [llm_key 0; "tool-0-c1"; llm_key 1].
Proof.
  destruct (replay_invokes_nothing 10 Sample.search_then_done Sample.gateway_down "ping"
              Sample.start
              {| wr_status := complete; wr_turns := 2; wr_result := present (Some "done") |}
              (run 10 Sample.search_then_done "ping" Sample.start).2
              (run 10 Sample.search_then_done "ping" Sample.start).2)
    as (t' & Hrun & Hinv & _).
  - vm_compute. reflexivity.
  - reflexivity.
  - reflexivity.
  - exists t'. split; [exact Hrun|]. rewrite Hinv. vm_compute. reflexivity.
Defined.

(** ** Dispatch on parsed arguments *)

(** When the arguments text parses, the tool operation does not throw for
    an unknown name or for arguments that fail the tool's guard: it returns
    ["Unknown tool: <name>"], respectively ["Invalid arguments for <name>"]. *)
Theorem dispatch_returns_strings host toolCall args s :
  JSON_parse host (fn_arguments (tc_function toolCall)) = Some args →
  (fn_name (tc_function toolCall) ≠ "search_repos" →
   fn_name (tc_function toolCall) ≠ "get_repo" →
   tool_operation host toolCall s
   = inr ("Unknown tool: " +:+ fn_name (tc_function toolCall))) ∧
  (fn_name (tc_function toolCall) = "search_repos" →
   isSearchReposInput args = false →
   tool_operation host toolCall s = inr "Invalid arguments for search_repos") ∧
  (fn_name (tc_function toolCall) = "get_repo" →
   isGetRepoInput args = false →
   tool_operation host toolCall s = inr "Invalid arguments for get_repo").
Proof.
  intros Hparse. split_and!.
  - exact (dispatch_unknown_tool host toolCall args s Hparse).
  - exact (dispatch_invalid_search_repos host toolCall args s Hparse).
  - exact (dispatch_invalid_get_repo host toolCall args s Hparse).
Qed.

(** Scenario E of the specification. *)
Lemma dispatch_returns_strings_witness :
  tool_operation Sample.frobnicate (Sample.call "c1" "frobnicate" "{}") Sample.start
  = inr "Unknown tool: frobnicate".
Proof.
  apply (dispatch_returns_strings Sample.frobnicate
           (Sample.call "c1" "frobnicate" "{}") (JObject ∅) Sample.start).
  - reflexivity.
  - discriminate.
  - discriminate.
Defined.

(** ** The scenarios of the specification *)

(** Scenario A. *)
Example scenario_ping_pong :
  (run 10 Sample.pong "ping" Sample.start).1
  = returned {| wr_status := complete; wr_turns := 1; wr_result := present (Some "pong") |}.
Proof. vm_compute. reflexivity. Qed.

(** Scenario B: the transcript holds a tool message for call [c1]. *)
Example scenario_one_tool_call :
  (run 10 Sample.search_then_done "ping" Sample.start).1
  = returned {| wr_status := complete; wr_turns := 2; wr_result := present (Some "done") |}
  ∧
  (λ m, (msg_role m, msg_tool_call_id m))
    <$> messages (run 10 Sample.search_then_done "ping" Sample.start).2
  = [(user, None); (assistant, None); (tool, Some "c1"); (assistant, None)].
Proof. vm_compute. split; reflexivity. Qed.

(** Scenario C: three failed attempts of the LLM step, then the throw. *)
Example scenario_gateway_down :
  (run 10 Sample.gateway_down "ping" Sample.start).1
  = thrown (StepExhausted "llm-turn-0" AIGatewayError)
  ∧
  invoked (run 10 Sample.gateway_down "ping" Sample.start).2
  = ["llm-turn-0"; "llm-turn-0"; "llm-turn-0"].
Proof. vm_compute. split; reflexivity. Qed.

(** Scenario D. *)
Example scenario_never_stops :
  (run 10 Sample.never_valid "ping" Sample.start).1
  = returned {| wr_status := max_turns_reached; wr_turns := 10; wr_result := absent |}.
Proof. vm_compute. reflexivity. Qed.

(** Scenario E: the unknown tool is answered in the transcript and the loop
    goes on to the next turn. *)
Example scenario_unknown_tool :
  (run 10 Sample.frobnicate "ping" Sample.start).1
  = returned {| wr_status := complete; wr_turns := 2; wr_result := present (Some "done") |}
  ∧
  msg_content <$> messages (run 10 Sample.frobnicate "ping" Sample.start).2
  = [Some "ping"; None; Some "Unknown tool: frobnicate"; Some "done"].
Proof. vm_compute. split; reflexivity. Qed.

(** A body [{id, model, choices: [{}]}]: reading [choice.message.content]
    throws, nothing is appended, and the agent keeps showing turn 1. *)
Example scenario_choice_without_message :
  (run 10 Sample.empty_choice "ping" Sample.start).1 = thrown TypeError
  ∧
  msg_content <$> messages (run 10 Sample.empty_choice "ping" Sample.start).2
  = [Some "ping"]
  ∧
  as_status (agent (run 10 Sample.empty_choice "ping" Sample.start).2)
  = AgentStatus.ANALYZING.
Proof. vm_compute. split_and!; reflexivity. Qed.

(* ================================================================= *)
(** * More of the code *)

(** ** Guards, schemas and dispatch *)

Lemma guard_key (v : option json) :
  bool_decide (is_Some v) && is_string v = is_string v.
Proof. by destruct v as [[]|]. Qed.

(** The two guards accept exactly the objects that carry every key their
    tool's schema requires, each with a string, which is the type the schema
    declares for these keys.  An optional key such as [limit] is not looked
    at: whatever stands under it, the guard's answer is the same. *)
Theorem guards_follow_schemas :
  Forall (λ t, Forall (λ key, declares_string (tool_input_schema t) key = true)
                 (is_required (tool_input_schema t))) tools
  ∧
  (∀ value,
      isSearchReposInput value
      = has_required_strings (tool_input_schema searchReposTool) value ∧
      isGetRepoInput value
      = has_required_strings (tool_input_schema getRepoTool) value)
  ∧
  (∀ o key v,
      (key ≠ "query" →
       isSearchReposInput (JObject (<[key := v]> o)) = isSearchReposInput (JObject o)) ∧
      (key ≠ "owner" → key ≠ "repo" →
       isGetRepoInput (JObject (<[key := v]> o)) = isGetRepoInput (JObject o))).
Proof.
  split_and!.
  - repeat constructor.
  - intros [| | | | |o]; try done. simpl. split.
    + by rewrite guard_key, andb_true_r.
    + by destruct (o !! "owner") as [[]|], (o !! "repo") as [[]|].
  - intros o key v. split.
    + intros Hq. simpl. by rewrite lookup_insert_ne.
    + intros Ho Hr. simpl. by rewrite !lookup_insert_ne.
Qed.

Section DispatchMore.
Variable host : Host.

(** A tool's [run] is reached only through its guard. *)
Lemma tool_operation_cases toolCall args s :
  JSON_parse host (fn_arguments (tc_function toolCall)) = Some args →
  let name := fn_name (tc_function toolCall) in
  tool_operation host toolCall s =
  if decide (name = "search_repos") then
    if isSearchReposInput args then
      match searchReposTool_run host (length (invoked s)) args with
      | Some r => inr r
      | None => inl ToolRunError
      end
    else inr ("Invalid arguments for " +:+ name)
  else if decide (name = "get_repo") then
    if isGetRepoInput args then
      match getRepoTool_run host (length (invoked s)) args with
      | Some r => inr r
      | None => inl ToolRunError
      end
    else inr ("Invalid arguments for " +:+ name)
  else inr ("Unknown tool: " +:+ name).
Proof.
  intros Hparse. simpl. unfold tool_operation. rewrite Hparse.
  destruct (decide (fn_name (tc_function toolCall) = "search_repos")) as [->|].
  { by destruct (isSearchReposInput args). }
  destruct (decide (fn_name (tc_function toolCall) = "get_repo")) as [->|]; [|done].
  by destruct (isGetRepoInput args).
Qed.

End DispatchMore.

(** The operation of a tool step depends on the tools only through the
    [run] of the tool it names, applied to arguments that parsed and passed
    that tool's guard: two hosts that parse alike and whose tools agree on
    such arguments give the same outcome, however their tools behave on
    anything else. *)
Theorem run_sees_only_validated_arguments host host' toolCall s :
  JSON_parse host (fn_arguments (tc_function toolCall))
  = JSON_parse host' (fn_arguments (tc_function toolCall)) →
  (∀ args,
      JSON_parse host (fn_arguments (tc_function toolCall)) = Some args →
      fn_name (tc_function toolCall) = "search_repos" →
      isSearchReposInput args = true →
      searchReposTool_run host (length (invoked s)) args
      = searchReposTool_run host' (length (invoked s)) args) →
  (∀ args,
      JSON_parse host (fn_arguments (tc_function toolCall)) = Some args →
      fn_name (tc_function toolCall) = "get_repo" →
      isGetRepoInput args = true →
      getRepoTool_run host (length (invoked s)) args
      = getRepoTool_run host' (length (invoked s)) args) →
  tool_operation host toolCall s = tool_operation host' toolCall s.
Proof.
  intros Hparse Hsearch Hget.
  destruct (JSON_parse host (fn_arguments (tc_function toolCall))) as [args|] eqn:Hp.
  2:{ by rewrite !dispatch_unparseable. }
  rewrite (tool_operation_cases host toolCall args s Hp).
  rewrite (tool_operation_cases host' toolCall args s (eq_sym Hparse)).
  simpl. repeat case_decide; try done.
  - destruct (isSearchReposInput args) eqn:Hg; [|done]. by rewrite Hsearch.
  - destruct (isGetRepoInput args) eqn:Hg; [|done]. by rewrite Hget.
Qed.

(** A name is outside the advertised ones exactly when every parseable
    call under it is answered ["Unknown tool: <name>"], whatever the host. *)
Theorem unknown_iff_not_advertised toolCall :
  fn_name (tc_function toolCall) ∉ advertised ↔
  ∀ host args s,
    JSON_parse host (fn_arguments (tc_function toolCall)) = Some args →
    tool_operation host toolCall s
    = inr ("Unknown tool: " +:+ fn_name (tc_function toolCall)).
Proof.
  assert (Hadv : ∀ name, name ∈ advertised ↔ name = "search_repos" ∨ name = "get_repo").
  { intros name. unfold advertised. simpl. rewrite !elem_of_cons, elem_of_nil. tauto. }
  split.
  - intros Hnot host args s Hparse.
    apply (dispatch_unknown_tool host toolCall args s Hparse);
      intros Heq; apply Hnot, Hadv; tauto.
  - intros Hall Hin.
    specialize (Hall {| JSON_parse := λ _, Some JNull;
                        callAIGateway := λ _ _, None;
                        searchReposTool_run := λ _ _, None;
                        getRepoTool_run := λ _ _, None |} JNull Sample.start eq_refl).
    apply Hadv in Hin as [Hn|Hn]; unfold tool_operation in Hall; simpl in Hall;
      rewrite Hn in Hall; simpl in Hall; discriminate Hall.
Qed.

(** Two hosts that differ only on arguments the guards reject. *)
Lemma run_sees_only_validated_arguments_witness :
  tool_operation Sample.search_then_done (Sample.call "c1" "search_repos" "{}") Sample.start
  = tool_operation
      {| JSON_parse := Sample.parse;
         callAIGateway := λ _ _, None;
         searchReposTool_run := λ _ args, if isSearchReposInput args then Some "[]" else None;
         getRepoTool_run := λ _ args, if isGetRepoInput args then Some "{}" else None |}
      (Sample.call "c1" "search_repos" "{}") Sample.start.
Proof.
  apply run_sees_only_validated_arguments.
  - reflexivity.
  - intros args _ _ Hg. simpl. by rewrite Hg.
  - intros args _ _ Hg. simpl. by rewrite Hg.
Defined.

(** ** A tool step that does not throw *)

(** When the operation of a tool step returns a string at the first attempt
    (the arguments parsed and the tool's [run], if reached, did not throw),
    the step is not retried, the string is recorded under the step's key,
    and it becomes the content of the one tool message appended. *)
Lemma tool_body_returned host turn toolCall s r :
  tool_records s !! tool_key turn toolCall = None →
  tool_operation host toolCall (updateProgress (toolUpdate toolCall) s).2 = inr r →
  ∃ s',
    tool_body host turn toolCall s = (returned (), s') ∧
    messages s' = messages s ++ [toolMessage r toolCall] ∧
    invoked s' = invoked s ++ [tool_key turn toolCall] ∧
    tool_records s' = <[tool_key turn toolCall := r]> (tool_records s) ∧
    llm_records s' = llm_records s ∧
    published s' = published s ++ [toolUpdate toolCall].
Proof.
  intros Hrec Hop. rewrite tool_body_eq. unfold step_do. simpl.
  rewrite Hrec. simpl in Hop. rewrite Hop. by eexists.
Qed.

(** ** [searchReposTool.run] *)

Lemma search_item_None r : search_item r = None ↔ r = JNull.
Proof. unfold search_item. destruct r; simpl; naive_solver. Qed.

Section SearchRepos.
Variable p : Platform.

Lemma search_result_None response :
  search_result p response = None ↔
  items_of response = None ∨ ∃ rs, items_of response = Some rs ∧ JNull ∈ rs.
Proof.
  unfold search_result, items_of.
  destruct (resp_json response) as [data|]; simpl; [|by (split; [left|])].
  destruct data as [| | | | |o]; simpl; try by (split; [left|]).
  destruct (o !! "items") as [[| | | |rs|]|]; simpl; try by (split; [left|]).
  destruct (mapM search_item rs) as [out|] eqn:Hout; simpl.
  - split; [done|]. intros [|(rs' & [= <-] & Hnull)]; [done|].
    assert (is_Some (mapM search_item rs)) as Hsome by eauto.
    apply mapM_is_Some in Hsome.
    rewrite Forall_forall in Hsome. specialize (Hsome JNull Hnull).
    by destruct Hsome.
  - split; [|done]. intros _. right. exists rs. split; [done|].
    apply eq_None_not_Some in Hout. rewrite mapM_is_Some in Hout.
    apply not_Forall_Exists in Hout; [|apply _].
    apply Exists_exists in Hout as (r & Hr & Hnone).
    assert (r = JNull) as <-; [|done].
    apply search_item_None. simpl in Hnone. by apply eq_None_not_Some.
Qed.

Lemma search_url_validated o query :
  o !! "query" = Some (JString query) →
  search_url p (JObject o)
  = (encoded ← encodeURIComponent p query;
     count ← per_page p (o !! "limit");
     Some ("https://api.github.com/search/repositories?q="
           +:+ encoded +:+ "&sort=stars&per_page=" +:+ count)).
Proof. intros Hquery. unfold search_url. simpl. by rewrite Hquery. Qed.

(** [searchReposTool.run] on validated input throws exactly when
    [encodeURIComponent] throws on the query, or the conversion of [limit]
    to text throws, or [fetch] rejects, or the answer is 2xx and its body is
    not JSON, has no array under [items], or has [null] among the items.
    The first two are the cases in which no URL is built.  An answer outside
    2xx never throws: it yields ["Search failed: <status>"] whatever its
    body. *)
Theorem search_repos_run_errors i o query :
  o !! "query" = Some (JString query) →
  (search_repos_run p i (JObject o) = None ↔
   encodeURIComponent p query = None ∨
   per_page p (o !! "limit") = None ∨
   ∃ url,
     search_url p (JObject o) = Some url ∧
     (fetch p i url github_headers = None ∨
      ∃ response,
        fetch p i url github_headers = Some response ∧ resp_ok response = true ∧
        (items_of response = None ∨ ∃ rs, items_of response = Some rs ∧ JNull ∈ rs)))
  ∧
  (search_url p (JObject o) = None ↔
   encodeURIComponent p query = None ∨ per_page p (o !! "limit") = None)
  ∧
  (∀ url response,
      search_url p (JObject o) = Some url →
      fetch p i url github_headers = Some response →
      resp_ok response = false →
      search_repos_run p i (JObject o)
      = Some ("Search failed: " +:+ pretty (resp_status response))).
Proof.
  intros Hquery.
  assert (search_url p (JObject o) = None ↔
          encodeURIComponent p query = None ∨ per_page p (o !! "limit") = None)
    as Hnone.
  { rewrite (search_url_validated o query Hquery).
    destruct (encodeURIComponent p query) as [encoded|]; simpl; [|by split; [left|]].
    destruct (per_page p (o !! "limit")) as [count|]; simpl; [|by split; [right|]].
    split; [done|]. by intros [|]. }
  split_and!; [|done|].
  - unfold search_repos_run.
    destruct (search_url p (JObject o)) as [url|] eqn:Hurl; simpl.
    2:{ split; [|done]. intros _.
        destruct (proj1 Hnone eq_refl) as [?|?]; [by left|by right; left]. }
    assert (¬ (encodeURIComponent p query = None ∨ per_page p (o !! "limit") = None))
      as Hbuilt.
    { intros Hor. by apply Hnone in Hor. }
    destruct (fetch p i url github_headers) as [response|] eqn:Hfetch; simpl.
    2:{ split; [|done]. intros _. right; right. exists url. split; [done|by left]. }
    destruct (resp_ok response) eqn:Hok; simpl.
    + rewrite search_result_None. split.
      * intros H. right; right. exists url. split; [done|]. right. by exists response.
      * intros [?|[?|(url' & [= <-] & [Hf|(response' & Hf & _ & H)])]];
          [by destruct Hbuilt; left|by destruct Hbuilt; right|congruence|].
        rewrite Hfetch in Hf. by injection Hf as <-.
    + split; [done|].
      intros [?|[?|(url' & [= <-] & [Hf|(response' & Hf & Hok' & _)])]];
        [by destruct Hbuilt; left|by destruct Hbuilt; right|congruence|].
      rewrite Hfetch in Hf. injection Hf as <-. congruence.
  - intros url response Hurl Hfetch Hok. unfold search_repos_run.
    rewrite Hurl. simpl. rewrite Hfetch. simpl. by rewrite Hok.
Qed.

End SearchRepos.

Lemma search_repos_run_errors_witness :
  search_repos_run GitHub.rate_limited 0 GitHub.query_x = Some "Search failed: 403".
Proof.
  exact (proj2 (proj2 (search_repos_run_errors GitHub.rate_limited 0
                         {[ "query" := JString "x" ]} "x" eq_refl))
           _ {| resp_status := 403; resp_json := None |} eq_refl eq_refl eq_refl).
Defined.

Lemma literal_fields_lookup fields key :
  NoDup fields.*1 →
  literal_fields fields !! key
  = mjoin (list_to_map (M := gmap string (option json)) fields !! key).
Proof.
  unfold literal_fields. induction fields as [|[k v] fields IH]; simpl.
  - intros _. by rewrite !lookup_empty.
  - intros [Hk Hnd]%NoDup_cons. specialize (IH Hnd).
    destruct (decide (k = key)) as [->|Hne].
    + rewrite lookup_insert_eq. destruct v as [v|]; simpl.
      * by rewrite lookup_insert_eq.
      * etrans; [apply IH|]. apply not_elem_of_list_to_map_1 in Hk.
        by rewrite Hk.
    + rewrite lookup_insert_ne by done. destruct v as [v|]; simpl.
      * by rewrite lookup_insert_ne.
      * apply IH.
Qed.

Section SearchResult.
Variable p : Platform.

(** When the GitHub search answers 2xx with an array of items that holds no
    [null], [searchReposTool.run] returns the serialisation of an array with
    one object per item, in the order of the items; each object carries the
    item's [full_name] as [name] and its [stargazers_count] as [stars] (a key
    is missing when the item has none) and nothing else. *)
Theorem search_repos_run_result i input url response rs :
  search_url p input = Some url →
  fetch p i url github_headers = Some response →
  resp_ok response = true →
  items_of response = Some rs →
  JNull ∉ rs →
  ∃ out,
    search_repos_run p i input = Some (JSON_stringify p (JArray out)) ∧
    length out = length rs ∧
    ∀ k item, rs !! k = Some item →
      ∃ o, out !! k = Some (JObject o) ∧
           o !! "name" = read item "full_name" ∧
           o !! "stars" = read item "stargazers_count" ∧
           ∀ key, key ≠ "name" → key ≠ "stars" → o !! key = None.
Proof.
  intros Hurl Hfetch Hok Hitems Hnull.
  unfold search_repos_run. rewrite Hurl. simpl. rewrite Hfetch. simpl.
  rewrite Hok. simpl.
  destruct (search_result p response) as [text|] eqn:Hres.
  2:{ apply search_result_None in Hres as [Hres|(rs' & Hres & Hin)]; [congruence|].
      rewrite Hitems in Hres. by injection Hres as <-. }
  unfold search_result in Hres. unfold items_of in Hitems.
  destruct (resp_json response) as [data|]; [|done]. simpl in Hres, Hitems.
  destruct data as [| | | | |body]; try done. simpl in Hres, Hitems.
  destruct (body !! "items") as [[| | | |rs'|]|]; try done.
  injection Hitems as ->. simpl in Hres.
  destruct (mapM search_item rs) as [out|] eqn:Hout; [|done].
  injection Hres as <-. exists out. split; [done|].
  apply mapM_Some in Hout. split; [symmetry; by eapply Forall2_length|].
  intros k item Hk.
  destruct (Forall2_lookup_l _ _ _ _ _ Hout Hk) as (y & Hy & Hitem).
  assert (item ≠ JNull) as Hne.
  { intros ->. apply Hnull. apply list_elem_of_lookup; by exists k. }
  assert (∃ full_name stargazers_count,
            search_item item
            = Some (object_literal [("name", full_name); ("stars", stargazers_count)]) ∧
            read item "full_name" = full_name ∧
            read item "stargazers_count" = stargazers_count)
    as (full_name & stargazers_count & Hshape & <- & <-).
  { destruct item; [done|..]; by eexists _, _. }
  rewrite Hshape in Hitem. injection Hitem as <-.
  eexists. split; [done|].
  assert (NoDup [("name", read item "full_name");
                 ("stars", read item "stargazers_count")].*1) as Hnd.
  { by apply (bool_decide_unpack _). }
  split_and!.
  - by rewrite literal_fields_lookup.
  - by rewrite literal_fields_lookup.
  - intros key H1 H2. rewrite literal_fields_lookup by done. simpl.
    by rewrite !lookup_insert_ne, lookup_empty.
Qed.

End SearchResult.

Lemma search_repos_run_result_witness :
  ∃ out,
    search_repos_run GitHub.two_results 0 GitHub.query_x
    = Some (JSON_stringify GitHub.two_results (JArray out)) ∧
    length out = 2.
Proof.
  destruct (search_repos_run_result GitHub.two_results 0 GitHub.query_x _ _ _
              eq_refl eq_refl eq_refl eq_refl) as (out & Hrun & Hlen & _).
  - intros Hin. by repeat (apply elem_of_cons in Hin as [|Hin]; [done|]);
      apply elem_of_nil in Hin.
  - by exists out.
Defined.

(** ** [getRepoTool.run] *)

Lemma license_name_cases license :
  license_name license ≠ JNull ∧
  (license_name license = JString "None" ∨
   ∃ fields, license = Some (JObject fields) ∧
             fields !! "name" = Some (license_name license)).
Proof.
  destruct license as [[| | | | |fields]|]; simpl; try by (split; [|left]).
  destruct (fields !! "name") as [[]|] eqn:Hname; simpl;
    first [by (split; [|left]) | by (split; [|right; eexists])].
Qed.

Section GetRepo.
Variable p : Platform.

(** On validated input [getRepoTool.run] asks for
    [https://api.github.com/repos/<owner>/<repo>], both parts as they came.
    Whatever the status of an answer outside 2xx, the result is
    ["Repo not found: <owner>/<repo>"]; the call throws exactly when [fetch]
    rejects or a 2xx answer has a body that is not JSON or is [null]. *)
Theorem get_repo_run_errors i o owner repo :
  o !! "owner" = Some (JString owner) →
  o !! "repo" = Some (JString repo) →
  let url := "https://api.github.com/repos/" +:+ owner +:+ "/" +:+ repo in
  isGetRepoInput (JObject o) = true ∧
  repo_url p (JObject o) = Some url ∧
  (∀ response,
      fetch p i url github_headers = Some response →
      resp_ok response = false →
      get_repo_run p i (JObject o)
      = Some ("Repo not found: " +:+ owner +:+ "/" +:+ repo)) ∧
  (get_repo_run p i (JObject o) = None ↔
   fetch p i url github_headers = None ∨
   ∃ response,
     fetch p i url github_headers = Some response ∧ resp_ok response = true ∧
     (resp_json response = None ∨ resp_json response = Some JNull)).
Proof.
  intros Howner Hrepo url.
  assert (owner_repo p (JObject o) = Some (owner +:+ "/" +:+ repo)) as Hpath.
  { unfold owner_repo. simpl. by rewrite Howner, Hrepo. }
  assert (repo_url p (JObject o) = Some url) as Hurl.
  { unfold repo_url. by rewrite Hpath. }
  split_and!; [simpl; by rewrite Howner, Hrepo|done|..];
    unfold get_repo_run; rewrite Hurl, Hpath; simpl.
  - intros response Hfetch Hok. rewrite Hfetch. simpl. by rewrite Hok.
  - destruct (fetch p i url github_headers) as [response|]; simpl.
    2:{ split; [by left|done]. }
    destruct (resp_ok response) eqn:Hok; simpl.
    2:{ split; [done|]. intros [|(response' & [= <-] & ? & _)]; [done|congruence]. }
    destruct (resp_json response) as [[| | | | |body]|] eqn:Hjson; simpl.
    all: split;
      [try done; intros _; right; exists response; by eauto
      |try done; intros [|(response' & [= <-] & _ & [|])]; congruence].
Qed.

(** A 2xx answer whose body is JSON and not [null] gives the serialisation
    of one object.  It has at most the eight keys of the literal; seven are
    copied from their field of the body and are missing when the field is;
    [license] is always there and never [null]: it is the [name] of the
    body's [license] object, or ["None"] when there is no such name. *)
Theorem get_repo_run_result i input url response data :
  repo_url p input = Some url →
  fetch p i url github_headers = Some response →
  resp_ok response = true →
  resp_json response = Some data →
  data ≠ JNull →
  ∃ o license,
    get_repo_run p i input = Some (JSON_stringify p (JObject o)) ∧
    (∀ key field, (key, field) ∈ copied_fields → o !! key = read data field) ∧
    o !! "license" = Some license ∧
    license ≠ JNull ∧
    (license = JString "None" ∨
     ∃ fields, read data "license" = Some (JObject fields) ∧
               fields !! "name" = Some license) ∧
    (∀ key, key ≠ "license" → key ∉ copied_fields.*1 → o !! key = None).
Proof.
  intros Hurl Hfetch Hok Hjson Hdata.
  set (fields := [("name", read data "full_name");
                  ("description", read data "description");
                  ("stars", read data "stargazers_count");
                  ("forks", read data "forks_count");
                  ("issues", read data "open_issues_count");
                  ("language", read data "language");
                  ("license", Some (license_name (read data "license")));
                  ("updated", read data "updated_at")]).
  assert (get_repo_run p i input = Some (JSON_stringify p (object_literal fields)))
    as Hrun.
  { unfold get_repo_run. rewrite Hurl. simpl. rewrite Hfetch. simpl.
    rewrite Hok. simpl. rewrite Hjson. simpl. by destruct data. }
  assert (NoDup fields.*1) as Hnd by by apply (bool_decide_unpack _).
  exists (literal_fields fields), (license_name (read data "license")).
  destruct (license_name_cases (read data "license")) as [Hnull Hcases].
  split_and!; try done.
  - intros key field Hin. rewrite literal_fields_lookup by done.
    unfold copied_fields in Hin.
    repeat (apply elem_of_cons in Hin as [[= -> ->]|Hin]; [done|]).
    by apply elem_of_nil in Hin.
  - by rewrite literal_fields_lookup.
  - intros key Hl Hin. rewrite literal_fields_lookup by done.
    unfold fields. simpl in *.
    rewrite !not_elem_of_cons in Hin. destruct Hin as (?&?&?&?&?&?&?&_).
    by rewrite !lookup_insert_ne, lookup_empty.
Qed.

End GetRepo.

Lemma get_repo_run_errors_witness :
  get_repo_run GitHub.rate_limited 0 GitHub.a_b = Some "Repo not found: a/b".
Proof.
  exact (proj1 (proj2 (proj2
           (get_repo_run_errors GitHub.rate_limited 0
              (<[ "owner" := JString "a" ]> {[ "repo" := JString "b" ]}) "a" "b"
              eq_refl eq_refl)))
           {| resp_status := 403; resp_json := None |} eq_refl eq_refl).
Defined.

Lemma get_repo_run_result_witness :
  ∃ o,
    get_repo_run GitHub.unlicensed 0 GitHub.a_b
    = Some (JSON_stringify GitHub.unlicensed (JObject o)) ∧
    o !! "license" = Some (JString "None").
Proof.
  destruct (get_repo_run_result GitHub.unlicensed 0 GitHub.a_b _ _ _
              eq_refl eq_refl eq_refl eq_refl)
    as (o & license & Hrun & _ & Hlic & _ & Hcases & _); [done|].
  exists o. split; [done|]. rewrite Hlic. f_equal.
  destruct Hcases as [|(fields & Hread & _)]; [done|].
  by vm_compute in Hread.
Defined.

(** ** An HTTP failure inside a tool step *)

Section HttpFailure.
Variable parse : string → option json.
Variable gateway : nat → ChatCompletionRequest → option unknown.
Variable p : Platform.

(** With the tools run over HTTP, an answer outside 2xx is no failure of the
    tool step: the first attempt returns the failure text, so the step is
    not retried, the text is recorded under the step's key and it is the
    content of the tool message the model gets. *)
Theorem http_failure_is_checkpointed turn toolCall s o :
  parse (fn_arguments (tc_function toolCall)) = Some (JObject o) →
  tool_records s !! tool_key turn toolCall = None →
  let host := tools_host parse gateway p in
  let settled text s' :=
    tool_body host turn toolCall s = (returned (), s') ∧
    messages s' = messages s ++ [toolMessage text toolCall] ∧
    invoked s' = invoked s ++ [tool_key turn toolCall] ∧
    tool_records s' = <[tool_key turn toolCall := text]> (tool_records s) in
  (∀ query url response,
      fn_name (tc_function toolCall) = "search_repos" →
      o !! "query" = Some (JString query) →
      search_url p (JObject o) = Some url →
      fetch p (length (invoked s)) url github_headers = Some response →
      resp_ok response = false →
      ∃ s', settled ("Search failed: " +:+ pretty (resp_status response)) s')
  ∧
  (∀ owner repo response,
      fn_name (tc_function toolCall) = "get_repo" →
      o !! "owner" = Some (JString owner) →
      o !! "repo" = Some (JString repo) →
      fetch p (length (invoked s))
        ("https://api.github.com/repos/" +:+ owner +:+ "/" +:+ repo)
        github_headers = Some response →
      resp_ok response = false →
      ∃ s', settled ("Repo not found: " +:+ owner +:+ "/" +:+ repo) s').
Proof.
  intros Hparse Hrec host settled. split.
  - intros query url response Hname Hquery Hurl Hfetch Hok.
    destruct (tool_body_returned host turn toolCall s
                ("Search failed: " +:+ pretty (resp_status response)) Hrec)
      as (s' & ? & ? & ? & ? & _); [|by exists s'].
    rewrite (tool_operation_cases host toolCall (JObject o) _ Hparse).
    simpl. rewrite Hname. simpl. rewrite Hquery. simpl.
    unfold search_repos_run. rewrite Hurl. simpl. rewrite Hfetch. simpl.
    by rewrite Hok.
  - intros owner repo response Hname Howner Hrepo Hfetch Hok.
    destruct (tool_body_returned host turn toolCall s
                ("Repo not found: " +:+ owner +:+ "/" +:+ repo) Hrec)
      as (s' & ? & ? & ? & ? & _); [|by exists s'].
    rewrite (tool_operation_cases host toolCall (JObject o) _ Hparse).
    simpl. rewrite Hname. simpl. rewrite Howner, Hrepo. simpl.
    assert (owner_repo p (JObject o) = Some (owner +:+ "/" +:+ repo)) as Hpath.
    { unfold owner_repo. simpl. by rewrite Howner, Hrepo. }
    unfold get_repo_run, repo_url. rewrite Hpath. simpl.
    rewrite Hfetch. simpl. by rewrite Hok.
Qed.

End HttpFailure.

Lemma http_failure_is_checkpointed_witness :
  ∃ s',
    tool_body (tools_host Sample.parse (λ _ _, None) GitHub.rate_limited) 0
      (Sample.call "c1" "search_repos" Sample.query_x) Sample.start
    = (returned (), s') ∧
    messages s'
    = messages Sample.start
      ++ [toolMessage "Search failed: 403" (Sample.call "c1" "search_repos" Sample.query_x)].
Proof.
  destruct (proj1 (http_failure_is_checkpointed Sample.parse (λ _ _, None)
                     GitHub.rate_limited 0
                     (Sample.call "c1" "search_repos" Sample.query_x) Sample.start
                     {[ "query" := JString "x" ]} eq_refl eq_refl)
              "x" _ {| resp_status := 403; resp_json := None |}
              eq_refl eq_refl eq_refl eq_refl eq_refl)
    as (s' & Hbody & Hmsgs & _).
  by exists s'.
Defined.

(** ** What the agent shows while a Run is going *)

(** From the initial update on and until the completion update, if there is
    one, the agent shows no result (the empty string the initial update
    wrote) and one of the statuses ["searching"], ["analyzing"] and
    ["fetching"]: never ["idle"], ["error"] or ["complete"].  Only the
    completion update, the last one of a Run that returns [complete],
    changes that. *)
Theorem no_result_before_completion MAX_AGENT_TURNS host task s :
  ∃ ups,
    published (run MAX_AGENT_TURNS host task s).2 = published s ++ initialUpdate :: ups ∧
    ∀ pre post,
      ups = pre ++ post →
      (post ≠ [] ∨
       ∀ r, (run MAX_AGENT_TURNS host task s).1 = returned r → wr_status r ≠ complete) →
      let shown := after_updates (agent s) (initialUpdate :: pre) in
      as_result shown = present (Some "") ∧
      (as_status shown = AgentStatus.SEARCHING ∨
       as_status shown = AgentStatus.ANALYZING ∨
       as_status shown = AgentStatus.FETCHING).
Proof.
  destruct (run_trace MAX_AGENT_TURNS host task s) as (msgs & ups & Htrace & _ & Hp & _).
  exists ups. split; [done|]. intros pre post Hsplit Hlast shown.
  assert (Forall running_phase pre) as Hpre.
  { apply loop_trace_updates in Htrace.
    destruct ((run MAX_AGENT_TURNS host task s).1) as [r|e].
    - destruct Htrace as [(Hc & ups' & choice & Hups & Hrun)|[_ Hrun]].
      + destruct Hlast as [Hpost|Hnot]; [|by destruct (Hnot r eq_refl)].
        destruct (nil_or_snoc post) as [->|(post' & u & ->)]; [done|].
        rewrite Hups, app_assoc in Hsplit.
        apply app_inj_tail in Hsplit as [-> _].
        by apply Forall_app in Hrun as [? _].
      + rewrite Hsplit in Hrun. by apply Forall_app in Hrun as [? _].
    - destruct Htrace as [Hrun _].
      rewrite Hsplit in Hrun. by apply Forall_app in Hrun as [? _]. }
  split.
  - subst shown. simpl. by rewrite after_updates_running_result.
  - destruct (nil_or_snoc pre) as [->|(pre' & u & ->)]; [by left|].
    destruct (after_updates_last (agent s) (initialUpdate :: pre') u) as [Hst _].
    subst shown. change (initialUpdate :: pre' ++ [u]) with ((initialUpdate :: pre') ++ [u]).
    rewrite Hst. apply Forall_app in Hpre as [_ Hu].
    inversion Hu as [|? ? [[?|?] _]]; tauto.
Qed.

(** ** Attempts are paid for by updates *)

Lemma gateway_attempts_app log log' :
  gateway_attempts (log ++ log') = gateway_attempts log + gateway_attempts log'.
Proof. unfold gateway_attempts. by rewrite filter_app, length_app. Qed.

Lemma tool_attempts_app log log' :
  tool_attempts (log ++ log') = tool_attempts log + tool_attempts log'.
Proof. unfold tool_attempts. by rewrite filter_app, length_app. Qed.

Lemma tools_started_app ups ups' :
  tools_started (ups ++ ups') = tools_started ups + tools_started ups'.
Proof. unfold tools_started. by rewrite filter_app, length_app. Qed.

Lemma llm_key_prefix turn :
  String.prefix "llm-turn-" (llm_key turn) = true ∧
  String.prefix "tool-" (llm_key turn) ≠ true.
Proof. unfold llm_key. by destruct (pretty turn). Qed.

Lemma tool_key_prefix turn toolCall :
  String.prefix "llm-turn-" (tool_key turn toolCall) ≠ true ∧
  String.prefix "tool-" (tool_key turn toolCall) = true.
Proof.
  unfold tool_key. by destruct (pretty turn +:+ "-" +:+ tc_id toolCall).
Qed.

Lemma attempts_replicate_llm k turn :
  gateway_attempts (replicate k (llm_key turn)) = k ∧
  tool_attempts (replicate k (llm_key turn)) = 0.
Proof.
  unfold gateway_attempts, tool_attempts.
  induction k as [|k [IH1 IH2]]; [done|]. simpl.
  rewrite filter_cons_True by apply llm_key_prefix.
  rewrite filter_cons_False by apply llm_key_prefix.
  simpl. by rewrite IH1, IH2.
Qed.

Lemma attempts_replicate_tool k turn toolCall :
  gateway_attempts (replicate k (tool_key turn toolCall)) = 0 ∧
  tool_attempts (replicate k (tool_key turn toolCall)) = k.
Proof.
  unfold gateway_attempts, tool_attempts.
  induction k as [|k [IH1 IH2]]; [done|]. simpl.
  rewrite filter_cons_False by apply tool_key_prefix.
  rewrite filter_cons_True by apply tool_key_prefix.
  simpl. by rewrite IH1, IH2.
Qed.

Section Attempts.
Context {T : Type} `{!Payload T}.

Lemma retry_attempts n key (operation : Operation (T := T)) e s :
  ∃ k, k ≤ n ∧ invoked (retry n key operation e s).2 = invoked s ++ replicate k key.
Proof.
  revert e s. induction n as [|n IH]; intros e s; simpl.
  - exists 0. by rewrite app_nil_r.
  - destruct (operation s) as [e'|r]; simpl.
    + destruct (IH e' (log_attempt key s)) as (k & Hk & ->).
      exists (S k). split; [lia|]. simpl. by rewrite <- app_assoc.
    + exists 1. split; [lia|done].
Qed.

(** A step makes at most [limit] attempts (one when [limit] is 0), all
    logged under its key. *)
Lemma step_do_attempts key config (operation : Operation (T := T)) s :
  ∃ k, k ≤ limit config `max` 1 ∧
       invoked (step_do key config operation s).2 = invoked s ++ replicate k key.
Proof.
  unfold step_do. destruct (records s !! key) as [r|].
  { exists 0. split; [lia|]. simpl. by rewrite app_nil_r. }
  destruct (operation s) as [e|r]; simpl.
  - destruct (retry_attempts (limit config - 1) key operation e (log_attempt key s))
      as (k & Hk & Hinv).
    exists (S k). split; [lia|].
    destruct (retry _ _ _ _ _) as [[e'|r] s1]; simpl in *.
    + rewrite Hinv. by rewrite <- app_assoc.
    + rewrite invoked_with_records, Hinv. by rewrite <- app_assoc.
  - exists 1. split; [lia|]. by rewrite invoked_with_records.
Qed.

End Attempts.

Lemma budget_refl s : within_budget s s.
Proof. exists [], []. by rewrite !app_nil_r. Qed.

Lemma budget_trans s1 s2 s3 :
  within_budget s1 s2 → within_budget s2 s3 → within_budget s1 s3.
Proof.
  intros (log & ups & Hi & Hp & Hg & Ht & Hl) (log' & ups' & Hi' & Hp' & Hg' & Ht' & Hl').
  exists (log ++ log'), (ups ++ ups').
  rewrite Hi', Hi, Hp', Hp, !app_assoc, gateway_attempts_app, tool_attempts_app,
    turns_started_app, tools_started_app, length_app.
  split_and!; [done|done|lia..].
Qed.

Lemma budget_same s s' :
  invoked s' = invoked s → published s' = published s → within_budget s s'.
Proof. intros Hi Hp. exists [], []. by rewrite Hi, Hp, !app_nil_r. Qed.

Lemma budget_update u s :
  within_budget s (updateProgress u s).2.
Proof.
  exists [], [u]. simpl. rewrite app_nil_r.
  split_and!; [done|done|..]; unfold gateway_attempts, tool_attempts; simpl; lia.
Qed.

Section Budget.
Variable MAX_AGENT_TURNS : nat.
Variable host : Host.

Lemma budget_llm_step turn s :
  within_budget s (llm_step host turn s).2.
Proof.
  rewrite llm_step_eq.
  destruct (llm_step_do_view (llm_key turn) llm_retries (llm_operation host)
              (updateProgress (turnUpdate turn) s).2) as (_ & _ & Hp).
  destruct (step_do_attempts (T := unknown) (llm_key turn) llm_retries
              (llm_operation host) (updateProgress (turnUpdate turn) s).2)
    as (k & Hk & Hi).
  destruct (attempts_replicate_llm k turn) as [Hg Ht].
  exists (replicate k (llm_key turn)), [turnUpdate turn].
  rewrite Hi, Hp, Hg, Ht, length_replicate.
  change (turns_started [turnUpdate turn]) with 1.
  change (tools_started [turnUpdate turn]) with 0.
  simpl in *. split_and!; [done|done|lia..].
Qed.

Lemma budget_tool_body turn toolCall s :
  within_budget s (tool_body host turn toolCall s).2.
Proof.
  rewrite tool_body_eq.
  destruct (tool_step_do_view (tool_key turn toolCall) tool_retries
              (tool_operation host toolCall)
              (updateProgress (toolUpdate toolCall) s).2) as (_ & _ & Hp).
  destruct (step_do_attempts (T := string) (tool_key turn toolCall) tool_retries
              (tool_operation host toolCall) (updateProgress (toolUpdate toolCall) s).2)
    as (k & Hk & Hi).
  destruct (attempts_replicate_tool k turn toolCall) as [Hg Ht].
  assert (within_budget s
            (step_do (tool_key turn toolCall) tool_retries (tool_operation host toolCall)
               (updateProgress (toolUpdate toolCall) s).2).2) as Hstep.
  { exists (replicate k (tool_key turn toolCall)), [toolUpdate toolCall].
    rewrite Hi, Hp, Hg, Ht, length_replicate.
    change (turns_started [toolUpdate toolCall]) with 0.
    change (tools_started [toolUpdate toolCall]) with 1.
    simpl in *. split_and!; [done|done|lia..]. }
  destruct (step_do _ _ _ _) as [[toolResult|e] s2]; [|done].
  eapply budget_trans; [exact Hstep|]. by apply budget_same.
Qed.

Lemma budget_for_of turn toolCalls s :
  within_budget s (for_of toolCalls (tool_body host turn) s).2.
Proof.
  revert s. induction toolCalls as [|toolCall rest IH]; intros s; simpl.
  - apply budget_refl.
  - rewrite bind_eq. pose proof (budget_tool_body turn toolCall s) as Hbody.
    destruct (tool_body host turn toolCall s) as [[[]|e] s1]; [|done].
    eapply budget_trans; [exact Hbody|apply IH].
Qed.

Lemma budget_turn_body turn s :
  within_budget s (turn_body host turn s).2.
Proof.
  unfold turn_body. rewrite bind_eq.
  pose proof (budget_llm_step turn s) as Hllm.
  destruct (llm_step host turn s) as [[v|e] s1]; cbn [snd] in Hllm; [|done].
  destruct (isChatCompletionResponse v); cbn [negb]; [|done].
  destruct (choices v) as [|[[choice| |choice]|] rest]; simpl; [done| |done| |done].
  - rewrite bind_eq.
    assert (within_budget s (push (assistantMessage choice) s1).2) as Hs2.
    { eapply budget_trans; [exact Hllm|]. by apply budget_same. }
    destruct (push (assistantMessage choice) s1) as [[[]|e] s2] eqn:Hpush; [|done].
    cbn [snd] in Hs2.
    destruct (is_done choice).
    { rewrite bind_eq. eapply budget_trans; [exact Hs2|].
      apply (budget_update (completeUpdate choice) s2). }
    destruct (cm_tool_calls (ch_message choice)) as [toolCalls|]; [|done].
    rewrite bind_eq. pose proof (budget_for_of turn toolCalls s2) as Hfor.
    eapply budget_trans; [exact Hs2|].
    by destruct (for_of toolCalls (tool_body host turn) s2) as [[[]|e] s3].
  - rewrite bind_eq.
    assert (within_budget s (push (assistantMessage choice) s1).2) as Hs2.
    { eapply budget_trans; [exact Hllm|]. by apply budget_same. }
    destruct (push (assistantMessage choice) s1) as [[[]|e] s2] eqn:Hpush; [|done].
    cbn [snd] in Hs2.
    destruct (ch_finish_reason choice).
    { rewrite bind_eq. eapply budget_trans; [exact Hs2|].
      apply (budget_update (completeUpdate choice) s2). }
    all: rewrite bind_eq;
      pose proof (budget_for_of turn (default [] (cm_tool_calls (ch_message choice))) s2)
        as Hfor;
      (eapply budget_trans; [exact Hs2|]);
      by destruct (for_of (default [] (cm_tool_calls (ch_message choice)))
                     (tool_body host turn) s2) as [[[]|e] s3].
Qed.

Lemma budget_turn_loop n turn s :
  within_budget s (turn_loop MAX_AGENT_TURNS host n turn s).2.
Proof.
  revert turn s. induction n as [|n IH]; intros turn s.
  - apply budget_refl.
  - simpl. rewrite bind_eq. pose proof (budget_turn_body turn s) as Hbody.
    destruct (turn_body host turn s) as [[[|r]|e] s1]; simpl in *; [|done..].
    eapply budget_trans; [exact Hbody|apply IH].
Qed.

End Budget.

(** Whatever the host does, a Run makes at most three attempts of the LLM
    step per turn it starts, so at most [3 * MAX_AGENT_TURNS] calls of the
    gateway, and at most two attempts per tool call it starts; nothing else
    runs inside a step.  The bounds are those of the step executor as the
    specification describes it ([limit] is the number of attempts). *)
Theorem attempts_bounded MAX_AGENT_TURNS host task s :
  ∃ log ups,
    invoked (run MAX_AGENT_TURNS host task s).2 = invoked s ++ log ∧
    published (run MAX_AGENT_TURNS host task s).2 = published s ++ initialUpdate :: ups ∧
    gateway_attempts log ≤ 3 * turns_started ups ∧
    turns_started ups ≤ MAX_AGENT_TURNS ∧
    tool_attempts log ≤ 2 * tools_started ups ∧
    length log = gateway_attempts log + tool_attempts log.
Proof.
  destruct (run_trace MAX_AGENT_TURNS host task s) as (msgs & ups & Htrace & _ & Hp & _).
  apply loop_trace_turns in Htrace as [Hle _].
  assert (within_budget s (run MAX_AGENT_TURNS host task s).2)
    as (log & ups' & Hi & Hp' & Hg & Ht & Hl).
  { rewrite run_eq. eapply budget_trans; [|apply budget_turn_loop].
    eapply budget_trans; [|apply budget_update]. by apply budget_same. }
  rewrite Hp in Hp'. apply app_inv_head in Hp' as <-.
  exists log, ups. split_and!; try done.
Qed.

(** ** Step keys *)

Lemma append_cons c s t : String c s +:+ t = String c (s +:+ t).
Proof. reflexivity. Qed.

Lemma append_empty t : "" +:+ t = t.
Proof. reflexivity. Qed.

Lemma pretty_N_char_digit x : App.is_digit (pretty_N_char x) = true.
Proof. unfold pretty_N_char. by repeat case_match. Qed.

Lemma pretty_N_go_digits x s :
  App.digits_only s = true → App.digits_only (pretty_N_go x s) = true.
Proof.
  revert s. induction (N.lt_wf_0 x) as [x _ IH]; intros s Hs.
  destruct (decide (x = 0)%N) as [->|Hx].
  - by rewrite pretty_N_go_0.
  - rewrite pretty_N_go_step by lia. apply IH.
    + apply N.div_lt; lia.
    + simpl. by rewrite pretty_N_char_digit.
Qed.

Lemma pretty_nat_digits (n : nat) : App.digits_only (pretty n) = true.
Proof.
  unfold pretty, pretty_nat, pretty, pretty_N.
  case_decide; [done|]. by apply pretty_N_go_digits.
Qed.

(** Digits, a dash and a rest split in one way only. *)
Lemma digits_dash_split d d' x x' :
  App.digits_only d = true → App.digits_only d' = true →
  d +:+ "-" +:+ x = d' +:+ "-" +:+ x' → d = d' ∧ x = x'.
Proof.
  revert d'. induction d as [|c d IH]; intros [|c' d'];
    rewrite ?append_cons, ?append_empty; simpl.
  - intros _ _ [= ->]. done.
  - intros _ [Hc _]%andb_true_iff [= <- _]. done.
  - intros [Hc _]%andb_true_iff _ [= -> _]. done.
  - intros [_ Hd]%andb_true_iff [_ Hd']%andb_true_iff [= -> Heq].
    destruct (IH d' Hd Hd' Heq) as [-> ->]. done.
Qed.

(** The keys of the steps of a Run: two LLM steps share a key only when they
    are of the same turn, an LLM step never shares one with a tool step, and
    two tool steps share a key exactly when they are of the same turn and
    their tool calls have the same id. *)
Theorem step_keys_collide_only_on_ids :
  (∀ turn turn', llm_key turn = llm_key turn' → turn = turn') ∧
  (∀ turn turn' toolCall, llm_key turn ≠ tool_key turn' toolCall) ∧
  (∀ turn turn' toolCall toolCall',
      tool_key turn toolCall = tool_key turn' toolCall' ↔
      turn = turn' ∧ tc_id toolCall = tc_id toolCall').
Proof.
  split_and!.
  - intros turn turn'. unfold llm_key. intros Heq.
    apply (inj (String.append "llm-turn-")) in Heq. by apply (inj pretty) in Heq.
  - intros turn turn' toolCall. unfold llm_key, tool_key. discriminate.
  - intros turn turn' toolCall toolCall'. unfold tool_key. split.
    + intros Heq. apply (inj (String.append "tool-")) in Heq.
      apply digits_dash_split in Heq as [Ht Hid]; [|apply pretty_nat_digits..].
      split; [by apply (inj pretty) in Ht|done].
    + by intros [-> ->].
Qed.

Section DuplicateIds.
Variable host : Host.

Lemma tool_body_returned_view turn toolCall s s' :
  tool_body host turn toolCall s = (returned (), s') →
  ∃ toolResult,
    tool_records s' !! tool_key turn toolCall = Some toolResult ∧
    messages s' = messages s ++ [toolMessage toolResult toolCall].
Proof.
  rewrite tool_body_eq.
  destruct (tool_step_do_view (tool_key turn toolCall) tool_retries
              (tool_operation host toolCall)
              (updateProgress (toolUpdate toolCall) s).2) as (Hm & _).
  destruct (step_do _ _ _ _) as [[toolResult|e] s1] eqn:Hstep; [|done].
  intros [= <-]. apply (step_do_recorded (T := string)) in Hstep.
  exists toolResult. split; [done|]. simpl in *. by rewrite Hm.
Qed.

Lemma for_of_returned_messages turn toolCalls s s' :
  for_of toolCalls (tool_body host turn) s = (returned (), s') →
  ∃ results,
    length results = length toolCalls ∧
    messages s' = messages s ++ zip_with toolMessage results toolCalls.
Proof.
  intros Hfor.
  destruct (for_of_tools_trace host turn toolCalls s) as (msgs & ups & Htrace & Hm & _).
  rewrite Hfor in Htrace, Hm. simpl in Htrace, Hm.
  apply tools_trace_messages in Htrace as (results & -> & _ & Hall).
  exists results. split; [by apply Hall|done].
Qed.

(** Within a turn, a tool call whose id repeats the id of any call before
    it in the turn gets that call's result: once the calls before it are
    through, its own name and arguments are not looked at, nothing is
    invoked and no record is written. *)
Theorem duplicate_call_id_reuses_result turn pre first mid second s s2 :
  tc_id second = tc_id first →
  for_of (pre ++ first :: mid) (tool_body host turn) s = (returned (), s2) →
  ∃ results toolResult s3,
    messages s2 = messages s ++ zip_with toolMessage results (pre ++ first :: mid) ∧
    length results = length (pre ++ first :: mid) ∧
    results !! length pre = Some toolResult ∧
    tool_body host turn second s2 = (returned (), s3) ∧
    messages s3 = messages s2 ++ [toolMessage toolResult second] ∧
    invoked s3 = invoked s2 ∧
    tool_records s3 = tool_records s2.
Proof.
  intros Hid. rewrite for_of_app.
  destruct (for_of pre (tool_body host turn) s) as [[[]|e] s_pre] eqn:Hpre; [|done].
  simpl. rewrite bind_eq.
  destruct (tool_body host turn first s_pre) as [[[]|e] s_first] eqn:Hfirst; [|done].
  intros Hmid.
  apply for_of_returned_messages in Hpre as (results_pre & Hlen_pre & Hm_pre).
  apply tool_body_returned_view in Hfirst as (toolResult & Hrecord & Hm_first).
  destruct (for_of_records host turn mid s_first) as [_ Hmono].
  rewrite Hmid in Hmono. simpl in Hmono.
  apply for_of_returned_messages in Hmid as (results_mid & Hlen_mid & Hm_mid).
  assert (tool_records s2 !! tool_key turn second = Some toolResult) as Hhit.
  { assert (tool_key turn second = tool_key turn first) as ->.
    { unfold tool_key. by rewrite Hid. }
    by eapply lookup_weaken. }
  exists (results_pre ++ toolResult :: results_mid), toolResult. eexists.
  split_and!.
  - rewrite Hm_mid, Hm_first, Hm_pre, zip_with_app by done.
    simpl. by rewrite <- !app_assoc.
  - rewrite !length_app. simpl. lia.
  - rewrite lookup_app_r by lia. by rewrite Hlen_pre, Nat.sub_diag.
  - rewrite tool_body_eq.
    rewrite (step_do_cached (T := string) _ _ _ _ toolResult) by exact Hhit.
    reflexivity.
  - done.
  - done.
  - done.
Qed.

End DuplicateIds.

Lemma duplicate_call_id_reuses_result_witness :
  ∃ s3,
    tool_body Sample.search_then_done 0 (Sample.call "c1" "get_repo" "not json")
      (for_of [Sample.call "c1" "search_repos" Sample.query_x;
               Sample.call "c2" "get_repo" "{}"]
         (tool_body Sample.search_then_done 0) Sample.start).2
    = (returned (), s3) ∧
    invoked s3 = ["tool-0-c1"; "tool-0-c2"].
Proof.
  destruct (duplicate_call_id_reuses_result Sample.search_then_done 0 []
              (Sample.call "c1" "search_repos" Sample.query_x)
              [Sample.call "c2" "get_repo" "{}"]
              (Sample.call "c1" "get_repo" "not json") Sample.start
              (for_of [Sample.call "c1" "search_repos" Sample.query_x;
                       Sample.call "c2" "get_repo" "{}"]
                 (tool_body Sample.search_then_done 0) Sample.start).2
              eq_refl)
    as (results & toolResult & s3 & _ & _ & _ & Hbody & _ & Hinv & _).
  - vm_compute. reflexivity.
  - exists s3. split; [exact Hbody|]. rewrite Hinv. vm_compute. reflexivity.
Defined.

(** ** The limit of a search *)

(** The guard of [search_repos] looks at [query] only, and [run] puts
    [limit] into the URL as it comes: [5] when it is missing or [null],
    a string as it is, without encoding, and anything else as the text it
    converts to.  No URL is built, and [run] throws before any request, when
    [encodeURIComponent] throws on the query or that conversion throws. *)
Theorem search_limit_unchecked p o query :
  o !! "query" = Some (JString query) →
  isSearchReposInput (JObject o) = true ∧
  search_url p (JObject o)
  = (encoded ← encodeURIComponent p query;
     count ← match o !! "limit" with
             | None | Some JNull => Some "5"
             | Some (JString limit) => Some limit
             | Some limit => ToString p (Some limit)
             end;
     Some ("https://api.github.com/search/repositories?q="
           +:+ encoded +:+ "&sort=stars&per_page=" +:+ count)).
Proof.
  intros Hquery. split.
  - simpl. by rewrite Hquery.
  - unfold search_url. simpl. rewrite Hquery. simpl.
    destruct (encodeURIComponent p query) as [encoded|]; [|done]. simpl.
    by destruct (o !! "limit") as [[]|].
Qed.

Lemma search_limit_unchecked_witness :
  search_url (GitHub.answering None)
    (JObject (<[ "limit" := JString "1&page=2" ]> {[ "query" := JString "x" ]}))
  = Some "https://api.github.com/search/repositories?q=x&sort=stars&per_page=1&page=2".
Proof.
  exact (proj2 (search_limit_unchecked (GitHub.answering None)
                  (<[ "limit" := JString "1&page=2" ]> {[ "query" := JString "x" ]})
                  "x" eq_refl)).
Defined.

(* ================================================================= *)
(** * The client *)

Import App.

(** ** The step log *)

Lemma settle_not_running s : sl_status (App.settle s) ≠ App.step_running.
Proof. unfold App.settle. by destruct (sl_status s) eqn:Hs; simpl; rewrite ?Hs. Qed.

Lemma settle_same s : App.same_step s (App.settle s).
Proof.
  unfold App.same_step, App.settle.
  destruct (sl_status s) eqn:Hs; simpl; rewrite ?Hs; split_and!; auto.
Qed.

Lemma same_step_refl s : App.same_step s s.
Proof. unfold App.same_step. split_and!; auto. Qed.

Lemma same_step_trans s1 s2 s3 :
  App.same_step s1 s2 → App.same_step s2 s3 → App.same_step s1 s3.
Proof.
  unfold App.same_step. intros (?&?&?&?&?&H12) (?&?&?&?&?&H23).
  split_and!; try congruence.
  destruct H12 as [H12|[Ha Hb]], H23 as [H23|[Hb' Hc]].
  - left. congruence.
  - right. split; congruence.
  - right. split; congruence.
  - congruence.
Qed.

Lemma tidy_settled steps : App.tidy (App.settle <$> steps).
Proof.
  intros i s Hi Hs. apply list_lookup_fmap_Some in Hi as (s0 & -> & _).
  by destruct (settle_not_running s0).
Qed.

Lemma tidy_snoc steps s :
  Forall (λ s, sl_status s ≠ App.step_running) steps → App.tidy (steps ++ [s]).
Proof.
  intros Hall i s' Hi Hrun. rewrite length_app. simpl.
  apply lookup_app_Some in Hi as [Hi|[Hle Hi]].
  - rewrite Forall_lookup in Hall. by destruct (Hall i s' Hi).
  - apply list_lookup_singleton_Some in Hi as [Hi _]. lia.
Qed.

Lemma settled_all steps :
  Forall (λ s, sl_status s ≠ App.step_running) (App.settle <$> steps).
Proof. apply Forall_fmap, Forall_true. intros s. apply settle_not_running. Qed.

Lemma onStateUpdate_tidy now stamp newState ui :
  App.tidy (ui_steps ui) → App.tidy (ui_steps (App.onStateUpdate now stamp newState ui)).
Proof.
  intros Htidy. unfold App.onStateUpdate.
  destruct (isSubmitting ui); [done|]. simpl.
  case_decide; [apply tidy_settled|].
  destruct (App.tool_step now stamp (w_message newState)); [|done].
  apply tidy_snoc, settled_all.
Qed.

(** Whatever happens to the component, in whatever order, at most one step
    of the log is shown as running, and it is the last one. *)
Theorem steps_stay_tidy blank events :
  App.tidy (ui_steps (foldl (App.react blank) App.mounted events)).
Proof.
  induction events as [|e events IH] using rev_ind.
  - intros i s Hi. done.
  - rewrite foldl_app. simpl.
    set (ui := foldl (App.react blank) App.mounted events) in *.
    destruct e as [now stamp newState|text|now stamp|instanceId|now stamp text turn|]; simpl.
    + by apply onStateUpdate_tidy.
    + done.
    + unfold App.handleSubmit_begin. destruct (blank (ui_task ui)); [done|].
      simpl. by apply (tidy_snoc []).
    + done.
    + intros i s Hi Hs. simpl in Hi.
      apply lookup_app_Some in Hi as [Hi|[_ Hi]].
      * apply list_lookup_fmap_Some in Hi as (s0 & -> & _). done.
      * apply list_lookup_singleton_Some in Hi as [_ <-]. done.
    + intros i s Hi. done.
Qed.

(** A state update never removes or reorders steps and adds at most one, at
    the end; a step that was there keeps its id, turn, tool, message and
    timestamp, and its status is as before or went from running to
    complete: an update never marks a step as failed.  Once the state says
    ["complete"] no step is left running. *)
Theorem state_update_keeps_steps now stamp newState ui :
  let ui' := App.onStateUpdate now stamp newState ui in
  length (ui_steps ui) ≤ length (ui_steps ui') ≤ S (length (ui_steps ui)) ∧
  (∀ i s, ui_steps ui !! i = Some s →
          ∃ s', ui_steps ui' !! i = Some s' ∧ App.same_step s s') ∧
  (isSubmitting ui = false → w_status newState = AgentStatus.COMPLETE →
   Forall (λ s, sl_status s ≠ App.step_running) (ui_steps ui')).
Proof.
  simpl. unfold App.onStateUpdate.
  destruct (isSubmitting ui).
  { split_and!; [lia|lia| |done]. intros i s Hi. exists s. split; [done|apply same_step_refl]. }
  simpl.
  assert (∀ (steps : list StepLog) i s, steps !! i = Some s →
            ∃ s', (App.settle <$> steps) !! i = Some s' ∧ App.same_step s s') as Hsettle.
  { intros steps i s Hi. exists (App.settle s).
    rewrite list_lookup_fmap, Hi. split; [done|apply settle_same]. }
  destruct (App.tool_step now stamp (w_message newState)) as [newStep|];
    case_decide; rewrite ?length_fmap, ?length_app, ?length_fmap; simpl.
  - split_and!; [lia|lia| |intros _ _; apply settled_all].
    intros i s Hi. destruct (Hsettle _ i s Hi) as (s1 & H1 & Hs1).
    destruct (Hsettle _ i s1 (lookup_app_l_Some _ [newStep] _ _ H1)) as (s2 & H2 & Hs2).
    exists s2. split; [done|by eapply same_step_trans].
  - split_and!; [lia|lia| |done].
    intros i s Hi. destruct (Hsettle _ i s Hi) as (s1 & H1 & Hs1).
    exists s1. split; [by apply lookup_app_l_Some|done].
  - split_and!; [lia|lia|by apply Hsettle|intros _ _; apply settled_all].
  - split_and!; [lia|lia| |done].
    intros i s Hi. exists s. split; [done|apply same_step_refl].
Qed.

(** ** The label of a tool step *)

Lemma strip_prefix_app literal rest : strip_prefix literal (literal +:+ rest) = Some rest.
Proof.
  induction literal as [|a literal IH]; [done|].
  rewrite append_cons. simpl. by rewrite Ascii.eqb_refl.
Qed.

Lemma strip_prefix_Some literal s rest :
  strip_prefix literal s = Some rest → s = literal +:+ rest.
Proof.
  revert s. induction literal as [|a literal IH]; intros s; simpl.
  - by intros [= ->].
  - destruct s as [|b s]; [done|].
    destruct (Ascii.eqb_spec a b) as [->|]; [|done].
    intros Hs%IH. by rewrite Hs.
Qed.

Lemma regex_group_here literal class s group :
  match_here literal class s = Some group →
  regex_group literal class s = Some group.
Proof. intros H. destruct s; simpl; by rewrite H. Qed.

Lemma regex_group_skip literal class c s :
  match_here literal class (String c s) = None →
  regex_group literal class (String c s) = regex_group literal class s.
Proof. intros H. simpl regex_group. by rewrite H. Qed.

Lemma match_here_head a literal class c s :
  a ≠ c → match_here (String a literal) class (String c s) = None.
Proof.
  intros Hne. unfold match_here. simpl.
  by destruct (Ascii.eqb_spec a c).
Qed.

(** A string without a space holds no match of a pattern whose literal has
    one. *)
Lemma spaceless_app s t : spaceless (s +:+ t) = spaceless s && spaceless t.
Proof.
  induction s as [|c s IH]; [done|].
  rewrite append_cons. simpl. by rewrite IH, andb_assoc.
Qed.

Lemma spaceless_no_turn class s :
  spaceless s = true → regex_group "Processing turn " class s = None.
Proof.
  induction s as [|c s IH]; intros Hs.
  - reflexivity.
  - assert (match_here "Processing turn " class (String c s) = None) as Hhere.
    { unfold match_here.
      destruct (strip_prefix "Processing turn " (String c s)) as [rest|] eqn:Hstrip;
        [|done].
      apply strip_prefix_Some in Hstrip. rewrite Hstrip in Hs.
      by rewrite spaceless_app in Hs. }
    rewrite regex_group_skip by done. apply IH.
    simpl in Hs. by apply andb_true_iff in Hs as [_ ?].
Qed.

Lemma word_spaceless s : word_only s = true → spaceless s = true.
Proof.
  induction s as [|c s IH]; [done|]. simpl.
  intros [Hc Hs]%andb_true_iff. rewrite IH by done.
  destruct (Ascii.eqb_spec c (Ascii.ascii_of_nat 32)) as [->|]; [done|done].
Qed.

Lemma take_while_word name :
  word_only name = true → take_while is_word (name +:+ "...") = name.
Proof.
  induction name as [|c name IH]; [done|]. simpl.
  intros [Hc Hs]%andb_true_iff. by rewrite Hc, IH.
Qed.

(** A tool update whose tool name is a non-empty word adds a step labelled
    with that name.  The step's turn is 1 whatever the turn of the Run: the
    message of a tool update carries no turn number. *)
Theorem tool_step_label now stamp toolCall :
  fn_name (tc_function toolCall) ≠ "" →
  word_only (fn_name (tc_function toolCall)) = true →
  tool_step now stamp (pu_message (toolUpdate toolCall))
  = Some {| sl_id := pretty now +:+ "-" +:+ fn_name (tc_function toolCall);
            sl_turn := 1;
            sl_tool := fn_name (tc_function toolCall);
            sl_message := "Executing " +:+ fn_name (tc_function toolCall) +:+ "...";
            sl_status := step_running;
            sl_timestamp := stamp |}.
Proof.
  intros Hne Hword. simpl. generalize dependent (fn_name (tc_function toolCall)).
  intros name Hne Hword. unfold tool_step.
  assert (regex_group "Processing turn " is_digit ("Using tool: " +:+ name +:+ "...") = None)
    as ->.
  { rewrite !append_cons, append_empty.
    repeat (rewrite regex_group_skip by (by apply match_here_head)).
    apply spaceless_no_turn. rewrite spaceless_app, word_spaceless by done. done. }
  assert (includes "Using tool:" ("Using tool: " +:+ name +:+ "...") = true) as ->.
  { rewrite !append_cons, append_empty. reflexivity. }
  assert (regex_group "Using tool: " is_word ("Using tool: " +:+ name +:+ "...") = Some name)
    as ->; [|done].
  apply regex_group_here. unfold match_here.
  rewrite strip_prefix_app, take_while_word by done.
  by destruct name.
Qed.

Lemma tool_step_label_witness :
  sl_tool <$> tool_step 7 7 (pu_message (toolUpdate (Sample.call "c1" "search_repos" "{}")))
  = Some "search_repos".
Proof.
  by rewrite (tool_step_label 7 7 (Sample.call "c1" "search_repos" "{}")).
Defined.

(** ** The client over a Run *)

Lemma loop_trace_complete MAX n turn r msgs ups :
  loop_trace MAX n turn (returned r) msgs ups →
  wr_status r = complete →
  ∃ ups' choice,
    ups = ups' ++ [completeUpdate choice] ∧
    Forall running_phase ups' ∧
    wr_result r = present (cm_content (ch_message choice)).
Proof.
  intros Htrace. remember (returned r) as o eqn:Ho.
  induction Htrace as [turn|n turn e msgs ups Hturn|n turn r' msgs ups Hturn
                       |n turn o msgs ups msgs' ups' Hturn Hloop IH].
  - injection Ho as <-. done.
  - done.
  - injection Ho as ->. intros _.
    apply turn_trace_updates in Hturn as (choice & -> & ->).
    exists [turnUpdate turn], choice. split_and!; [done| |done].
    repeat constructor; apply running_turnUpdate.
  - intros Hc. destruct (IH Ho Hc) as (ups1 & choice & -> & Hrun & Hres).
    apply turn_trace_updates in Hturn. simpl in Hturn.
    exists (ups ++ ups1), choice. split_and!; [by rewrite app_assoc| |done].
    by apply Forall_app.
Qed.

Lemma broadcasts_app a ups ups' :
  broadcasts a (ups ++ ups')
  = broadcasts a ups ++ broadcasts (after_updates a ups) ups'.
Proof.
  revert a. induction ups as [|u ups IH]; intros a; [done|].
  simpl. by rewrite IH.
Qed.

Lemma watch_app clock k states states' ui :
  watch clock k (states ++ states') ui
  = watch clock (k + length states) states' (watch clock k states ui).
Proof.
  revert k ui. induction states as [|w states IH]; intros k ui; simpl.
  - by rewrite Nat.add_0_r.
  - rewrite IH. f_equal. lia.
Qed.

(** While the agent takes running-phase updates with an empty result, a
    client that listens shows an empty result and is running. *)
Lemma watch_running clock k a ups ui :
  Forall running_phase ups →
  as_result a = present (Some "") →
  isSubmitting ui = false →
  let ui' := watch clock k (broadcasts a ups) ui in
  isSubmitting ui' = false ∧
  (ups ≠ [] ∨ (ui_result ui = "" ∧ isRunning ui = true) →
   ui_result ui' = "" ∧ isRunning ui' = true).
Proof.
  intros Hrun. revert k a ui.
  induction Hrun as [|u ups [Hst Hres] _ IH]; intros k a ui Ha Hsub; simpl.
  - split; [done|]. by intros [|].
  - set (a' := ResearchAgent.updateProgress a u).
    set (ui1 := onStateUpdate (clock k).1 (clock k).2 (wire a') ui).
    assert (as_result a' = present (Some "")) as Ha'.
    { subst a'. simpl. by rewrite Hres. }
    assert (isSubmitting ui1 = false ∧ ui_result ui1 = "" ∧ isRunning ui1 = true)
      as (Hsub1 & Hres1 & Hrun1).
    { subst ui1. unfold onStateUpdate. rewrite Hsub. simpl. rewrite Hres. simpl.
      rewrite Ha. split_and!; [done|done|].
      unfold isRunning. simpl. by destruct Hst as [-> | ->]. }
    destruct (IH (S k) a' ui1 Ha' Hsub1) as [Hsub' Hkeep].
    split; [done|]. intros _. apply Hkeep. by right.
Qed.

(** A client that listens to a whole Run, from the initial update on.  When
    the Run returns [complete], the client shows status ["complete"], no
    step is left running, and the result is the model's answer, or the
    empty string when the answer has no content.  When the Run throws or
    returns [max_turns_reached], the client is left running with an empty
    result: nothing tells it that the Run is over. *)
Theorem client_follows_run MAX_AGENT_TURNS host task s clock k ui :
  isSubmitting ui = false →
  ∃ ups,
    published (run MAX_AGENT_TURNS host task s).2 = published s ++ initialUpdate :: ups ∧
    let ui' := watch clock k (broadcasts (agent s) (initialUpdate :: ups)) ui in
    match (run MAX_AGENT_TURNS host task s).1 with
    | returned {| wr_status := complete; wr_result := result |} =>
        ∃ content,
          result = present content ∧
          ui_status ui' = AgentStatus.COMPLETE ∧
          isRunning ui' = false ∧
          ui_result ui' = default "" content ∧
          Forall (λ step, sl_status step ≠ step_running) (ui_steps ui')
    | _ =>
        isRunning ui' = true ∧ ui_result ui' = ""
    end.
Proof.
  intros Hsub.
  destruct (run_trace MAX_AGENT_TURNS host task s) as (msgs & ups & Htrace & _ & Hp & _).
  exists ups. split; [done|]. simpl.
  set (a0 := ResearchAgent.updateProgress (agent s) initialUpdate).
  set (ui0 := onStateUpdate (clock k).1 (clock k).2 (wire a0) ui).
  assert (as_result a0 = present (Some "")) as Ha0 by done.
  assert (isSubmitting ui0 = false ∧ ui_result ui0 = "" ∧ isRunning ui0 = true)
    as (Hsub0 & Hres0 & Hrun0).
  { subst ui0. unfold onStateUpdate. by rewrite Hsub. }
  assert (∀ ups', Forall running_phase ups' →
            let ui' := watch clock (S k) (broadcasts a0 ups') ui0 in
            isSubmitting ui' = false ∧ ui_result ui' = "" ∧ isRunning ui' = true)
    as Hwatch.
  { intros ups' Hall. destruct (watch_running clock (S k) a0 ups' ui0 Hall Ha0 Hsub0)
      as [? Hkeep]. simpl. split; [done|]. apply Hkeep. by right. }
  pose proof (loop_trace_updates _ _ _ _ _ _ Htrace) as Hups.
  destruct (run MAX_AGENT_TURNS host task s).1 as [[[] turns result]|e].
  - destruct (loop_trace_complete _ _ _ _ _ _ Htrace eq_refl)
      as (ups' & choice & -> & Hall & Hres).
    simpl in Hres. subst result. exists (cm_content (ch_message choice)).
    split; [done|].
    rewrite broadcasts_app, watch_app. simpl.
    destruct (Hwatch ups' Hall) as (Hsub' & Hres' & _). simpl in Hsub', Hres'.
    set (ui1 := watch clock (S k) (broadcasts a0 ups') ui0) in *.
    unfold onStateUpdate. rewrite Hsub'. simpl.
    split_and!; [done|done| |].
    + destruct (cm_content (ch_message choice)); [done|]. simpl.
      assert (as_result (after_updates a0 ups') = present (Some "")) as Hkept.
      { by rewrite after_updates_running_result. }
      done.
    + apply settled_all.
  - destruct Hups as [[Hc _]|[_ Hall]]; [done|].
    by destruct (Hwatch ups Hall) as (_ & ? & ?).
  - destruct Hups as [Hall _].
    by destruct (Hwatch ups Hall) as (_ & ? & ?).
Qed.

Lemma client_follows_run_witness :
  ∃ ups,
    published (run 10 Sample.pong "ping" Sample.start).2
    = published Sample.start ++ initialUpdate :: ups ∧
    ui_result
      (watch (λ k, (k, k)) 0
         (broadcasts (agent Sample.start) (initialUpdate :: ups))
         (handleSubmit_done (Some "run-1")
            (handleSubmit_begin (λ _, false) 0 0 mounted)))
    = "pong".
Proof.
  destruct (client_follows_run 10 Sample.pong "ping" Sample.start (λ k, (k, k)) 0
              (handleSubmit_done (Some "run-1")
                 (handleSubmit_begin (λ _, false) 0 0 mounted)) eq_refl)
    as (ups & Hp & Hui).
  exists ups. split; [exact Hp|].
  assert ((run 10 Sample.pong "ping" Sample.start).1
          = returned {| wr_status := complete; wr_turns := 1;
                        wr_result := present (Some "pong") |}) as Hrun
    by (vm_compute; reflexivity).
  cbv zeta in Hui. rewrite Hrun in Hui.
  destruct Hui as (content & Hcontent & _ & _ & Hres & _).
  injection Hcontent as <-. exact Hres.
Defined.

(** ** A reset seen by a client *)

(** The state [reset] leaves carries no [result] and an empty message, so a
    client that receives it goes back to ["idle"] and keeps the result and
    the steps it was showing, whatever the agent's state before the reset. *)
Theorem reset_broadcast_keeps_result now stamp a ui :
  isSubmitting ui = false →
  let ui' := onStateUpdate now stamp (wire (ResearchAgent.reset a)) ui in
  ui_status ui' = AgentStatus.IDLE ∧
  isRunning ui' = false ∧
  ui_result ui' = ui_result ui ∧
  ui_steps ui' = ui_steps ui.
Proof.
  intros Hsub. simpl. unfold onStateUpdate. by rewrite Hsub.
Qed.

Lemma reset_broadcast_keeps_result_witness :
  ui_result
    (onStateUpdate 1 1 (wire (ResearchAgent.reset ResearchAgent.initialState))
       (handleSubmit_done None (handleSubmit_begin (λ _, false) 0 0 mounted)))
  = "".
Proof.
  by destruct (reset_broadcast_keeps_result 1 1 ResearchAgent.initialState
                 (handleSubmit_done None (handleSubmit_begin (λ _, false) 0 0 mounted))
                 eq_refl) as (_ & _ & -> & _).
Defined.
